(** * mserve/extract: rule evaluator, path remapper and concurrent downloader

    A shallow embedding of the Go package [extract] (the extractor, the
    mapper and the rule model) and the properties its specification states
    about it. The first part holds the definitions, module by module
    ([Mapper], [Extract], [Download]) and small collaborators to run them
    on ([Sample]); the second part holds the properties.

    Conventions of the embedding:
    - a Go [string] is a [string] (a sequence of bytes);
    - a Go [int] is a [Z]; slice lengths and indices are [nat];
    - [interface{}] is the tagged type [value]; the dynamic Go type of a
      value is its constructor, so a type assertion is a [match];
    - [map[string]interface{}] and [Result] are [gmap string value]; an
      object mutated in place (a map, a rule, a directive) is passed
      through the function that mutates it and returned in its new state;
    - a [nil] slice and an empty slice are both the empty list;
    - a panic is the absence of a result ([None]);
    - collaborators outside the package (goquery, net/url, the regexp
      engine, gjson, HTTP, the filesystem, the sources of time and
      randomness) are records of operations, and every definition and
      theorem is parametric in them;
    - the progress counter of the evaluator ([RuleProgress]) takes no part
      in the value of any result: [Extract] gives the results as they are
      with a counter that is not nil, and [Progress] follows the calls the
      evaluator makes on the counter, with the panic on a nil one. *)

From Stdlib Require Import ZArith Ascii String DecimalString.
From Stdlib Require DecimalPos.
From stdpp Require Import gmap strings list fin_maps.

Local Open Scope string_scope.
Local Open Scope list_scope.
Set Warnings "-register-all,-clear-no-such-hyp".

(** ** Dynamic values *)

Inductive value : Type :=
| VNil                              (* untyped nil *)
| VBool (b : bool)
| VInt (n : Z)                      (* int *)
| VNum (n : Z)                      (* float64 produced by a JSON decoder *)
| VStr (s : string)                 (* string *)
| VStrs (l : list string)           (* []string *)
| VArr (l : list value)             (* []interface{} *)
| VMap (m : gmap string value)      (* map[string]interface{} *)
| VRes (m : gmap string value)      (* Result *)
| VResults (l : list (gmap string value)).  (* []Result *)

Definition is_VArr (v : value) : bool :=
  match v with VArr _ => true | _ => false end.

(** ** The string functions of package [strings] that the code calls *)

Module Strings.

Definition is_empty (s : string) : bool :=
  match s with "" => true | _ => false end.

(** [strings.Split(s, sep)] for a one-byte separator: never empty. *)
Fixpoint Split (sep : ascii) (s : string) : list string :=
  match s with
  | "" => [""]
  | String c s' =>
      if Ascii.eqb c sep then "" :: Split sep s'
      else match Split sep s' with
           | [] => [String c ""]
           | h :: t => String c h :: t
           end
  end.

(** [strings.ReplaceAll(s, old, new)] for a one-byte [old]. *)
Fixpoint ReplaceAll (old : ascii) (new : string) (s : string) : string :=
  match s with
  | "" => ""
  | String c s' =>
      if Ascii.eqb c old then new +:+ ReplaceAll old new s'
      else String c (ReplaceAll old new s')
  end.

(** White space, as [unicode.IsSpace] has it. In one byte: tab, line
    feed, vertical tab, form feed, carriage return and space. *)
Definition is_space (c : ascii) : bool :=
  let n := nat_of_ascii c in
  Nat.eqb n 32 || (Nat.leb 9 n && Nat.leb n 13).

(** In two bytes of UTF-8: U+0085 and U+00A0. *)
Definition is_space2 (a b : ascii) : bool :=
  let a := nat_of_ascii a in
  let b := nat_of_ascii b in
  Nat.eqb a 194 && (Nat.eqb b 133 || Nat.eqb b 160).

(** In three bytes: U+1680, U+2000 to U+200A, U+2028, U+2029, U+202F,
    U+205F and U+3000. *)
Definition is_space3 (a b c : ascii) : bool :=
  let a := nat_of_ascii a in
  let b := nat_of_ascii b in
  let c := nat_of_ascii c in
  (Nat.eqb a 225 && Nat.eqb b 154 && Nat.eqb c 128)
  || (Nat.eqb a 226 && Nat.eqb b 128
      && ((Nat.leb 128 c && Nat.leb c 138)
          || Nat.eqb c 168 || Nat.eqb c 169 || Nat.eqb c 175))
  || (Nat.eqb a 226 && Nat.eqb b 129 && Nat.eqb c 159)
  || (Nat.eqb a 227 && Nat.eqb b 128 && Nat.eqb c 128).

(** The runes of white space a string starts with are dropped, one
    after the other. *)
Fixpoint TrimLeft (s : string) : string :=
  match s with
  | "" => ""
  | String a s1 =>
      if is_space a then TrimLeft s1
      else
        match s1 with
        | "" => s
        | String b s2 =>
            if is_space2 a b then TrimLeft s2
            else
              match s2 with
              | "" => s
              | String c s3 =>
                  if is_space3 a b c then TrimLeft s3 else s
              end
        end
  end.

(** The same from the end, on the bytes of the string taken backwards:
    the last byte comes first. *)
Fixpoint trimBackwards (r : string) : string :=
  match r with
  | "" => ""
  | String c r1 =>
      if is_space c then trimBackwards r1
      else
        match r1 with
        | "" => r
        | String b r2 =>
            if is_space2 b c then trimBackwards r2
            else
              match r2 with
              | "" => r
              | String a r3 =>
                  if is_space3 a b c then trimBackwards r3 else r
              end
        end
  end.

Definition TrimRight (s : string) : string :=
  String.rev (trimBackwards (String.rev s)).

(** Whether the byte [c] occurs in [s]. *)
Fixpoint occurs (c : ascii) (s : string) : bool :=
  match s with
  | "" => false
  | String c' s' => Ascii.eqb c' c || occurs c s'
  end.

(** [strings.Contains(s, substr)]. *)
Fixpoint Contains (s substr : string) : bool :=
  String.prefix substr s
  || match s with
     | "" => false
     | String _ s' => Contains s' substr
     end.

(** [strings.ReplaceAll(s, old, new)] for a token [old] that is not empty.
    [skip] counts the bytes of the current occurrence still to be dropped. *)
Fixpoint ReplaceToken (skip : nat) (old new : string) (s : string) : string :=
  match s with
  | "" => ""
  | String c s' =>
      match skip with
      | S k => ReplaceToken k old new s'
      | O =>
          if String.prefix old s
          then new +:+ ReplaceToken (String.length old - 1) old new s'
          else String c (ReplaceToken 0 old new s')
      end
  end.

(** [strings.TrimSpace]: the white space at both ends is removed. *)
Definition TrimSpace (s : string) : string := TrimRight (TrimLeft s).

End Strings.

(** ** Path remapper (mapper.go) *)

Module Mapper.

Definition is_digit (c : ascii) : bool :=
  let n := nat_of_ascii c in Nat.leb 48 n && Nat.leb n 57.

(** The longest prefix of digits, and what follows it. *)
Fixpoint take_digits (s : string) : string * string :=
  match s with
  | String c s' =>
      if is_digit c then let '(d, r) := take_digits s' in (String c d, r)
      else ("", s)
  | "" => ("", "")
  end.

(** Whether the pattern [\[[0-9]+]] matches at the head of [s]: the digits
    between the brackets and the text after the closing bracket. *)
Definition match_index_at (s : string) : option (string * string) :=
  match s with
  | String "[" s1 =>
      match take_digits s1 with
      | (String d ds, String "]" r) => Some (String d ds, r)
      | _ => None
      end
  | _ => None
  end.

(** [re.FindString(s)] for [re = \[[0-9]+]], followed by the removal of
    the two brackets: the digits of the leftmost match. *)
Fixpoint find_index_digits (s : string) : option string :=
  match match_index_at s with
  | Some (ds, _) => Some ds
  | None =>
      match s with
      | "" => None
      | String _ s' => find_index_digits s'
      end
  end.

(** [re.ReplaceAllString(s, "")] for the same pattern. [skip] counts the
    bytes of the current match that are still to be dropped. *)
Fixpoint strip_index (skip : nat) (s : string) : string :=
  match s with
  | "" => ""
  | String c s' =>
      match skip with
      | S k => strip_index k s'
      | O =>
          match match_index_at s with
          | Some (ds, _) => strip_index (S (String.length ds)) s'
          | None => String c (strip_index 0 s')
          end
      end
  end.

Definition digit_val (c : ascii) : Z := Z.of_nat (nat_of_ascii c) - 48.

Fixpoint digits_to_Z (acc : Z) (s : string) : Z :=
  match s with
  | "" => acc
  | String c s' => digits_to_Z (10 * acc + digit_val c) s'
  end.

Definition MaxInt : Z := 2 ^ 63 - 1.

(** [strconv.Atoi] on a string of digits: fails when the number does not
    fit an [int]. *)
Definition Atoi (ds : string) : option Z :=
  let n := digits_to_Z 0 ds in
  if (n <=? MaxInt)%Z then Some n else None.

(** [extractNumberFromBrackets]: [None] stands for the returned error. *)
Definition extractNumberFromBrackets (s : string) : option Z :=
  match find_index_digits s with
  | None => None
  | Some ds => Atoi ds
  end.

Inductive status : Type :=
| Stored                      (* the value was written at the last key *)
| NotAMap (key : string)      (* "pathing failed: key ... is not a map" *)
| IndexOutOfRange.            (* run-time panic of [v[n]] *)

(** The body of the loop of [complexPathing] at the last key. *)
Definition assignLast (currentMap : gmap string value) (key : string)
    (value0 : value) : gmap string value * status :=
  match value0 with
  | VArr v =>
      match extractNumberFromBrackets key with
      | None => (<[key := VArr v]> currentMap, Stored)
      | Some n =>
          if (Z.of_nat (length v) <? n)%Z
          then (<[key := VArr v]> currentMap, Stored)
          else match v !! Z.to_nat n with
               | Some x => (<[strip_index 0 key := x]> currentMap, Stored)
               | None => (currentMap, IndexOutOfRange)
               end
      end
  | _ => (<[key := value0]> currentMap, Stored)
  end.

(** The loop of [complexPathing] from [currentMap] on. A map the code
    creates is linked into its parent before the loop descends into it,
    and every map on the way is updated in place: the first component is
    the state of [currentMap] when the loop stops, whatever stops it. *)
Fixpoint walk (keys : list string) (currentMap : gmap string value)
    (value0 : value) : gmap string value * status :=
  match keys with
  | [] => (currentMap, Stored)
  | key :: rest =>
      match rest with
      | [] => assignLast currentMap key value0
      | _ :: _ =>
          match currentMap !! key with
          | None =>
              let '(newMap, st) := walk rest ∅ value0 in
              (<[key := VMap newMap]> currentMap, st)
          | Some (VMap nextMap) =>
              let '(nextMap', st) := walk rest nextMap value0 in
              (<[key := VMap nextMap']> currentMap, st)
          | Some _ => (currentMap, NotAMap key)
          end
      end
  end.

(** [complexPathing]: the map it returns is the one it was given, after
    the in-place updates; [None] is a panic. *)
Definition complexPathing (maps : gmap string value) (path : string)
    (value0 : value) : option (gmap string value) :=
  match walk (Strings.Split "." path) maps value0 with
  | (_, IndexOutOfRange) => None
  | (maps', _) => Some maps'
  end.

(** *** Reading a destination back *)

(** The value found by following [keys] down from [cur]. *)
Fixpoint locate (keys : list string) (cur : value) : option value :=
  match keys with
  | [] => Some cur
  | key :: rest =>
      match cur with
      | VMap m =>
          match m !! key with
          | Some next => locate rest next
          | None => None
          end
      | _ => None
      end
  end.

(** The key under which the last segment [key] of a path stores
    [value0], and the value stored there. *)
Definition leafKey (key : string) (value0 : value) : string :=
  match value0 with
  | VArr v =>
      match extractNumberFromBrackets key with
      | None => key
      | Some n =>
          if (Z.of_nat (length v) <? n)%Z then key else strip_index 0 key
      end
  | _ => key
  end.

Definition leafValue (key : string) (value0 : value) : value :=
  match value0 with
  | VArr v =>
      match extractNumberFromBrackets key with
      | None => value0
      | Some n =>
          if (Z.of_nat (length v) <? n)%Z then value0
          else default VNil (v !! Z.to_nat n)
      end
  | _ => value0
  end.

(** The same along a whole path: every key but the last is kept. *)
Fixpoint leafPath (keys : list string) (value0 : value) : list string :=
  match keys with
  | [] => []
  | key :: rest =>
      match rest with
      | [] => [leafKey key value0]
      | _ :: _ => key :: leafPath rest value0
      end
  end.

Fixpoint leafOf (keys : list string) (value0 : value) : value :=
  match keys with
  | [] => value0
  | key :: rest =>
      match rest with
      | [] => leafValue key value0
      | _ :: _ => leafOf rest value0
      end
  end.

(** *** Directives *)

Inductive Mapping : Type := mkMapping {
  Object : string;
  Key : string;
  To : string;
  Format : option (gmap string value);      (* [None]: a nil map *)
  IsArray : bool;
  IsObject : bool;
  ArrayObjMap : list Mapping
}.

(** gjson, and the sources of time and randomness that fill placeholder
    tokens: the collaborators of the remapper. *)
Record Collab : Type := {
  Bytes : Type;                                   (* []byte holding JSON *)
  gjResult : Type;                                (* gjson.Result *)
  Marshal : gmap string value -> option Bytes;    (* json.Marshal *)
  GetBytes : Bytes -> string -> gjResult;         (* gjson.GetBytes *)
  Get : gjResult -> string -> gjResult;           (* Result.Get *)
  Exists : gjResult -> bool;                      (* Result.Exists *)
  Value : gjResult -> value;                      (* Result.Value *)
  ForEach : gjResult -> list gjResult;            (* values the iterator sees *)
  replacePlaceholdersInterface : value -> Z -> value
}.

Section Remap.
Context (W : Collab).

Fixpoint deepCopy (v : value) (index : Z) : value :=
  match v with
  | VMap m => VMap ((fun x => deepCopy x index) <$> m)
  | VArr s =>
      VArr ((fix deepCopySlice (s : list value) (i : Z) : list value :=
               match s with
               | [] => []
               | x :: s' => deepCopy x i :: deepCopySlice s' (i + 1)%Z
               end) s 0%Z)
  | _ => replacePlaceholdersInterface W v index
  end.

Definition deepCopyMap (m : gmap string value) (index : Z)
  : gmap string value :=
  (fun x => deepCopy x index) <$> m.

(** The two in-place writes of [remapSingleObject] to a directive. *)
Definition normalizeKey (k : string) : string :=
  Strings.ReplaceAll "]" "" (Strings.ReplaceAll "[" "." k).

Definition normalizeMapping (rule : Mapping) : Mapping :=
  {| Object := Object rule;
     Key := normalizeKey (Key rule);
     To := To rule;
     Format := Some (default ∅ (Format rule));
     IsArray := IsArray rule;
     IsObject := IsObject rule;
     ArrayObjMap := ArrayObjMap rule |}.

(** One turn of the loop of [remapSingleObject]: the directive as the
    turn leaves it, and [remappedObj] after it; [None] is a panic. *)
Definition remapRule (obj : gjResult W) (index : Z)
    (remappedObj : gmap string value) (rule : Mapping)
  : option (Mapping * gmap string value) :=
  let rule' := normalizeMapping rule in
  let gjsonVal :=
    if bool_decide (Key rule' = "" \/ Key rule' = ".") then obj
    else Get W obj (Key rule') in
  let formatCopy := deepCopyMap (default ∅ (Format rule')) index in
  let remappedObj := formatCopy ∪ remappedObj in
  if Exists W gjsonVal then
    match complexPathing remappedObj (To rule') (Value W gjsonVal) with
    | Some m => Some (rule', m)
    | None => None
    end
  else Some (rule', remappedObj).

Fixpoint remapRules (obj : gjResult W) (index : Z)
    (remappedObj : gmap string value) (rules : list Mapping)
  : option (list Mapping * gmap string value) :=
  match rules with
  | [] => Some ([], remappedObj)
  | rule :: rest =>
      match remapRule obj index remappedObj rule with
      | None => None
      | Some (rule', m) =>
          match remapRules obj index m rest with
          | None => None
          | Some (rest', m') => Some (rule' :: rest', m')
          end
      end
  end.

(** [remapSingleObject]: the directives after the call and the object
    built (the error it returns is always nil); [None] is a panic. *)
Definition remapSingleObject (obj : gjResult W) (rules : list Mapping)
    (index : Z) : option (list Mapping * gmap string value) :=
  remapRules obj index ∅ rules.

(** The [ForEach] callback of [MapResultsResults], element by element. *)
Fixpoint eachElement (elems : list (gjResult W)) (index : Z)
    (subs : list Mapping) (arrayResult : list value)
  : option (list Mapping * list value) :=
  match elems with
  | [] => Some (subs, arrayResult)
  | v :: rest =>
      match subs with
      | _ :: _ =>
          match remapSingleObject v subs index with
          | None => None
          | Some (subs', nestedObj) =>
              eachElement rest (index + 1) subs'
                (arrayResult ++ [VMap nestedObj])
          end
      | [] =>
          eachElement rest (index + 1) subs (arrayResult ++ [Value W v])
      end
  end.

(** The value a directive writes, and the directive after its nested
    directives were normalised. *)
Definition directiveValue (data : Bytes W) (mapping : Mapping)
  : option (Mapping * value) :=
  let gjsonResult := GetBytes W data (Key mapping) in
  if IsArray mapping || negb (bool_decide (ArrayObjMap mapping = [])) then
    match eachElement (ForEach W gjsonResult) 0 (ArrayObjMap mapping) [] with
    | None => None
    | Some (subs', arrayResult) =>
        Some ({| Object := Object mapping; Key := Key mapping;
                 To := To mapping; Format := Format mapping;
                 IsArray := IsArray mapping; IsObject := IsObject mapping;
                 ArrayObjMap := subs' |},
              VArr arrayResult)
    end
  else Some (mapping, Value W gjsonResult).

Record state : Type := mkState {
  remappedData : gmap string value;
  objMap : gmap string (gmap string value)
}.

(** The map a directive writes into: the shared root, or its named
    bucket, created empty when it is not there yet. *)
Definition destination (st : state) (object : string)
  : gmap string value :=
  if bool_decide (object = "") then remappedData st
  else default ∅ (objMap st !! object).

Definition setDestination (st : state) (object : string)
    (m : gmap string value) : state :=
  if bool_decide (object = "") then
    {| remappedData := m; objMap := objMap st |}
  else
    {| remappedData := remappedData st;
       objMap := <[object := m]> (objMap st) |}.

(** One turn of the loop of [MapResultsResults]. *)
Definition applyMapping (data : Bytes W) (st : state) (mapping : Mapping)
  : option (Mapping * state) :=
  match directiveValue data mapping with
  | None => None
  | Some (mapping', v) =>
      match complexPathing (destination st (Object mapping))
              (To mapping) v with
      | None => None
      | Some m => Some (mapping', setDestination st (Object mapping) m)
      end
  end.

Fixpoint applyMappings (data : Bytes W) (st : state)
    (mappings : list Mapping) : option (list Mapping * state) :=
  match mappings with
  | [] => Some ([], st)
  | mapping :: rest =>
      match applyMapping data st mapping with
      | None => None
      | Some (mapping', st') =>
          match applyMappings data st' rest with
          | None => None
          | Some (rest', st'') => Some (mapping' :: rest', st'')
          end
      end
  end.

Inductive outcome : Type :=
| Panics
| Fails                                          (* err != nil *)
| Returns (mappings : list Mapping) (remapped : gmap string value).

(** [MapResultsResults(result, r)], with [r.Mapping] for [r]: what it
    returns, and the directives as it leaves them. *)
Definition MapResultsResults (result : gmap string value)
    (mappings : list Mapping) : outcome :=
  match Marshal W result with
  | None => Fails
  | Some data =>
      match applyMappings data
              {| remappedData := ∅; objMap := ∅ |} mappings with
      | None => Panics
      | Some (mappings', st) => Returns mappings' (remappedData st)
      end
  end.

End Remap.

End Mapper.


(** ** Rule evaluator and transform pipeline (the extractor) *)

Module Extract.

(** The Go type of one transform is named [Transforms], like the field
    of the rule that lists them; the type is [Transform] here. *)
Record Transform : Type := mkTransform {
  Match : string;
  Split : bool;
  Replace : string
}.

Inductive ExtractionRule : Type := mkRule {
  Name : string;
  Selector : string;
  Attr : string;
  Multiple : bool;
  Download : bool;
  Visit : bool;
  Flatten : bool;
  SaveDir : string;
  Children : list ExtractionRule;
  Transforms : list Transform
}.

Definition error : Type := string.

(** A Go result pair [(x, err)]. *)
Inductive ret (A : Type) : Type :=
| Ok (a : A)
| Err (e : error).
Arguments Ok {A} a.
Arguments Err {A} e.

(** The collaborators of the evaluator: document selection (goquery),
    URL resolution (net/url), the fetcher, and the regexp engine. A
    selection is the list of its elements in document order. *)
Record Collab : Type := {
  Node : Type;
  Find : list Node -> string -> list Node;      (* sel.Find(selector) *)
  AttrOf : Node -> string -> string;            (* value of an attribute,
                                                   empty when missing *)
  TextOf : Node -> string;                      (* text of an element *)
  URL : Type;
  urlParse : string -> option URL;              (* url.Parse *)
  Parse : URL -> string -> option string;       (* base.Parse(raw), then
                                                   String() of the result *)
  Fetch : string -> option (list Node);         (* fetcher.Fetch(url), then
                                                   the Selection of the
                                                   document *)
  Regexp : Type;
  Compile : string -> option Regexp;            (* regexp.Compile *)
  Expr : Regexp -> string;                      (* source text *)
  FindAllStringIndex : Regexp -> string -> list (nat * nat);
                                                (* all successive matches,
                                                   as [start, end) *)
  Expand : Regexp -> string -> string -> nat * nat -> string
                                                (* the template [repl]
                                                   expanded for one match
                                                   of [src] *)
}.

(** [strconv.Itoa]. *)
Definition Itoa (n : Z) : string := NilZero.string_of_int (Z.to_int n).

Definition safeString (r : value) : string :=
  match r with
  | VStr v => v
  | VInt v => Itoa v
  | _ => ""
  end.

(** [flattenList]: every element that is a [[]interface{}] is replaced by
    its own flattened elements. [flattenValue v] is what one element [v]
    contributes. *)
Fixpoint flattenValue (v : value) : list value :=
  match v with
  | VArr nested => concat (map flattenValue nested)
  | _ => [v]
  end.

Definition flattenList (vals : list value) : list value :=
  concat (map flattenValue vals).

(** The reading of Flatten in the specification: one level only. *)
Definition flattenOneLevel (vals : list value) : list value :=
  concat (map (fun v => match v with VArr nested => nested | _ => [v] end)
              vals).

Definition defaultTransforms : list Transform :=
  [ {| Match := "^//"; Split := false; Replace := "https://" |} ].

(** The write at the entry of [applyRule]: an empty [Transforms] is
    replaced, in the rule itself, by the default. *)
Definition enterRule (rule : ExtractionRule) : ExtractionRule :=
  match Transforms rule with
  | [] =>
      {| Name := Name rule; Selector := Selector rule; Attr := Attr rule;
         Multiple := Multiple rule; Download := Download rule;
         Visit := Visit rule; Flatten := Flatten rule;
         SaveDir := SaveDir rule; Children := Children rule;
         Transforms := defaultTransforms |}
  | _ :: _ => rule
  end.

Section Evaluator.
Context (W : Collab).

(** Selections. *)
Definition First (sel : list (Node W)) : list (Node W) := take 1 sel.

Definition SelAttr (sel : list (Node W)) (name : string) : string :=
  match sel with
  | [] => ""
  | n :: _ => AttrOf W n name
  end.

Definition SelText (sel : list (Node W)) : string :=
  foldr (fun n acc => TextOf W n +:+ acc) "" sel.

(** [re.Split(s, -1)], over the matches of [re] in [s]. *)
Definition reSplit (re : Regexp W) (s : string) : list string :=
  if negb (Strings.is_empty (Expr W re)) && Strings.is_empty s then [""]
  else
    let '(strs, beg, end_) :=
      foldl (fun '(strs, beg, end_) '(m0, m1) =>
               ((if Nat.eqb m1 0 then strs
                 else strs ++ [substring beg (m0 - beg) s]),
                m1, m0))
            ([], 0, 0) (FindAllStringIndex W re s) in
    if Nat.eqb end_ (String.length s) then strs
    else strs ++ [substring beg (String.length s - beg) s].

(** [re.ReplaceAllString(src, repl)], over the same matches. *)
Fixpoint replaceFrom (re : Regexp W) (src repl : string)
    (lastMatchEnd : nat) (matches : list (nat * nat)) : string :=
  match matches with
  | [] => substring lastMatchEnd (String.length src - lastMatchEnd) src
  | (a0, a1) :: rest =>
      substring lastMatchEnd (a0 - lastMatchEnd) src
      +:+ Expand W re repl src (a0, a1)
      +:+ replaceFrom re src repl a1 rest
  end.

Definition ReplaceAllString (re : Regexp W) (src repl : string) : string :=
  replaceFrom re src repl 0 (FindAllStringIndex W re src).

(** One turn of the loop of [applyTransform] over [o] and [ss]. *)
Definition transformStep (acc : list value * string) (tranform : Transform)
  : list value * string :=
  let '(o, ss) := acc in
  match Compile W (Match tranform) with
  | None => (o, ss)
  | Some r =>
      if Split tranform then
        (o ++ (VStr <$> filter (fun v => (0 < String.length v)%nat)
                                 (reSplit r ss)), ss)
      else (o, ReplaceAllString r ss (Replace tranform))
  end.

Definition applyTransform (raw : value) (t : list Transform)
  : list value :=
  match t with
  | [] => [raw]
  | _ :: _ =>
      let ss := safeString raw in
      if Strings.is_empty ss then [raw]
      else
        let '(o, ss') := foldl transformStep ([], ss) t in
        match o with
        | _ :: _ => o
        | [] => [VStr ss']
        end
  end.

Definition applyTransforms (raw : list value) (t : list Transform)
  : list value :=
  concat (map (fun r => applyTransform r t) raw).

(** The values a leaf rule with [Multiple] gathers, one per match. *)
Definition gatherLeaf (base : URL W) (sel : list (Node W))
    (rule : ExtractionRule) : list value :=
  map (fun s =>
         if negb (Strings.is_empty (Attr rule)) then
           let raw := AttrOf W s (Attr rule) in
           if (Download rule || Visit rule) && negb (Strings.is_empty raw)
           then match Parse W base raw with
                | Some u2 => VStr u2
                | None => VStr raw
                end
           else VStr raw
         else VStr (Strings.TrimSpace (TextOf W s)))
      (Find W sel (Selector rule)).

(** [applyRule(fetcher, sel, rule, base, rp)]: the value and the error
    it returns. The rule is read as the write at the entry of the
    function leaves it ([enterRule]); the progress counter [rp], which
    [Scrape] has called before it calls [applyRule], takes no part in
    the result. *)
Fixpoint applyRule (base : URL W) (sel : list (Node W))
    (rule : ExtractionRule) {struct rule} : ret value :=
  let transforms := Transforms (enterRule rule) in
  let children (scope : list (Node W)) (rec : gmap string value) :=
    (fix each (cs : list ExtractionRule) (rec : gmap string value)
       : gmap string value :=
       match cs with
       | [] => rec
       | c :: cs' =>
           each cs'
             (match applyRule base scope c with
              | Ok v => <[Name c := v]> rec
              | Err _ => rec
              end)
       end) (Children rule) rec in
  match Children rule with
  | _ :: _ =>
      if Multiple rule then
        let record (s : Node W) : value :=
          let rec0 : gmap string value := ∅ in
          let rec1 :=
            if negb (Strings.is_empty (Attr rule)) then
              let raw := AttrOf W s (Attr rule) in
              if (Download rule || Visit rule)
                 && negb (Strings.is_empty raw)
              then
                match Parse W base raw with
                | Some u2 =>
                    if Visit rule then
                      match Fetch W u2 with
                      | Some doc => children doc rec0
                      | None => <[Attr rule := VStr u2]> rec0
                      end
                    else <[Attr rule := VStr u2]> rec0
                | None => <[Attr rule := VStr raw]> rec0
                end
              else <[Attr rule := VStr raw]> rec0
            else rec0 in
          let rec2 :=
            if negb (Visit rule) then children [s] rec1 else rec1 in
          VRes rec2 in
        Ok (VArr (applyTransforms
                    (map record (Find W sel (Selector rule))) transforms))
      else
        let s := First (Find W sel (Selector rule)) in
        let rec0 : gmap string value := ∅ in
        let rec1 :=
          if negb (Strings.is_empty (Attr rule)) then
            let raw := SelAttr s (Attr rule) in
            if (Download rule || Visit rule)
               && negb (Strings.is_empty raw)
            then
              match Parse W base raw with
              | Some u2 => <[Attr rule := VStr u2]> rec0
              | None =>
                  <[Attr rule :=
                      VArr (applyTransform (VStr raw) transforms)]> rec0
              end
            else
              <[Attr rule :=
                  VArr (applyTransform (VStr raw) transforms)]> rec0
          else rec0 in
        Ok (VRes (children s rec1))
  | [] =>
      if Multiple rule then
        let vals := gatherLeaf base sel rule in
        let vals := if Flatten rule then flattenList vals else vals in
        Ok (VArr (applyTransforms vals transforms))
      else
        let s := First (Find W sel (Selector rule)) in
        if negb (Strings.is_empty (Attr rule)) then
          Ok (VArr (applyTransform (VStr (SelAttr s (Attr rule)))
                      transforms))
        else
          Ok (VArr (applyTransform
                      (VStr (Strings.TrimSpace (SelText s))) transforms))
  end.

(** The loop over the child rules, and the record built for one match
    of a rule with children and [Multiple], as [applyRule] runs them. *)
Definition evalChildren (base : URL W) (scope : list (Node W))
    (cs : list ExtractionRule) (rec : gmap string value)
  : gmap string value :=
  (fix each (cs : list ExtractionRule) (rec : gmap string value)
     : gmap string value :=
     match cs with
     | [] => rec
     | c :: cs' =>
         each cs'
           (match applyRule base scope c with
            | Ok v => <[Name c := v]> rec
            | Err _ => rec
            end)
     end) cs rec.

Definition recordOf (base : URL W) (rule : ExtractionRule) (s : Node W)
  : value :=
  let rec0 : gmap string value := ∅ in
  let rec1 :=
    if negb (Strings.is_empty (Attr rule)) then
      let raw := AttrOf W s (Attr rule) in
      if (Download rule || Visit rule) && negb (Strings.is_empty raw)
      then
        match Parse W base raw with
        | Some u2 =>
            if Visit rule then
              match Fetch W u2 with
              | Some doc => evalChildren base doc (Children rule) rec0
              | None => <[Attr rule := VStr u2]> rec0
              end
            else <[Attr rule := VStr u2]> rec0
        | None => <[Attr rule := VStr raw]> rec0
        end
      else <[Attr rule := VStr raw]> rec0
    else rec0 in
  let rec2 :=
    if negb (Visit rule) then evalChildren base [s] (Children rule) rec1
    else rec1 in
  VRes rec2.

(** The record of a rule with children and without [Multiple], before
    the children are evaluated: the attribute of the first match. *)
Definition singleAttr (base : URL W) (s : list (Node W))
    (rule : ExtractionRule) : gmap string value :=
  let transforms := Transforms (enterRule rule) in
  let rec0 : gmap string value := ∅ in
  if negb (Strings.is_empty (Attr rule)) then
    let raw := SelAttr s (Attr rule) in
    if (Download rule || Visit rule) && negb (Strings.is_empty raw) then
      match Parse W base raw with
      | Some u2 => <[Attr rule := VStr u2]> rec0
      | None =>
          <[Attr rule := VArr (applyTransform (VStr raw) transforms)]> rec0
      end
    else <[Attr rule := VArr (applyTransform (VStr raw) transforms)]> rec0
  else rec0.

Definition singleRecord (base : URL W) (sel : list (Node W))
    (rule : ExtractionRule) : gmap string value :=
  let s := First (Find W sel (Selector rule)) in
  evalChildren base s (Children rule) (singleAttr base s rule).

(** The value of a rule without children. *)
Definition leafResult (base : URL W) (sel : list (Node W))
    (rule : ExtractionRule) : value :=
  let transforms := Transforms (enterRule rule) in
  if Multiple rule then
    let vals := gatherLeaf base sel rule in
    let vals := if Flatten rule then flattenList vals else vals in
    VArr (applyTransforms vals transforms)
  else
    let s := First (Find W sel (Selector rule)) in
    if negb (Strings.is_empty (Attr rule)) then
      VArr (applyTransform (VStr (SelAttr s (Attr rule))) transforms)
    else
      VArr (applyTransform (VStr (Strings.TrimSpace (SelText s))) transforms).

(** **** The calls, with their writes

    [applyRule] assigns to the rule it is given, and so does every call it
    makes on a child; the children of a rule are the same objects for every
    match. Here the rule is threaded through the evaluation: a call returns
    the rule as it leaves it, together with its result. [call] is the call
    of [applyRule] on a child. *)

Definition withChildren (rule : ExtractionRule) (cs : list ExtractionRule)
  : ExtractionRule :=
  {| Name := Name rule; Selector := Selector rule; Attr := Attr rule;
     Multiple := Multiple rule; Download := Download rule;
     Visit := Visit rule; Flatten := Flatten rule; SaveDir := SaveDir rule;
     Children := cs; Transforms := Transforms rule |}.

Section InPlace.
Context (base : URL W)
        (call : list (Node W) -> ExtractionRule ->
                option (ExtractionRule * ret value)).

(** The loop over the children, on one scope. *)
Fixpoint childrenInPlace (scope : list (Node W)) (cs : list ExtractionRule)
    (rec : gmap string value)
  : option (list ExtractionRule * gmap string value) :=
  match cs with
  | [] => Some ([], rec)
  | c :: cs' =>
      match call scope c with
      | None => None
      | Some (c', res) =>
          match childrenInPlace scope cs'
                  (match res with
                   | Ok v => <[Name c' := v]> rec
                   | Err _ => rec
                   end) with
          | None => None
          | Some (cs'', rec') => Some (c' :: cs'', rec')
          end
      end
  end.

(** The record of one match of a rule with children and [Multiple]; [cs]
    are the children as the matches before left them. *)
Definition recordInPlace (rule : ExtractionRule) (cs : list ExtractionRule)
    (s : Node W) : option (list ExtractionRule * value) :=
  let rec0 : gmap string value := ∅ in
  let attr : option (list ExtractionRule * gmap string value) :=
    if negb (Strings.is_empty (Attr rule)) then
      let raw := AttrOf W s (Attr rule) in
      if (Download rule || Visit rule) && negb (Strings.is_empty raw) then
        match Parse W base raw with
        | Some u2 =>
            if Visit rule then
              match Fetch W u2 with
              | Some doc => childrenInPlace doc cs rec0
              | None => Some (cs, <[Attr rule := VStr u2]> rec0)
              end
            else Some (cs, <[Attr rule := VStr u2]> rec0)
        | None => Some (cs, <[Attr rule := VStr raw]> rec0)
        end
      else Some (cs, <[Attr rule := VStr raw]> rec0)
    else Some (cs, rec0) in
  match attr with
  | None => None
  | Some (cs1, rec1) =>
      if negb (Visit rule) then
        match childrenInPlace [s] cs1 rec1 with
        | None => None
        | Some (cs2, rec2) => Some (cs2, VRes rec2)
        end
      else Some (cs1, VRes rec1)
  end.

(** The loop over the matches. *)
Fixpoint eachInPlace (rule : ExtractionRule) (matches : list (Node W))
    (cs : list ExtractionRule) (records : list value)
  : option (list ExtractionRule * list value) :=
  match matches with
  | [] => Some (cs, records)
  | s :: matches' =>
      match recordInPlace rule cs s with
      | None => None
      | Some (cs', rec) => eachInPlace rule matches' cs' (records ++ [rec])
      end
  end.

(** The body of [applyRule]. *)
Definition bodyInPlace (sel : list (Node W)) (rule : ExtractionRule)
  : option (ExtractionRule * ret value) :=
  let rule := enterRule rule in
  match Children rule with
  | _ :: _ =>
      if Multiple rule then
        match eachInPlace rule (Find W sel (Selector rule))
                (Children rule) [] with
        | None => None
        | Some (cs, records) =>
            Some (withChildren rule cs,
                  Ok (VArr (applyTransforms records (Transforms rule))))
        end
      else
        let s := First (Find W sel (Selector rule)) in
        match childrenInPlace s (Children rule) (singleAttr base s rule) with
        | None => None
        | Some (cs, rec) => Some (withChildren rule cs, Ok (VRes rec))
        end
  | [] => Some (rule, Ok (leafResult base sel rule))
  end.

End InPlace.

(** [applyRule] with its writes; the depth of the calls is bounded by
    [fuel], and none stands for a bound that was too small. *)
Fixpoint applyRuleInPlace (fuel : nat) (base : URL W) (sel : list (Node W))
    (rule : ExtractionRule) : option (ExtractionRule * ret value) :=
  match fuel with
  | O => None
  | S fuel' => bodyInPlace base (applyRuleInPlace fuel' base) sel rule
  end.

(** The number of levels of a rule tree. *)
Fixpoint height (rule : ExtractionRule) : nat :=
  S (foldr (fun c h => max (height c) h) 0 (Children rule)).

(** **** The rule after a call, in closed form *)

(** The document a match is followed to, when the call evaluates the
    children there. *)
Definition visited (base : URL W) (rule : ExtractionRule) (s : Node W)
  : list (list (Node W)) :=
  if negb (Strings.is_empty (Attr rule)) then
    let raw := AttrOf W s (Attr rule) in
    if (Download rule || Visit rule) && negb (Strings.is_empty raw) then
      match Parse W base raw with
      | Some u2 =>
          if Visit rule then
            match Fetch W u2 with
            | Some doc => [doc]
            | None => []
            end
          else []
      | None => []
      end
    else []
  else [].

(** The scopes of the calls that one match makes on each child. *)
Definition matchScopes (base : URL W) (rule : ExtractionRule) (s : Node W)
  : list (list (Node W)) :=
  visited base rule s ++ (if negb (Visit rule) then [[s]] else []).

(** The scopes of the calls that one call of [applyRule] on [sel] and
    [rule] makes on each child of [rule], in the order of the calls. *)
Definition childScopes (base : URL W) (sel : list (Node W))
    (rule : ExtractionRule) : list (list (Node W)) :=
  match Children rule with
  | [] => []
  | _ :: _ =>
      if Multiple rule then
        concat (map (matchScopes base rule) (Find W sel (Selector rule)))
      else [First (Find W sel (Selector rule))]
  end.

(** The rule as the calls of [applyRule] on the scopes [scopes], one after
    the other, leave it. *)
Fixpoint ruleAfter (base : URL W) (scopes : list (list (Node W)))
    (rule : ExtractionRule) {struct rule} : ExtractionRule :=
  match scopes with
  | [] => rule
  | _ :: _ =>
      let below :=
        concat (map (fun sel => childScopes base sel rule) scopes) in
      match rule with
      | mkRule name selector attr multiple download visit flatten saveDir
               children transforms =>
          {| Name := name; Selector := selector; Attr := attr;
             Multiple := multiple; Download := download; Visit := visit;
             Flatten := flatten; SaveDir := saveDir;
             Children := map (ruleAfter base below) children;
             Transforms := Transforms (enterRule rule) |}
      end
  end.

(** The loop of [Scrape] over the root rules. *)
Fixpoint scrapeRules (base : URL W) (doc : list (Node W))
    (rules : list ExtractionRule) (root : gmap string value)
  : ret (gmap string value) :=
  match rules with
  | [] => Ok root
  | rule :: rest =>
      match applyRule base doc rule with
      | Err e => Err e
      | Ok v => scrapeRules base doc rest (<[Name rule := v]> root)
      end
  end.

(** [Scrape(fetcher, pageURL, rules, rp)] for a counter [rp] that is not
    nil: the result and the error it returns. On a nil counter the call
    panics at [rp.SetTotal] once the page is fetched and its URL parsed;
    [Progress.Scrape] is the call with its counter. *)
Definition Scrape (pageURL : string) (rules : list ExtractionRule)
  : ret (gmap string value) :=
  match Fetch W pageURL with
  | None => Err "fetch"
  | Some doc =>
      match urlParse W pageURL with
      | None => Err "parse"
      | Some base => scrapeRules base doc rules ∅
      end
  end.

End Evaluator.

(** A piece of a split: a string that is not empty. *)
Definition piece (v : value) : Prop := exists s, v = VStr s /\ s <> "".

End Extract.

(** ** Concurrent downloader *)

Module Download.
Import Extract.

(** *** Paths *)

Definition HasSuffix (s suffix : string) : bool :=
  let n := String.length s in
  let m := String.length suffix in
  Nat.leb m n && String.eqb (substring (n - m) m s) suffix.

Definition TrimSuffix (s suffix : string) : string :=
  if HasSuffix s suffix
  then substring 0 (String.length s - String.length suffix) s
  else s.

Fixpoint has_slash (s : string) : bool :=
  match s with
  | "" => false
  | String c s' => Ascii.eqb c "/" || has_slash s'
  end.

(** [filepath.Ext]: the suffix that starts at the last dot of the last
    element of the path, empty when there is none. *)
Fixpoint Ext (path : string) : string :=
  match path with
  | "" => ""
  | String c s' =>
      match Ext s' with
      | "" => if Ascii.eqb c "." && negb (has_slash s') then path else ""
      | e => e
      end
  end.

Definition tail (s : string) : string :=
  match s with "" => "" | String _ s' => s' end.

(** [removeDuplicateExt], with the depth of the recursion bounded by
    [fuel]; each call works on a shorter name. *)
Fixpoint removeDuplicateExt_fuel (fuel : nat) (filename : string) : string :=
  match fuel with
  | O => filename
  | S fuel' =>
      let ext := Ext filename in
      if Strings.is_empty ext then filename
      else
        let ext := tail ext in
        let base := TrimSuffix filename ("." +:+ ext) in
        if HasSuffix base ("." +:+ ext)
        then removeDuplicateExt_fuel fuel' base
        else filename
  end.

Definition removeDuplicateExt (filename : string) : string :=
  removeDuplicateExt_fuel (S (String.length filename)) filename.

(** *** The world a download runs in *)

Inductive event : Type :=
| HttpGet (url : string)
| MkdirAll (dir : string)
| Create (path : string)
| Copy (path : string).

(** The files that exist, the paths on which [os.Stat] fails with another
    error than "does not exist", and the requests and writes made. *)
Record world : Type := mkWorld {
  files : gmap string string;
  unreadable : gset string;
  log : list event
}.

(** What the network and the operating system answer. *)
Record Env : Type := {
  urlPath : string -> option string;     (* url.Parse, then the Path *)
  Base : string -> string;               (* filepath.Base *)
  Join : string -> string -> string;     (* filepath.Join *)
  Do : string -> option (Z * option string);
                                         (* the reply to a GET: none on a
                                            transport error, else the
                                            status and the body, none when
                                            reading the body fails *)
  mkdirAll : string -> bool;             (* whether os.MkdirAll succeeds *)
  create : string -> bool                (* whether os.Create succeeds *)
}.

Definition emit (e : event) (w : world) : world :=
  {| files := files w; unreadable := unreadable w; log := log w ++ [e] |}.

Definition writeFile (path content : string) (w : world) : world :=
  {| files := <[path := content]> (files w);
     unreadable := unreadable w; log := log w |}.

(** [os.Stat(path)] returns an error that is [os.ErrNotExist]. *)
Definition notExist (w : world) (path : string) : bool :=
  bool_decide (files w !! path = None) && bool_decide (path ∉ unreadable w).

(** The path [downloadResource] computes for a URL, when the URL parses;
    [now] is the reading of [time.Now().UnixNano()]. *)
Definition outPathOf (E : Env) (now : Z) (rawURL saveDir : string)
  : option string :=
  match urlPath E rawURL with
  | None => None
  | Some path =>
      let filename := Base E path in
      let filename :=
        if bool_decide (filename = "" \/ filename = "/")
        then Itoa now else filename in
      Some (Join E saveDir (removeDuplicateExt filename))
  end.

(** [downloadResource(ctx, rawURL, saveDir)]: the world after the call,
    the path returned and the error. *)
Definition downloadResource (E : Env) (now : Z) (w : world)
    (rawURL saveDir : string) : world * (string * option error) :=
  match outPathOf E now rawURL saveDir with
  | None => (w, ("", Some "parse"))
  | Some outPath =>
      if negb (notExist w outPath) then (w, (outPath, None))
      else
        let w := emit (HttpGet rawURL) w in
        match Do E rawURL with
        | None => (w, ("", Some "transport"))
        | Some (status, body) =>
            if negb (status =? 200)%Z then (w, ("", Some "bad status"))
            else
              let saveDir :=
                if Strings.is_empty saveDir then "./" else saveDir in
              let w := emit (MkdirAll saveDir) w in
              if negb (mkdirAll E saveDir) then (w, ("", Some "mkdir"))
              else
                let w := emit (Create outPath) w in
                if negb (create E outPath) then (w, ("", Some "create"))
                else
                  let w := writeFile outPath "" w in
                  let w := emit (Copy outPath) w in
                  match body with
                  | None => (w, ("", Some "copy"))
                  | Some content =>
                      (writeFile outPath content w, (outPath, None))
                  end
        end
  end.

(** *** Reading a result *)

Definition GetResult (r : gmap string value) (key : string)
  : option (gmap string value) :=
  match r !! key with
  | Some (VRes i) => Some i
  | _ => None
  end.

(** The assertions [v.(Result)] over a [[]interface{}]: none when one of
    them panics. *)
Fixpoint asResults (i : list value) : option (list (gmap string value)) :=
  match i with
  | [] => Some []
  | VRes v :: rest =>
      match asResults rest with
      | Some output => Some (v :: output)
      | None => None
      end
  | _ :: _ => None
  end.

(** [r.GetResultArray(key)]: none is a panic, the empty list is nil. *)
Definition GetResultArray (r : gmap string value) (key : string)
  : option (list (gmap string value)) :=
  match r !! key with
  | Some (VResults i) => Some i
  | Some (VArr i) => asResults i
  | _ => Some []
  end.

(** *** The URLs of a rule *)

(** [r.GetResultStringArray(key)], called with one key. *)
Definition GetResultStringArray (r : gmap string value) (key : string)
  : list string :=
  match r !! key with
  | None => []
  | Some (VStrs i) => i
  | Some (VStr a) => [a]
  | Some (VArr it) =>
      filter (fun v => v <> "") (map safeString it)
  | Some v =>
      if Strings.is_empty (safeString v) then [] else [safeString v]
  end.

(** *** The worker pool of [DownloadResults] *)

(** The state between [make([]string, len(urlResults))] and the return
    of [wg.Wait()]: the index the loop is at, the workers started and not
    finished, the indices whose [Acquire] failed, the output array, the
    world, and whether the context is done. Each worker holds one permit
    of the semaphore; the counter of the WaitGroup is the number of
    workers running plus the number of failed acquisitions, for which
    [wg.Add(1)] was called and [wg.Done()] never is. A download is one
    step: the requests and writes of one worker are not interleaved with
    those of another, and the slot a worker writes is its own. *)
Record pool : Type := mkPool {
  next : nat;
  running : list nat;
  skipped : list nat;
  downloadList : list string;
  outside : world;
  done_ctx : bool
}.

Definition wg (st : pool) : nat := length (running st) + length (skipped st).

Definition permits (concurrency : Z) : nat :=
  Z.to_nat (if (concurrency <? 1)%Z then 1 else concurrency).

Definition start (urlResults : list string) (w : world) (cancelled : bool)
  : pool :=
  {| next := 0; running := []; skipped := [];
     downloadList := replicate (length urlResults) "";
     outside := w; done_ctx := cancelled |}.

Section Pool.
Context (E : Env) (urlResults : list string) (dir : string)
        (concurrency : Z).

Inductive step : pool -> pool -> Prop :=
| Acquired st :
    (* the loop gets a permit and starts the worker of index [next] *)
    next st < length urlResults ->
    length (running st) < permits concurrency ->
    step st {| next := S (next st);
               running := running st ++ [next st];
               skipped := skipped st;
               downloadList := downloadList st;
               outside := outside st; done_ctx := done_ctx st |}
| NotAcquired st :
    (* the context is done: [Acquire] fails and the loop continues *)
    next st < length urlResults ->
    done_ctx st = true ->
    step st {| next := S (next st);
               running := running st;
               skipped := skipped st ++ [next st];
               downloadList := downloadList st;
               outside := outside st; done_ctx := done_ctx st |}
| Finished st i u now :
    (* the worker of index [i] downloads, writes its slot, and leaves *)
    i ∈ running st ->
    urlResults !! i = Some u ->
    step st {| next := next st;
               running := filter (fun j => j <> i) (running st);
               skipped := skipped st;
               downloadList :=
                 <[i := (downloadResource E now (outside st) u dir).2.1]>
                   (downloadList st);
               outside := (downloadResource E now (outside st) u dir).1;
               done_ctx := done_ctx st |}
| Cancelled st :
    step st {| next := next st; running := running st;
               skipped := skipped st; downloadList := downloadList st;
               outside := outside st; done_ctx := true |}.

(** The loop is over and [wg.Wait()] returns. *)
Definition returned (st : pool) : Prop :=
  next st = length urlResults /\ wg st = 0.

(** What holds of the pool all along: every index the loop has passed
    belongs to a running worker, or to a failed acquisition, or has in
    its slot the path a download of its own URL returned. *)
Record inv (st : pool) : Prop := {
  inv_next : next st <= length urlResults;
  inv_length : length (downloadList st) = length urlResults;
  inv_running : forall i, i ∈ running st -> i < next st;
  inv_bound : length (running st) <= permits concurrency;
  inv_skipped : skipped st <> [] -> done_ctx st = true;
  inv_slots : forall i u,
    i < next st -> urlResults !! i = Some u ->
    i ∈ running st \/ i ∈ skipped st
    \/ exists now w,
         downloadList st !! i
         = Some (downloadResource E now w u dir).2.1
}.

(** The work left in the pool: two units for each URL the loop has not
    reached, one for each worker running. *)
Definition pending (st : pool) : nat :=
  2 * (length urlResults - next st) + length (running st).

(** No two URLs of the list are saved under the same path. *)
Definition distinctPaths : Prop :=
  forall i j u v now now' p,
    i <> j ->
    urlResults !! i = Some u -> urlResults !! j = Some v ->
    outPathOf E now u dir = Some p -> outPathOf E now' v dir <> Some p.

(** What holds besides of a pool started in the world [w0] when the URLs
    are saved apart: the files of the URLs still to download are as they
    were in [w0], and every finished slot holds what a download of its
    URL returns in [w0]. *)
Record alone (w0 : world) (st : pool) : Prop := {
  alone_unreadable : unreadable (outside st) = unreadable w0;
  alone_files : forall i u now p,
    urlResults !! i = Some u ->
    i ∈ running st \/ next st <= i ->
    outPathOf E now u dir = Some p ->
    files (outside st) !! p = files w0 !! p;
  alone_slots : forall i u,
    i < next st -> urlResults !! i = Some u ->
    i ∈ running st \/ i ∈ skipped st
    \/ exists now,
         downloadList st !! i
         = Some (downloadResource E now w0 u dir).2.1
}.

End Pool.

Arguments alone_unreadable {E urlResults dir w0 st}.
Arguments alone_files {E urlResults dir w0 st}.
Arguments alone_slots {E urlResults dir w0 st}.
Arguments inv_next {E urlResults dir concurrency st}.
Arguments inv_length {E urlResults dir concurrency st}.
Arguments inv_running {E urlResults dir concurrency st}.
Arguments inv_bound {E urlResults dir concurrency st}.
Arguments inv_skipped {E urlResults dir concurrency st}.
Arguments inv_slots {E urlResults dir concurrency st}.

(** *** The destination directory *)

(** The values [replacePlaceholders] draws in one call. *)
Record fresh : Type := {
  uuid : string;              (* uuid.New().String() *)
  hex : string;               (* 16 random bytes, in hexadecimal *)
  base64 : string;            (* 18 random bytes, in base 64 *)
  unix : Z                    (* time.Now().Unix() *)
}.

Definition replaceIn (token new : string) (s : string) : string :=
  if Strings.Contains s token then Strings.ReplaceToken 0 token new s else s.

Definition replacePlaceholders (f : fresh) (s : string) (index : Z) : string :=
  let s := replaceIn "{{uuid}}" (uuid f) s in
  let s := replaceIn "{{hex}}" (hex f) s in
  let s := replaceIn "{{base64}}" (base64 f) s in
  let s := replaceIn "{{unix}}" (Itoa (unix f)) s in
  replaceIn "{{index}}" (Itoa index) s.

(** The directory [DownloadResults] computes for a rule. *)
Definition dirOf (E : Env) (f : fresh) (baseDir : string)
    (rule : ExtractionRule) : string :=
  let dir :=
    if negb (Strings.is_empty (SaveDir rule)) then
      if negb (Strings.is_empty baseDir) then Join E baseDir (SaveDir rule)
      else SaveDir rule
    else baseDir in
  if Strings.Contains dir "{{" then replacePlaceholders f dir 0 else dir.

(** *** [DownloadResults] *)

(** The world, and whether the context is done. *)
Definition setting : Type := world * bool.

(** The downloads of one rule with [Download]: a run of the pool from
    start to return, and [r[rule.Name]] replaced by the output array. *)
Definition downloadsOf (E : Env) (dir : string) (concurrency : Z)
    (s : setting) (r : gmap string value) (name : string)
    (s' : setting) (r' : gmap string value) : Prop :=
  let urlResults := GetResultStringArray r name in
  exists st,
    rtc (step E urlResults dir concurrency) (start urlResults s.1 s.2) st
    /\ returned urlResults st
    /\ s' = (outside st, done_ctx st)
    /\ r' = <[name := VStrs (downloadList st)]> r.

(** [r.DownloadResults(ctx, rules, baseDir, concurrency)] takes the
    setting [s] and the result [r] to [s'] and [r'], the result it
    returns (the map it was called on, updated in place). *)
Inductive DownloadResults (E : Env) (concurrency : Z)
  : setting -> gmap string value -> list ExtractionRule -> string ->
    setting -> gmap string value -> Prop :=
| NoRule s r baseDir :
    DownloadResults E concurrency s r [] baseDir s r
| Skip s r rule rules baseDir s' r' :
    (* neither a download nor children: continue *)
    Download rule = false ->
    Children rule = [] ->
    DownloadResults E concurrency s r rules baseDir s' r' ->
    DownloadResults E concurrency s r (rule :: rules) baseDir s' r'
| Rule s r rule rules baseDir f s1 r1 s2 r2 s' r' :
    (Download rule = true \/ Children rule <> []) ->
    (* the downloads of the rule *)
    (if Download rule
     then downloadsOf E (dirOf E f baseDir rule) concurrency s r (Name rule)
            s1 r1
     else s1 = s /\ r1 = r) ->
    (* the results below the rule *)
    Below E concurrency s1 r1 rule (dirOf E f baseDir rule) s2 r2 ->
    DownloadResults E concurrency s2 r2 rules baseDir s' r' ->
    DownloadResults E concurrency s r (rule :: rules) baseDir s' r'

with Below (E : Env) (concurrency : Z)
  : setting -> gmap string value -> ExtractionRule -> string ->
    setting -> gmap string value -> Prop :=
| ManyNone s r rule dir :
    Multiple rule = true ->
    GetResultArray r (Name rule) = Some [] ->
    Below E concurrency s r rule dir s r
| Many s r rule dir results s' output :
    Multiple rule = true ->
    GetResultArray r (Name rule) = Some results ->
    results <> [] ->
    Each E concurrency s results (Children rule) dir s' output ->
    Below E concurrency s r rule dir s' (<[Name rule := VResults output]> r)
| OneNone s r rule dir :
    Multiple rule = false ->
    GetResult r (Name rule) = None ->
    Below E concurrency s r rule dir s r
| One s r rule dir v s' p :
    Multiple rule = false ->
    GetResult r (Name rule) = Some v ->
    DownloadResults E concurrency s v (Children rule) dir s' p ->
    Below E concurrency s r rule dir s' (<[Name rule := VRes p]> r)

with Each (E : Env) (concurrency : Z)
  : setting -> list (gmap string value) -> list ExtractionRule -> string ->
    setting -> list (gmap string value) -> Prop :=
| EachNil s rules dir :
    Each E concurrency s [] rules dir s []
| EachCons s v results rules dir s1 p s' output :
    DownloadResults E concurrency s v rules dir s1 p ->
    Each E concurrency s1 results rules dir s' output ->
    Each E concurrency s (v :: results) rules dir s' (p :: output).

End Download.

(** ** The progress counter of the evaluator *)

Module Progress.
Import Extract.

(** The conversion [uint64(v)] and the arithmetic of [atomic.Uint64]. *)
Definition uint64 (v : Z) : Z := (v mod 2 ^ 64)%Z.

(** The conversion [int(v)] of a [uint64]. *)
Definition int (v : Z) : Z :=
  if (v <? 2 ^ 63)%Z then v else (v - 2 ^ 64)%Z.

(** The progress bar (package progressbar), as the operations the
    counter calls on it. *)
Record Bars : Type := {
  Bar : Type;
  New : Z -> Bar;                    (* progressbar.New(max) *)
  ChangeMax : Z -> Bar -> Bar;
  AddMax : Z -> Bar -> Bar;
  BarAdd : Z -> Bar -> Bar;          (* bar.Add(v) *)
  Finish : Bar -> Bar
}.

Section Counter.
Context (B : Bars).

(** [RuleProgress]. The channel [Update] is nil, or the number of
    values sent on it so far: a send returns once a receiver has taken
    the value, and the receiver is taken to be there. *)
Record RuleProgress : Type := mkProgress {
  Total : Z;
  Current : Z;
  Concurrency : Z;
  Update : option nat;
  bar : option (Bar B)
}.

Definition Log (p : RuleProgress) : RuleProgress :=
  match bar p with
  | None =>
      {| Total := Total p; Current := Current p;
         Concurrency := Concurrency p; Update := Update p;
         bar := Some (New B (int (Total p))) |}
  | Some _ => p
  end.

Definition SetTotal (v : Z) (p : RuleProgress) : RuleProgress :=
  {| Total := uint64 v; Current := Current p;
     Concurrency := Concurrency p; Update := Update p;
     bar := ChangeMax B v <$> bar p |}.

Definition Close (p : RuleProgress) : RuleProgress :=
  {| Total := Total p; Current := Current p;
     Concurrency := Concurrency p; Update := Update p;
     bar := Finish B <$> bar p |}.

Definition IncrementTotal (v : Z) (p : RuleProgress) : RuleProgress :=
  {| Total := uint64 (Total p + uint64 v); Current := Current p;
     Concurrency := Concurrency p; Update := Update p;
     bar := AddMax B v <$> bar p |}.

Definition Add (v : Z) (p : RuleProgress) : RuleProgress :=
  {| Total := Total p; Current := uint64 (Current p + uint64 v);
     Concurrency := Concurrency p; Update := S <$> Update p;
     bar := BarAdd B v <$> bar p |}.

(** *** Code that holds a pointer to the counter *)

(** The pointer [rp]: none is nil. *)
Definition tracker : Type := option RuleProgress.

(** A computation that calls methods on [rp]: none is a run-time panic. *)
Definition run (A : Type) : Type := tracker -> option (A * tracker).

Definition pure {A} (a : A) : run A := fun rp => Some (a, rp).

Definition bind {A C} (m : run A) (f : A -> run C) : run C :=
  fun rp =>
    match m rp with
    | None => None
    | Some (a, rp') => f a rp'
    end.

(** A method call [rp.m(...)]: every method reads a field of its
    receiver first, so it panics on nil. *)
Definition method (m : RuleProgress -> RuleProgress) : run unit :=
  fun rp =>
    match rp with
    | None => None
    | Some p => Some (tt, Some (m p))
    end.

End Counter.

Arguments Total {B} _.
Arguments Current {B} _.
Arguments Concurrency {B} _.
Arguments Update {B} _.
Arguments bar {B} _.
Arguments pure {B A} a.
Arguments bind {B A C} m f.
Arguments method {B} m.

Section Evaluator.
Context (W : Collab) (B : Bars).

#[local] Notation "'do' x <- m ; k" := (bind m (fun x => k))
  (at level 10, x name, m at level 100, k at level 200).
#[local] Notation "'call' m ; k" := (bind m (fun _ => k))
  (at level 10, m at level 100, k at level 200).

(** [applyRule(fetcher, sel, rule, base, rp)] with its calls on [rp]. *)
Fixpoint applyRule (base : URL W) (sel : list (Node W))
    (rule : ExtractionRule) {struct rule} : run B (ret value) :=
  let transforms := Transforms (enterRule rule) in
  (* the loop over the children of a visited document or of a singular
     rule: no call on rp *)
  let children (scope : list (Node W)) (rec : gmap string value)
    : run B (gmap string value) :=
    (fix each (cs : list ExtractionRule) (rec : gmap string value)
       : run B (gmap string value) :=
       match cs with
       | [] => pure rec
       | c :: cs' =>
           do res <- applyRule base scope c;
           each cs' (match res with
                     | Ok v => <[Name c := v]> rec
                     | Err _ => rec
                     end)
       end) (Children rule) rec in
  (* the loop over the children of one match: rp.Add(1) after each *)
  let counted (scope : list (Node W)) (rec : gmap string value)
    : run B (gmap string value) :=
    (fix each (cs : list ExtractionRule) (rec : gmap string value)
       : run B (gmap string value) :=
       match cs with
       | [] => pure rec
       | c :: cs' =>
           do res <- applyRule base scope c;
           call method (Add B 1);
           each cs' (match res with
                     | Ok v => <[Name c := v]> rec
                     | Err _ => rec
                     end)
       end) (Children rule) rec in
  match Children rule with
  | _ :: _ =>
      if Multiple rule then
        let record (s : Node W) : run B value :=
          let rec0 : gmap string value := ∅ in
          do rec1 <-
            (if negb (Strings.is_empty (Attr rule)) then
               let raw := AttrOf W s (Attr rule) in
               if (Download rule || Visit rule)
                  && negb (Strings.is_empty raw)
               then
                 match Parse W base raw with
                 | Some u2 =>
                     if Visit rule then
                       match Fetch W u2 with
                       | Some doc => children doc rec0
                       | None => pure (<[Attr rule := VStr u2]> rec0)
                       end
                     else pure (<[Attr rule := VStr u2]> rec0)
                 | None => pure (<[Attr rule := VStr raw]> rec0)
                 end
               else pure (<[Attr rule := VStr raw]> rec0)
             else pure rec0);
          do rec2 <-
            (if negb (Visit rule) then
               call method (IncrementTotal B
                              (Z.of_nat (length (Children rule))));
               counted [s] rec1
             else pure rec1);
          (* defer rp.Add(1) *)
          call method (Add B 1);
          pure (VRes rec2) in
        call method (IncrementTotal B
                       (Z.of_nat (length (Find W sel (Selector rule)))));
        do records <-
          (fix each (matches : list (Node W)) (records : list value)
             : run B (list value) :=
             match matches with
             | [] => pure records
             | s :: matches' =>
                 do rec <- record s;
                 each matches' (records ++ [rec])
             end) (Find W sel (Selector rule)) [];
        pure (Ok (VArr (applyTransforms W records transforms)))
      else
        let s := First W (Find W sel (Selector rule)) in
        do rec <- children s (singleAttr W base s rule);
        pure (Ok (VRes rec))
  | [] => pure (Ok (leafResult W base sel rule))
  end.

(** The loops of [applyRule], as it runs them. *)
Definition children (base : URL W) (scope : list (Node W))
    (cs : list ExtractionRule) (rec : gmap string value)
  : run B (gmap string value) :=
  (fix each (cs : list ExtractionRule) (rec : gmap string value)
     : run B (gmap string value) :=
     match cs with
     | [] => pure rec
     | c :: cs' =>
         do res <- applyRule base scope c;
         each cs' (match res with
                   | Ok v => <[Name c := v]> rec
                   | Err _ => rec
                   end)
     end) cs rec.

Definition counted (base : URL W) (scope : list (Node W))
    (cs : list ExtractionRule) (rec : gmap string value)
  : run B (gmap string value) :=
  (fix each (cs : list ExtractionRule) (rec : gmap string value)
     : run B (gmap string value) :=
     match cs with
     | [] => pure rec
     | c :: cs' =>
         do res <- applyRule base scope c;
         call method (Add B 1);
         each cs' (match res with
                   | Ok v => <[Name c := v]> rec
                   | Err _ => rec
                   end)
     end) cs rec.

Definition record (base : URL W) (rule : ExtractionRule) (s : Node W)
  : run B value :=
  let rec0 : gmap string value := ∅ in
  do rec1 <-
    (if negb (Strings.is_empty (Attr rule)) then
       let raw := AttrOf W s (Attr rule) in
       if (Download rule || Visit rule) && negb (Strings.is_empty raw)
       then
         match Parse W base raw with
         | Some u2 =>
             if Visit rule then
               match Fetch W u2 with
               | Some doc => children base doc (Children rule) rec0
               | None => pure (<[Attr rule := VStr u2]> rec0)
               end
             else pure (<[Attr rule := VStr u2]> rec0)
         | None => pure (<[Attr rule := VStr raw]> rec0)
         end
       else pure (<[Attr rule := VStr raw]> rec0)
     else pure rec0);
  do rec2 <-
    (if negb (Visit rule) then
       call method (IncrementTotal B (Z.of_nat (length (Children rule))));
       counted base [s] (Children rule) rec1
     else pure rec1);
  call method (Add B 1);
  pure (VRes rec2).

Definition eachMatch (base : URL W) (rule : ExtractionRule)
    (matches : list (Node W)) (records : list value)
  : run B (list value) :=
  (fix each (matches : list (Node W)) (records : list value)
     : run B (list value) :=
     match matches with
     | [] => pure records
     | s :: matches' =>
         do rec <- record base rule s;
         each matches' (records ++ [rec])
     end) matches records.

(** The loop of [Scrape] over the root rules. *)
Fixpoint scrapeRules (base : URL W) (doc : list (Node W))
    (rules : list ExtractionRule) (root : gmap string value)
  : run B (ret (gmap string value)) :=
  match rules with
  | [] => pure (Ok root)
  | rule :: rest =>
      do res <- applyRule base doc rule;
      match res with
      | Err e => pure (Err e)
      | Ok v =>
          call method (Add B 1);
          scrapeRules base doc rest (<[Name rule := v]> root)
      end
  end.

(** [Scrape(fetcher, pageURL, rules, rp)]. *)
Definition Scrape (pageURL : string) (rules : list ExtractionRule)
  : run B (ret (gmap string value)) :=
  match Fetch W pageURL with
  | None => pure (Err "fetch")
  | Some doc =>
      match urlParse W pageURL with
      | None => pure (Err "parse")
      | Some base =>
          call method (SetTotal B (Z.of_nat (length rules)));
          do res <- scrapeRules base doc rules ∅;
          (* defer rp.Close() *)
          call method (Close B);
          pure res
      end
  end.

End Evaluator.

(** The two counters hold a [uint64]. *)
Definition in_range {B : Bars} (p : RuleProgress B) : Prop :=
  (0 <= Total p < 2 ^ 64)%Z /\ (0 <= Current p < 2 ^ 64)%Z.

(** Between two states of a counter: [Total] has advanced by [dt],
    [Current] by [dc], and [dc] values were sent on [Update]. *)
Definition moved {B : Bars} (dt dc : nat) (p p' : RuleProgress B) : Prop :=
  in_range p ->
  in_range p'
  /\ Total p' = uint64 (Total p + Z.of_nat dt)
  /\ Current p' = uint64 (Current p + Z.of_nat dc)
  /\ Concurrency p' = Concurrency p
  /\ Update p' = (fun n => n + dc) <$> Update p.

(** A call with a counter returns what the evaluation returns, and
    advances [Total] and [Current] by the same amount. *)
Definition counts (W : Collab) (B : Bars) (rule : ExtractionRule) : Prop :=
  forall base sel (p : RuleProgress B),
    exists k p',
      applyRule W B base sel rule (Some p)
      = Some (Extract.applyRule W base sel rule, Some p')
      /\ moved k k p p'.

End Progress.


(** ** The shape of a result *)

Module Shape.
Import Extract Download.

(** The names of the rules of a list are distinct, and so are those of
    the children of each of them, down the trees. *)
Fixpoint distinct (rule : ExtractionRule) : Prop :=
  NoDup (Name <$> Children rule)
  /\ (fix all (cs : list ExtractionRule) : Prop :=
        match cs with
        | [] => True
        | c :: cs' => distinct c /\ all cs'
        end) (Children rule).

Definition distinctRules (rules : list ExtractionRule) : Prop :=
  NoDup (Name <$> rules) /\ Forall distinct rules.

(** A value that [DownloadResults] can go through for a rule: where the
    code asserts that an element of an array is a [Result], it is one,
    and so on below it. *)
Fixpoint fits (rule : ExtractionRule) (v : value) {struct rule} : Prop :=
  let below (m : gmap string value) : Prop :=
    (fix all (cs : list ExtractionRule) : Prop :=
       match cs with
       | [] => True
       | c :: cs' =>
           match m !! Name c with
           | Some x => fits c x
           | None => True
           end /\ all cs'
       end) (Children rule) in
  if Download rule then True
  else
    match Children rule with
    | [] => True
    | _ :: _ =>
        if Multiple rule then
          match v with
          | VArr l => Forall (fun x => exists m, x = VRes m /\ below m) l
          | VResults ms => Forall below ms
          | _ => True
          end
        else
          match v with
          | VRes m => below m
          | _ => True
          end
    end.

(** The same for the values a result holds under the names of a list
    of rules. *)
Definition fitsAll (rules : list ExtractionRule) (m : gmap string value)
  : Prop :=
  Forall (fun c => match m !! Name c with
                   | Some x => fits c x
                   | None => True
                   end) rules.

(** What the evaluator returns for a rule fits the rule. *)
Definition fitting (W : Collab) (base : URL W) (rule : ExtractionRule)
  : Prop :=
  distinct rule ->
  forall sel v, applyRule W base sel rule = Ok v -> fits rule v.

(** What one rule, and a list of rules, need of a result for
    [DownloadResults] to return on it with a live context. *)
Definition accepted (E : Env) (concurrency : Z) (rule : ExtractionRule)
  : Prop :=
  forall baseDir (r : gmap string value) (s : setting),
    s.2 = false ->
    match r !! Name rule with Some v => fits rule v | None => True end ->
    distinct rule ->
    exists s2 r2,
      DownloadResults E concurrency s r [rule] baseDir s2 r2
      /\ s2.2 = false
      /\ forall k, k <> Name rule -> r2 !! k = r !! k.

Definition acceptedAll (E : Env) (concurrency : Z)
    (rules : list ExtractionRule) : Prop :=
  forall baseDir (r : gmap string value) (s : setting),
    s.2 = false ->
    fitsAll rules r ->
    NoDup (Name <$> rules) -> Forall distinct rules ->
    exists s' r',
      DownloadResults E concurrency s r rules baseDir s' r'
      /\ s'.2 = false
      /\ forall k, k ∉ Name <$> rules -> r' !! k = r !! k.

End Shape.

(** ** The stash of fetched pages (fetcher.go) *)

Module Fetcher.
Import Extract Download.

(** *** UTF-8 *)

Definition between (lo hi : nat) (c : ascii) : bool :=
  Nat.leb lo (nat_of_ascii c) && Nat.leb (nat_of_ascii c) hi.

(** The width [utf8.DecodeRuneInString] returns for the first rune of
    [s]: the length of a well-formed encoding, and 1 for a byte that
    starts none (the rune is then [utf8.RuneError]). *)
Definition runeWidth (s : string) : nat :=
  match s with
  | "" => 0
  | String c0 rest =>
      let b0 := nat_of_ascii c0 in
      if Nat.ltb b0 194 then 1               (* ASCII, or no lead byte *)
      else if Nat.ltb b0 224 then            (* C2..DF: two bytes *)
        match rest with
        | String c1 _ => if between 128 191 c1 then 2 else 1
        | _ => 1
        end
      else if Nat.ltb b0 240 then            (* E0..EF: three bytes *)
        let lo := if Nat.eqb b0 224 then 160 else 128 in
        let hi := if Nat.eqb b0 237 then 159 else 191 in
        match rest with
        | String c1 (String c2 _) =>
            if between lo hi c1 && between 128 191 c2 then 3 else 1
        | _ => 1
        end
      else if Nat.ltb b0 245 then            (* F0..F4: four bytes *)
        let lo := if Nat.eqb b0 240 then 144 else 128 in
        let hi := if Nat.eqb b0 244 then 143 else 191 in
        match rest with
        | String c1 (String c2 (String c3 _)) =>
            if between lo hi c1 && between 128 191 c2 && between 128 191 c3
            then 4 else 1
        | _ => 1
        end
      else 1
  end.

(** *** File names *)

(** The bytes the class [[\w\.\-]] holds: letters, digits, the
    underscore, the dot and the hyphen. *)
Definition kept (c : ascii) : bool :=
  between 48 57 c || between 65 90 c || between 97 122 c
  || Ascii.eqb c "_" || Ascii.eqb c "." || Ascii.eqb c "-".

(** [re.ReplaceAllString(name, "_")] for [re = [^\w\.\-]]: every rune
    outside the class becomes one underscore. [skip] counts the bytes of
    the current rune that are still to be dropped. *)
Fixpoint sanitize (skip : nat) (s : string) : string :=
  match s with
  | "" => ""
  | String c s' =>
      match skip with
      | S k => sanitize k s'
      | O =>
          if kept c then String c (sanitize 0 s')
          else String "_" (sanitize (runeWidth s - 1) s')
      end
  end.

Definition hexDigit (n : nat) : ascii :=
  default "0"%char (String.get n "0123456789abcdef").

(** [hex.EncodeToString]. *)
Fixpoint EncodeToString (src : string) : string :=
  match src with
  | "" => ""
  | String c s' =>
      String (hexDigit (nat_of_ascii c / 16))
        (String (hexDigit (nat_of_ascii c mod 16)) (EncodeToString s'))
  end.

(** The libraries [FileNameFromURL] calls. *)
Record Urls : Type := {
  parts : string -> option (string * string * string);
                                   (* url.Parse, then Hostname(), Path
                                      and RawQuery *)
  pathJoin : string -> string -> string;          (* path.Join *)
  sha1 : string -> string;                        (* sha1.Sum *)
  sha1_size : forall data, String.length (sha1 data) = 20
}.

(** [FileNameFromURL(rawurl)]: none stands for the error returned with
    the empty name. *)
Definition FileNameFromURL (U : Urls) (rawurl : string) : option string :=
  match parts U rawurl with
  | None => None
  | Some (host, p, rawQuery) =>
      let p :=
        if Strings.is_empty p || HasSuffix p "/"
        then pathJoin U p "index.html" else p in
      let base := host +:+ p in
      let base :=
        if negb (Strings.is_empty rawQuery)
        then base +:+ "_"
             +:+ substring 0 10 (EncodeToString (sha1 U rawQuery))
        else base in
      let name := Strings.ReplaceAll "/" "_" base in
      Some (sanitize 0 name)
  end.

(** *** The stash *)

(** The variable [StashEnabled], and what [os.WriteFile(name, data)]
    leaves in the file: none when the file cannot be created, and less
    than [data] when the write breaks off. *)
Record Disk : Type := {
  StashEnabled : bool;
  written : string -> string -> option string
}.

(** [os.Stat(name)] fails with an error that is [os.ErrNotExist]: the
    empty name is the name of no file. *)
Definition absent (w : world) (name : string) : bool :=
  Strings.is_empty name || notExist w name.

(** [stash(url, data)]: the world after the call and the bytes returned;
    none is a nil slice. What [os.ReadFile] returns for a name that is
    not that of a readable file is nil. *)
Definition stash (U : Urls) (D : Disk) (w : world) (url : string)
    (data : option string) : world * option string :=
  if negb (StashEnabled D) then (w, data)
  else
    let d := default "" (FileNameFromURL U url) in
    if absent w d then
      match data with
      | None => (w, None)
      | Some bytes =>
          (match (if Strings.is_empty d then None else written D d bytes) with
           | Some content => writeFile d content w
           | None => w
           end, data)
      end
    else (w, files w !! d).

(** *** The ScraperAPI fetcher *)

Record ScraperAPIFetcher : Type := {
  APIKey : string;
  Premium : bool;
  RenderJS : bool
}.

(** HTTP and goquery. *)
Record Web : Type := {
  Document : Type;
  QueryEscape : string -> string;             (* url.QueryEscape *)
  Get : string -> option (Z * string);        (* http.Get, then the status
                                                 and what io.ReadAll gives
                                                 of the body *)
  NewDocumentFromReader : string -> ret Document
}.

(** The URL of the request: [u.String()] after [q.Encode()], which
    writes the parameters in the order of their keys. *)
Definition requestURL (N : Web) (f : ScraperAPIFetcher) (pageURL : string)
  : string :=
  "http://api.scraperapi.com/?api_key=" +:+ QueryEscape N (APIKey f)
  +:+ (if Premium f then "&premium=true" else "")
  +:+ (if RenderJS f then "&render=true" else "")
  +:+ "&url=" +:+ QueryEscape N pageURL.

(** [Fetch(pageURL)] of a [ScraperAPIFetcher]. *)
Definition Fetch (U : Urls) (D : Disk) (N : Web) (f : ScraperAPIFetcher)
    (w : world) (pageURL : string) : world * ret (Document N) :=
  let '(w, data) := stash U D w pageURL None in
  match data with
  | Some bytes => (w, NewDocumentFromReader N bytes)
  | None =>
      let w := emit (HttpGet (requestURL N f pageURL)) w in
      match Get N (requestURL N f pageURL) with
      | None => (w, Err "get")
      | Some (status, d) =>
          if negb (status =? 200)%Z then (w, Err "status")
          else
            let '(w, bytes) := stash U D w pageURL (Some d) in
            (w, NewDocumentFromReader N (default "" bytes))
      end
  end.

End Fetcher.

(** ** Rule files (model.go) *)

Module Rules.
Import Extract Download.

(** One call of the function [filepath.WalkDir] is given: the path, whether
    the entry is a directory, and the error of the walk for it. *)
Record entry : Type := mkEntry {
  path : string;
  IsDir : bool;
  walkErr : option error
}.

(** The file system and the decoders: the entries [WalkDir] calls the
    function for while it returns no error, in the order of the walk, and
    the two loaders of one file. *)
Record Files : Type := {
  WalkDir : string -> list entry;
  LoadRulesFromJSON : string -> ret (list ExtractionRule);
  LoadRulesFromYAML : string -> ret (list ExtractionRule)
}.

(** The function [LoadRulesFromDir] gives to [WalkDir], entry after
    entry: the rules gathered in [all], and the error that ends the walk. *)
Fixpoint walk (F : Files) (es : list entry) (all : list ExtractionRule)
  : list ExtractionRule * option error :=
  match es with
  | [] => (all, None)
  | e :: rest =>
      match walkErr e with
      | Some err => (all, Some err)
      | None =>
          if IsDir e then walk F rest all
          else
            let ext := Ext (path e) in
            if String.eqb ext ".json" then
              match LoadRulesFromJSON F (path e) with
              | Err err => (all, Some ("json " +:+ path e +:+ ": " +:+ err))
              | Ok rs => walk F rest (all ++ rs)
              end
            else if String.eqb ext ".yaml" || String.eqb ext ".yml" then
              match LoadRulesFromYAML F (path e) with
              | Err err => (all, Some ("yaml " +:+ path e +:+ ": " +:+ err))
              | Ok rs => walk F rest (all ++ rs)
              end
            else walk F rest all
      end
  end.

(** [LoadRulesFromDir(dirPath)]: the rules and the error it returns. *)
Definition LoadRulesFromDir (F : Files) (dirPath : string)
  : list ExtractionRule * option error :=
  walk F (WalkDir F dirPath) [].

(** Whether an entry is a file that holds rules, and the rules a loader
    finds in it. *)
Definition ruleFile (e : entry) : bool :=
  negb (IsDir e)
  && (String.eqb (Ext (path e)) ".json"
      || String.eqb (Ext (path e)) ".yaml"
      || String.eqb (Ext (path e)) ".yml").

Definition load (F : Files) (e : entry) : ret (list ExtractionRule) :=
  if String.eqb (Ext (path e)) ".json" then LoadRulesFromJSON F (path e)
  else LoadRulesFromYAML F (path e).

End Rules.

(** ** Strings of digits *)

Module Digits.
Import Mapper.

(** Whether every byte of [s] is a decimal digit. *)
Fixpoint all_digits (s : string) : bool :=
  match s with
  | "" => true
  | String c s' => is_digit c && all_digits s'
  end.

End Digits.

(** ** Small collaborators to run the definitions on *)

Module Sample.
Import Mapper Extract Download Progress.

(** A gjson that reads a decoded document: a path is a single key. *)
Definition gjGet (r : option value) (key : string) : option value :=
  match r with
  | Some (VMap m) => m !! key
  | _ => None
  end.

Definition gjForEach (r : option value) : list (option value) :=
  match r with
  | None => []
  | Some (VArr l) => Some <$> l
  | Some (VMap m) => (fun kv => Some kv.2) <$> map_to_list m
  | Some v => [Some v]
  end.

Definition gjson : Mapper.Collab :=
  {| Bytes := gmap string value;
     gjResult := option value;
     Marshal := Some;
     GetBytes := fun data key => data !! key;
     Get := gjGet;
     Exists := fun r => bool_decide (is_Some r);
     Value := default VNil;
     ForEach := gjForEach;
     replacePlaceholdersInterface := fun v _ => v |}.

Definition directive (key to : string) (isArray : bool) : Mapper.Mapping :=
  {| Object := ""; Key := key; To := to;
     Format := None; IsArray := isArray;
     IsObject := false; ArrayObjMap := [] |}.

Definition items : gmap string value :=
  {[ "items" := VArr [VStr "1"; VStr "2"]; "title" := VStr "t" ]}.

(** A directive with nested directives, over the items of the sample
    document. *)
Definition perItem : Mapper.Mapping :=
  {| Object := ""; Key := "items"; To := "ids"; Format := None;
     IsArray := true; IsObject := false;
     ArrayObjMap := [directive "a[0]" "id" false] |}.

(** A document of elements with a tag, attributes, text and children;
    a selector is a tag name. *)
Inductive node : Type :=
| Elem (tag : string) (attrs : list (string * string)) (text : string)
       (kids : list node).

Definition tagOf (n : node) : string := let 'Elem t _ _ _ := n in t.

Fixpoint descendants (n : node) : list node :=
  let 'Elem _ _ _ kids := n in
  concat (map (fun k => k :: descendants k) kids).

Definition find (sel : list node) (selector : string) : list node :=
  filter (fun n => tagOf n = selector) (concat (map descendants sel)).

Fixpoint assoc (l : list (string * string)) (name : string) : string :=
  match l with
  | [] => ""
  | (k, v) :: l' => if String.eqb k name then v else assoc l' name
  end.

Definition attrOf (n : node) (name : string) : string :=
  let 'Elem _ attrs _ _ := n in assoc attrs name.

Fixpoint textOf (n : node) : string :=
  let 'Elem _ _ text kids := n in
  text +:+ foldr (fun k acc => textOf k +:+ acc) "" kids.

(** References that start with a slash are joined to the base. *)
Definition resolve (base raw : string) : option string :=
  match raw with
  | String ":" _ => None
  | String "/" _ => Some (base +:+ raw)
  | _ => Some raw
  end.

(** A regexp engine for literal patterns. *)
Fixpoint occurrences (lit : string) (pos skip : nat) (s : string)
  : list (nat * nat) :=
  match s with
  | "" => []
  | String _ s' =>
      match skip with
      | S k => occurrences lit (S pos) k s'
      | O =>
          if negb (Strings.is_empty lit) && String.prefix lit s
          then (pos, pos + String.length lit)
                 :: occurrences lit (S pos) (String.length lit - 1) s'
          else occurrences lit (S pos) 0 s'
      end
  end.

Definition page : list node :=
  [ Elem "html" [] ""
      [ Elem "ul" [("id", "list")] ""
          [ Elem "li" [("data-id", "1")] "A" [];
            Elem "li" [("data-id", "2")] "B" [] ];
        Elem "a" [("href", "/next")] "next" [];
        Elem "p" [] "x,y" [] ] ].

(** The only document that can be fetched is [page], at [http://e.com]. *)
Definition web : Extract.Collab :=
  {| Node := node;
     Find := find;
     AttrOf := attrOf;
     TextOf := textOf;
     URL := string;
     urlParse := Some;
     Parse := resolve;
     Fetch := fun u =>
       if String.eqb u "http://e.com" then Some page else None;
     Regexp := string;
     Compile := fun p => if String.eqb p "(" then None else Some p;
     Expr := fun r => r;
     FindAllStringIndex := fun r s => occurrences r 0 0 s;
     Expand := fun _ repl _ _ => repl |}.

Definition leaf (name selector attr : string) (multiple : bool)
  : Extract.ExtractionRule :=
  {| Name := name; Selector := selector;
     Attr := attr; Multiple := multiple;
     Download := false; Visit := false;
     Flatten := false; SaveDir := "";
     Children := []; Transforms := [] |}.

(** Leaf rules with Multiple and Flatten: the identifiers of the items,
    and the paragraphs cut at the commas. *)
Definition flat : Extract.ExtractionRule :=
  {| Name := "ids"; Selector := "li";
     Attr := "data-id"; Multiple := true;
     Download := false; Visit := false;
     Flatten := true; SaveDir := "";
     Children := []; Transforms := [] |}.

Definition pieces : Extract.ExtractionRule :=
  {| Name := "parts"; Selector := "p";
     Attr := ""; Multiple := true;
     Download := false; Visit := false;
     Flatten := true; SaveDir := "";
     Children := [];
     Transforms := [ {| Match := ","; Split := true; Replace := "" |} ] |}.

(** A rule that follows the links of a page. *)
Definition follow : Extract.ExtractionRule :=
  {| Name := "links"; Selector := "a";
     Attr := "href"; Multiple := true;
     Download := false; Visit := true;
     Flatten := false; SaveDir := "";
     Children := [leaf "title" "h1" "" false];
     Transforms := [] |}.

(** A network with one picture, and paths joined with a slash. *)
Fixpoint lastElement (acc path : string) : string :=
  match path with
  | "" => acc
  | String c s' =>
      if Ascii.eqb c "/" then lastElement "" s'
      else lastElement (acc +:+ String c "") s'
  end.

Definition net : Download.Env :=
  {| urlPath := fun u =>
       match u with
       | String ":" _ => None
       | _ => Some u
       end;
     Base := fun p =>
       match lastElement "" p with "" => "." | b => b end;
     Join := fun d p => d +:+ "/" +:+ p;
     Do := fun u =>
       if String.eqb u "http://e.com/a.png" then Some (200%Z, Some "PNG")
       else Some (404%Z, Some "");
     mkdirAll := fun _ => true;
     create := fun _ => true |}.

Definition emptyWorld : Download.world :=
  {| files := ∅; unreadable := ∅; log := [] |}.

(** A rule whose pictures are downloaded to [out]. *)
Definition pictures : Extract.ExtractionRule :=
  {| Name := "images"; Selector := "img"; Attr := "src"; Multiple := false;
     Download := true; Visit := false; Flatten := false; SaveDir := "out";
     Children := []; Transforms := [] |}.

(** Two URLs and two permits; the second download, which fails, completes
    first. *)
Definition sampleUrls : list string :=
  ["http://e.com/a.png"; "http://e.com/b.png"].

Definition sampleRun : Download.pool :=
  {| next := 2; running := []; skipped := [];
     downloadList := ["out/a.png"; ""];
     outside :=
       {| files := {[ "out/a.png" := "PNG" ]}; unreadable := ∅;
          log := [HttpGet "http://e.com/b.png"; HttpGet "http://e.com/a.png";
                  MkdirAll "out"; Create "out/a.png"; Copy "out/a.png"] |};
     done_ctx := false |}.

Definition sampleResult : gmap string value :=
  {[ "images" :=
       VArr [VStr "http://e.com/a.png"; VStr "http://e.com/b.png"] ]}.

Definition sampleWorld : Download.world :=
  {| files := {[ "out/a.png" := "PNG" ]}; unreadable := ∅;
     log := [HttpGet "http://e.com/a.png"; MkdirAll "out";
             Create "out/a.png"; Copy "out/a.png"] |}.

Definition sampleRerun : Download.pool :=
  {| next := 1; running := []; skipped := [];
     downloadList := ["out/a.png"]; outside := sampleWorld;
     done_ctx := false |}.

(** A rule with a child: one record for each item of the list. *)
Definition rows : Extract.ExtractionRule :=
  {| Name := "rows"; Selector := "li"; Attr := "data-id";
     Multiple := true; Download := false; Visit := false;
     Flatten := false; SaveDir := "";
     Children := [leaf "label" "b" "" false];
     Transforms := [] |}.

(** A network on which the body of every reply breaks off while it is
    read. *)
Definition cut : Download.Env :=
  {| urlPath := urlPath net; Base := Base net; Join := Join net;
     Do := fun _ => Some (200%Z, None);
     mkdirAll := fun _ => true;
     create := fun _ => true |}.

(** URLs of one host, whose path is the whole text and which have no
    query; a disk that takes every write; a network that answers every
    request with the same page. *)
Definition urls : Fetcher.Urls :=
  {| Fetcher.parts := fun rawurl => Some ("e.com", rawurl, "");
     Fetcher.pathJoin := fun p q => p +:+ q;
     Fetcher.sha1 := fun _ => "01234567890123456789";
     Fetcher.sha1_size := fun _ => eq_refl |}.

Definition disk : Fetcher.Disk :=
  {| Fetcher.StashEnabled := true;
     Fetcher.written := fun _ data => Some data |}.

Definition internet : Fetcher.Web :=
  {| Fetcher.Document := string;
     Fetcher.QueryEscape := fun s => s;
     Fetcher.Get := fun _ => Some (200%Z, "<p>");
     Fetcher.NewDocumentFromReader := Ok |}.

Definition scraper : Fetcher.ScraperAPIFetcher :=
  {| Fetcher.APIKey := "k"; Fetcher.Premium := false;
     Fetcher.RenderJS := true |}.

(** A directory with one rule file and one file of another kind. *)
Definition folder : Rules.Files :=
  {| Rules.WalkDir := fun _ =>
       [ Rules.mkEntry "d" true None;
         Rules.mkEntry "d/a.json" false None;
         Rules.mkEntry "d/b.txt" false None ];
     Rules.LoadRulesFromJSON := fun _ => Ok [leaf "items" "li" "" true];
     Rules.LoadRulesFromYAML := fun _ => Err "yaml" |}.

(** A progress bar that keeps its maximum and its position, and a counter
    with a channel and no bar. *)
Definition bars : Progress.Bars :=
  {| Bar := Z * Z;
     New := fun max => (max, 0%Z);
     ChangeMax := fun max b => (max, b.2);
     AddMax := fun v b => ((b.1 + v)%Z, b.2);
     BarAdd := fun v b => (b.1, (b.2 + v)%Z);
     Finish := fun b => (b.1, b.1) |}.

Definition counter : Progress.RuleProgress bars :=
  {| Total := 0; Current := 0; Concurrency := 1;
     Update := Some 0; bar := None |}.

End Sample.

(** * Properties *)

(** ** Path remapper *)

Module MapperFacts.
Import Mapper.

Example split_path : Strings.Split "." "a.b[1]" = ["a"; "b[1]"].
Proof. reflexivity. Qed.

Example split_empty : Strings.Split "." "" = [""].
Proof. reflexivity. Qed.

Example number_in_brackets : extractNumberFromBrackets "b[12]" = Some 12%Z.
Proof. reflexivity. Qed.

Example no_number : extractNumberFromBrackets "b[x]" = None.
Proof. reflexivity. Qed.

Example number_too_large :
  extractNumberFromBrackets "b[9223372036854775808]" = None.
Proof. reflexivity. Qed.

Example strip_ex : strip_index 0 "b[12]c[3]" = "bc".
Proof. reflexivity. Qed.

Example assign_index_1 :
  complexPathing ∅ "a.b[1]" (VArr [VStr "x"; VStr "y"; VStr "z"])
  = Some {[ "a" := VMap {[ "b" := VStr "y" ]} ]}.
Proof. reflexivity. Qed.

Example assign_index_9 :
  complexPathing ∅ "a.b[9]" (VArr [VStr "x"; VStr "y"; VStr "z"])
  = Some {[ "a" := VMap {[ "b[9]" := VArr [VStr "x"; VStr "y"; VStr "z"] ]} ]}.
Proof. reflexivity. Qed.

Example assign_plain :
  complexPathing ∅ "payload.ids" (VArr [VStr "1"; VStr "2"])
  = Some {[ "payload" := VMap {[ "ids" := VArr [VStr "1"; VStr "2"] ]} ]}.
Proof. reflexivity. Qed.

Example remap_scenario :
  MapResultsResults Sample.gjson Sample.items
    [Sample.directive "items" "payload.ids" true]
  = Returns [Sample.directive "items" "payload.ids" true]
      {[ "payload" := VMap {[ "ids" := VArr [VStr "1"; VStr "2"] ]} ]}.
Proof. reflexivity. Qed.

(** *** The last key *)

Lemma assignLast_status m key v m' st :
  assignLast m key v = (m', st) -> st = Stored \/ st = IndexOutOfRange.
Proof.
  unfold assignLast. intros H.
  destruct v; try (injection H as _ <-; by left).
  destruct (extractNumberFromBrackets key) as [n|];
    [| injection H as _ <-; by left].
  destruct (Z.of_nat (length l) <? n)%Z; [injection H as _ <-; by left |].
  destruct (l !! Z.to_nat n); injection H as _ <-; auto.
Qed.

(** A valid index selects the element and drops the brackets. *)
Lemma assignLast_in_range m key (v : list value) n x :
  extractNumberFromBrackets key = Some n ->
  v !! Z.to_nat n = Some x ->
  assignLast m key (VArr v) = (<[strip_index 0 key := x]> m, Stored).
Proof.
  intros Hn Hx. unfold assignLast. rewrite Hn, Hx.
  pose proof (lookup_lt_Some _ _ _ Hx) as Hlen.
  by destruct (Z.ltb_spec (Z.of_nat (length v)) n); [lia |].
Qed.

(** An index beyond the length stores the whole array. *)
Lemma assignLast_beyond m key (v : list value) n :
  extractNumberFromBrackets key = Some n ->
  (Z.of_nat (length v) < n)%Z ->
  assignLast m key (VArr v) = (<[key := VArr v]> m, Stored).
Proof.
  intros Hn Hlt. unfold assignLast. rewrite Hn.
  by destruct (Z.ltb_spec (Z.of_nat (length v)) n); [| lia].
Qed.

(** The index equal to the length passes the guard [n > len(v)] and
    indexes out of range. *)
Lemma assignLast_at_length m key (v : list value) :
  extractNumberFromBrackets key = Some (Z.of_nat (length v)) ->
  assignLast m key (VArr v) = (m, IndexOutOfRange).
Proof.
  intros Hn. unfold assignLast. rewrite Hn.
  rewrite Z.ltb_irrefl, Nat2Z.id.
  by rewrite (lookup_ge_None_2 v (length v)).
Qed.

(** *** The walk *)

Lemma walk_last k m v : walk [k] m v = assignLast m k v.
Proof. reflexivity. Qed.

Lemma walk_step k k2 rest m v :
  walk (k :: k2 :: rest) m v =
  match m !! k with
  | None =>
      let '(newMap, st) := walk (k2 :: rest) ∅ v in
      (<[k := VMap newMap]> m, st)
  | Some (VMap nextMap) =>
      let '(nextMap', st) := walk (k2 :: rest) nextMap v in
      (<[k := VMap nextMap']> m, st)
  | Some _ => (m, NotAMap k)
  end.
Proof. reflexivity. Qed.

(** In a map the walk has just created no key exists, so no key can hold
    a value that is not a map. *)
Lemma walk_fresh_never_blocked keys v :
  forall m' key, walk keys ∅ v <> (m', NotAMap key).
Proof.
  induction keys as [| k rest IH]; intros m' key; [done |].
  destruct rest as [| k2 rest].
  - simpl. intros H. apply assignLast_status in H as [? | ?]; done.
  - rewrite walk_step, lookup_empty.
    destruct (walk (k2 :: rest) ∅ v) as [newMap st] eqn:Hw.
    intros H. injection H as _ ->. by apply (IH newMap key).
Qed.

(** A walk stopped by a value that is not a map has changed nothing. *)
Lemma walk_blocked_unchanged keys :
  forall m v m' key, walk keys m v = (m', NotAMap key) -> m' = m.
Proof.
  induction keys as [| k rest IH]; intros m v m' key; [by intros [= <-] |].
  destruct rest as [| k2 rest].
  - simpl. intros H. apply assignLast_status in H as [? | ?]; done.
  - rewrite walk_step. destruct (m !! k) as [[]|] eqn:Hk;
      try (by intros [= <- _]).
    + destruct (walk (k2 :: rest) m0 v) as [next' st] eqn:Hw.
      intros [= <- ->]. apply IH in Hw as ->. by apply insert_id.
    + destruct (walk (k2 :: rest) ∅ v) as [newMap st] eqn:Hw.
      intros [= <- ->]. by apply walk_fresh_never_blocked in Hw.
Qed.

(** After a walk that stored its value, the value is found where the
    path leads, whatever was there before. *)
Lemma walk_stored_locate keys :
  forall m v m',
    keys <> [] ->
    walk keys m v = (m', Stored) ->
    locate (leafPath keys v) (VMap m') = Some (leafOf keys v).
Proof.
  induction keys as [| k rest IH]; intros m v m' Hne; [done |].
  destruct rest as [| k2 rest].
  - rewrite walk_last. unfold assignLast, leafPath, leafOf, leafKey, leafValue.
    cbn [locate]. intros H.
    destruct v; try (injection H as <-; by rewrite lookup_insert_eq).
    destruct (extractNumberFromBrackets k) as [n|];
      [| injection H as <-; by rewrite lookup_insert_eq].
    destruct (Z.of_nat (length l) <? n)%Z;
      [injection H as <-; by rewrite lookup_insert_eq |].
    destruct (l !! Z.to_nat n); [| done].
    injection H as <-. by rewrite lookup_insert_eq.
  - rewrite walk_step.
    change (leafPath (k :: k2 :: rest) v) with (k :: leafPath (k2 :: rest) v).
    change (leafOf (k :: k2 :: rest) v) with (leafOf (k2 :: rest) v).
    cbn [locate].
    destruct (m !! k) as [[]|] eqn:Hk; try done.
    + destruct (walk (k2 :: rest) m0 v) as [next' st] eqn:Hw.
      intros [= <- ->]. rewrite lookup_insert_eq. by eapply IH.
    + destruct (walk (k2 :: rest) ∅ v) as [newMap st] eqn:Hw.
      intros [= <- ->]. rewrite lookup_insert_eq. by eapply IH.
Qed.

Lemma Split_nonempty sep s : Strings.Split sep s <> [].
Proof.
  destruct s as [| c s]; [done |]. simpl.
  destruct (Ascii.eqb c sep); [done |]. by destruct (Strings.Split sep s).
Qed.

Lemma complexPathing_blocked maps path v m' key :
  walk (Strings.Split "." path) maps v = (m', NotAMap key) ->
  complexPathing maps path v = Some maps.
Proof.
  intros H. unfold complexPathing. rewrite H.
  by rewrite (walk_blocked_unchanged _ _ _ _ _ H).
Qed.

Lemma complexPathing_stored maps path v m' :
  walk (Strings.Split "." path) maps v = (m', Stored) ->
  complexPathing maps path v = Some m'.
Proof. intros H. unfold complexPathing. by rewrite H. Qed.

(** *** The loop over the directives *)

Section Loop.
Context (W : Collab).

Lemma destination_setDestination st object m :
  destination (setDestination st object m) object = m.
Proof.
  unfold destination, setDestination.
  case_bool_decide; [done |]. simpl. by rewrite lookup_insert_eq.
Qed.

(** A named bucket the walk was blocked in was there before. *)
Lemma setDestination_unchanged st object :
  destination st object <> ∅ ->
  setDestination st object (destination st object) = st.
Proof.
  unfold destination, setDestination. destruct st as [root buckets].
  case_bool_decide; [done |]. simpl.
  destruct (buckets !! object) as [b|] eqn:Hb; [| done].
  intros _. by rewrite insert_id.
Qed.

Lemma walk_blocked_nonempty keys m v m' key :
  walk keys m v = (m', NotAMap key) -> m <> ∅.
Proof. intros H ->. by apply walk_fresh_never_blocked in H. Qed.

Lemma applyMapping_blocked data st mapping mapping' v m' key :
  directiveValue W data mapping = Some (mapping', v) ->
  walk (Strings.Split "." (To mapping))
       (destination st (Object mapping)) v = (m', NotAMap key) ->
  applyMapping W data st mapping = Some (mapping', st).
Proof.
  intros Hv Hw. unfold applyMapping. rewrite Hv.
  rewrite (complexPathing_blocked _ _ _ _ _ Hw).
  rewrite setDestination_unchanged; [done |].
  by eapply walk_blocked_nonempty.
Qed.

Lemma applyMappings_app data st ds1 ds2 :
  applyMappings W data st (ds1 ++ ds2) =
  match applyMappings W data st ds1 with
  | None => None
  | Some (ds1', st1) =>
      match applyMappings W data st1 ds2 with
      | None => None
      | Some (ds2', st2) => Some (ds1' ++ ds2', st2)
      end
  end.
Proof.
  revert st. induction ds1 as [| d ds1 IH]; intros st; simpl.
  - by destruct (applyMappings W data st ds2) as [[? ?]|].
  - destruct (applyMapping W data st d) as [[d' st']|]; [| done].
    rewrite IH.
    destruct (applyMappings W data st' ds1) as [[ds1' st1]|]; [| done].
    by destruct (applyMappings W data st1 ds2) as [[? ?]|].
Qed.

Lemma applyMapping_stored data st mapping mapping' v m' :
  directiveValue W data mapping = Some (mapping', v) ->
  walk (Strings.Split "." (To mapping))
       (destination st (Object mapping)) v = (m', Stored) ->
  applyMapping W data st mapping
  = Some (mapping', setDestination st (Object mapping) m').
Proof.
  intros Hv Hw. unfold applyMapping.
  by rewrite Hv, (complexPathing_stored _ _ _ _ Hw).
Qed.

End Loop.

(** *** The writes of [remapSingleObject] to its directives *)

Lemma occurs_app c s t :
  Strings.occurs c (s +:+ t) = Strings.occurs c s || Strings.occurs c t.
Proof.
  induction s as [| c' s IH]; [done |]. simpl. by rewrite IH, orb_assoc.
Qed.

Lemma ReplaceAll_removes old new s :
  Strings.occurs old new = false ->
  Strings.occurs old (Strings.ReplaceAll old new s) = false.
Proof.
  intros Hnew. induction s as [| c s IH]; [done |]. simpl.
  destruct (Ascii.eqb c old) eqn:Hc.
  - by rewrite occurs_app, Hnew, IH.
  - simpl. by rewrite Hc, IH.
Qed.

Lemma ReplaceAll_keeps_absent c old new s :
  Strings.occurs c new = false -> Strings.occurs c s = false ->
  Strings.occurs c (Strings.ReplaceAll old new s) = false.
Proof.
  intros Hnew. induction s as [| c' s IH]; [done |]. simpl.
  intros [Hc' Hs]%orb_false_elim.
  destruct (Ascii.eqb c' old).
  - by rewrite occurs_app, Hnew, IH.
  - simpl. by rewrite Hc', IH.
Qed.

Lemma ReplaceAll_absent old new s :
  Strings.occurs old s = false -> Strings.ReplaceAll old new s = s.
Proof.
  induction s as [| c s IH]; [done |]. simpl.
  intros [-> Hs]%orb_false_elim. by rewrite IH.
Qed.

Lemma normalizeKey_idempotent k :
  normalizeKey (normalizeKey k) = normalizeKey k.
Proof.
  unfold normalizeKey.
  rewrite (ReplaceAll_absent "[" "." (Strings.ReplaceAll "]" "" _)).
  - apply ReplaceAll_absent. by apply ReplaceAll_removes.
  - apply ReplaceAll_keeps_absent; [done |]. by apply ReplaceAll_removes.
Qed.

Lemma normalizeMapping_idempotent rule :
  normalizeMapping (normalizeMapping rule) = normalizeMapping rule.
Proof.
  unfold normalizeMapping. cbn [Object Key To Format IsArray IsObject
                                 ArrayObjMap default].
  by rewrite normalizeKey_idempotent.
Qed.

Section Writes.
Context (W : Collab).

Lemma remapRules_rules obj index rules :
  forall remappedObj rules' m,
    remapRules W obj index remappedObj rules = Some (rules', m) ->
    rules' = map normalizeMapping rules.
Proof.
  induction rules as [| rule rules IH]; intros remappedObj rules' m;
    [by intros [= <- _] |].
  cbn [remapRules].
  destruct (remapRule W obj index remappedObj rule) as [[rule1 m1]|] eqn:Hr;
    [| done].
  destruct (remapRules W obj index m1 rules) as [[rest' m']|] eqn:Hrest;
    [| done].
  intros [= <- _]. cbn [map]. f_equal; [| by eapply IH].
  unfold remapRule in Hr.
  destruct (Exists W _); [destruct (complexPathing _ _ _) |];
    by simplify_eq.
Qed.

(** After the loop over the elements the nested directives are as they
    were, or normalised. *)
Lemma eachElement_subs elems :
  forall index subs arrayResult subs' arrayResult',
    eachElement W elems index subs arrayResult = Some (subs', arrayResult') ->
    subs' = subs \/ subs' = map normalizeMapping subs.
Proof.
  induction elems as [| v elems IH];
    intros index subs arrayResult subs' arrayResult';
    [intros [= <- _]; by left |].
  cbn [eachElement]. destruct subs as [| sub subs]; [apply IH |].
  destruct (remapSingleObject W v (sub :: subs) index)
    as [[subs1 nestedObj]|] eqn:Hr; [| done].
  apply remapRules_rules in Hr. intros He%IH. right.
  destruct He as [-> | ->]; [done |]. rewrite Hr, map_map.
  apply map_ext. intros a. apply normalizeMapping_idempotent.
Qed.

End Writes.

(** *** Specified properties of the remapper *)

(** C2. Assigning an array at a path that ends in the index equal to the
    length of the array does not store the whole array: the guard of
    [complexPathing] is [n > len(v)], the index passes it, and [v[n]]
    panics. Here the path is [a.b[3]] and the array has three elements. *)
Theorem complexPathing_index_at_length_panics :
  forall x y z : value,
    complexPathing ∅ "a.b[3]" (VArr [x; y; z]) = None.
Proof. intros x y z. reflexivity. Qed.

(** The loop over the directives. (1) An assignment that meets a value
    that is not a map at an intermediate segment leaves the destination
    exactly as it was. (2) In the loop such a directive leaves the whole
    state as it was, and the directives after it are applied from that
    state. (3) The value the last directive of the list stores in the
    shared root (empty Object) is the one found at its leaf key in the
    output, whatever the directives before it wrote there. *)
Lemma remap_directives_independent (W : Collab) :
  (forall maps path v m' key,
      walk (Strings.Split "." path) maps v = (m', NotAMap key) ->
      m' = maps /\ complexPathing maps path v = Some maps)
  /\ (forall data st d d' v m' key rest,
      directiveValue W data d = Some (d', v) ->
      walk (Strings.Split "." (To d)) (destination st (Object d)) v
        = (m', NotAMap key) ->
      applyMapping W data st d = Some (d', st)
      /\ applyMappings W data st (d :: rest)
         = match applyMappings W data st rest with
           | None => None
           | Some (rest', st') => Some (d' :: rest', st')
           end)
  /\ (forall result data ds ds' st d d' v m',
      Marshal W result = Some data ->
      applyMappings W data {| remappedData := ∅; objMap := ∅ |} ds
        = Some (ds', st) ->
      Object d = "" ->
      directiveValue W data d = Some (d', v) ->
      walk (Strings.Split "." (To d)) (remappedData st) v = (m', Stored) ->
      MapResultsResults W result (ds ++ [d]) = Returns (ds' ++ [d']) m'
      /\ locate (leafPath (Strings.Split "." (To d)) v) (VMap m')
         = Some (leafOf (Strings.Split "." (To d)) v)).
Proof.
  split; [| split].
  - intros maps path v m' key H. split.
    + by eapply walk_blocked_unchanged.
    + by eapply complexPathing_blocked.
  - intros data st d d' v m' key rest Hv Hw.
    pose proof (applyMapping_blocked W _ _ _ _ _ _ _ Hv Hw) as Hd.
    split; [done |]. simpl. by rewrite Hd.
  - intros result data ds ds' st d d' v m' Hdata Hds Hobj Hv Hw. split.
    + unfold MapResultsResults. rewrite Hdata, applyMappings_app, Hds.
      simpl. unfold applyMapping, destination. rewrite Hv, Hobj.
      rewrite bool_decide_eq_true_2 by done.
      rewrite (complexPathing_stored _ _ _ _ Hw).
      unfold setDestination. by rewrite bool_decide_eq_true_2 by done.
    + eapply walk_stored_locate; [apply Split_nonempty | done].
Qed.

(** The three parts on a document with a title and two items: a write
    under a string, the loop going on after it, and two directives that
    write the same leaf. *)
Lemma remap_directives_independent_witness :
  (let maps : gmap string value := {[ "a" := VStr "s" ]} in
   maps = maps /\ complexPathing maps "a.b" (VStr "x") = Some maps)
  /\ (let st := {| remappedData := {[ "a" := VStr "s" ]}; objMap := ∅ |} in
      let d := Sample.directive "title" "a.b" false in
      let rest := [Sample.directive "items" "ids" true] in
      applyMapping Sample.gjson Sample.items st d = Some (d, st)
      /\ applyMappings Sample.gjson Sample.items st (d :: rest)
         = match applyMappings Sample.gjson Sample.items st rest with
           | None => None
           | Some (rest', st') => Some (d :: rest', st')
           end)
  /\ (let d1 := Sample.directive "title" "x.y" false in
      let d2 := Sample.directive "items" "x.y" true in
      let out : gmap string value :=
        {[ "x" := VMap {[ "y" := VArr [VStr "1"; VStr "2"] ]} ]} in
      MapResultsResults Sample.gjson Sample.items ([d1] ++ [d2])
        = Returns ([d1] ++ [d2]) out
      /\ locate ["x"; "y"] (VMap out) = Some (VArr [VStr "1"; VStr "2"])).
Proof.
  destruct (remap_directives_independent Sample.gjson) as (H1 & H2 & H3).
  split; [| split].
  - exact (H1 {[ "a" := VStr "s" ]} "a.b" (VStr "x")
              {[ "a" := VStr "s" ]} "a" eq_refl).
  - exact (H2 Sample.items
              {| remappedData := {[ "a" := VStr "s" ]}; objMap := ∅ |}
              (Sample.directive "title" "a.b" false)
              (Sample.directive "title" "a.b" false)
              (VStr "t") {[ "a" := VStr "s" ]} "a"
              [Sample.directive "items" "ids" true] eq_refl eq_refl).
  - exact (H3 Sample.items Sample.items
              [Sample.directive "title" "x.y" false]
              [Sample.directive "title" "x.y" false]
              {| remappedData := {[ "x" := VMap {[ "y" := VStr "t" ]} ]};
                 objMap := ∅ |}
              (Sample.directive "items" "x.y" true)
              (Sample.directive "items" "x.y" true)
              (VArr [VStr "1"; VStr "2"])
              {[ "x" := VMap {[ "y" := VArr [VStr "1"; VStr "2"] ]} ]}
              eq_refl eq_refl eq_refl eq_refl eq_refl).
Defined.

(** C7. A directive with an Object writes into the bucket of that name
    in [objMap], which [MapResultsResults] builds and never returns: the
    output is the shared root alone. Two directives write the same leaf
    key of the bucket [o]; the value of the later one, like that of the
    first, is in the bucket and not in the output. *)
Theorem bucket_writes_are_not_in_the_output :
  let d1 := {| Object := "o"; Key := "title"; To := "x"; Format := None;
               IsArray := false; IsObject := false; ArrayObjMap := [] |} in
  let d2 := {| Object := "o"; Key := "items"; To := "x"; Format := None;
               IsArray := true; IsObject := false; ArrayObjMap := [] |} in
  applyMappings Sample.gjson Sample.items
    {| remappedData := ∅; objMap := ∅ |} [d1; d2]
  = Some ([d1; d2],
          {| remappedData := ∅;
             objMap := {[ "o" := {[ "x" := VArr [VStr "1"; VStr "2"] ]} ]} |})
  /\ MapResultsResults Sample.gjson Sample.items [d1; d2]
     = Returns [d1; d2] ∅
  /\ locate ["x"] (VMap ∅) = None.
Proof. split; [| split]; reflexivity. Qed.

(** On the path of C2 the whole remap panics. *)
Example remap_index_at_length_panics :
  MapResultsResults Sample.gjson Sample.items
    [Sample.directive "items" "a.b[2]" true] = Panics.
Proof. reflexivity. Qed.

End MapperFacts.

(** ** Rule evaluator and transform pipeline *)

Module ExtractFacts.
Import Extract.

Example items_scenario :
  applyRule Sample.web "http://e.com" Sample.page
    (Sample.leaf "items" "li" "data-id" true)
  = Ok (VArr [VStr "1"; VStr "2"]).
Proof. reflexivity. Qed.

Example singular_text :
  applyRule Sample.web "http://e.com" Sample.page
    (Sample.leaf "p" "p" "" false)
  = Ok (VArr [VStr "x,y"]).
Proof. reflexivity. Qed.

Example follow_fails :
  applyRule Sample.web "http://e.com" Sample.page Sample.follow
  = Ok (VArr [VRes {[ "href" := VStr "http://e.com/next" ]}]).
Proof. reflexivity. Qed.

(** A link that can be followed: the children are evaluated on the page
    it leads to. *)
Example follow_succeeds :
  recordOf Sample.web "http://e.com" Sample.follow
    (Sample.Elem "a" [("href", "http://e.com")] "home" [])
  = VRes {[ "title" := VArr [VStr ""] ]}.
Proof. reflexivity. Qed.

(** A rule with children: one record per match. *)
Example nested_rule :
  applyRule Sample.web "http://e.com" Sample.page
    {| Name := "lists"; Selector := "ul"; Attr := "id"; Multiple := true;
       Download := false; Visit := false; Flatten := false; SaveDir := "";
       Children := [Sample.leaf "ids" "li" "data-id" true;
                    Sample.leaf "first" "li" "" false];
       Transforms := [] |}
  = Ok (VArr [VRes {[ "id" := VStr "list";
                      "ids" := VArr [VStr "1"; VStr "2"];
                      "first" := VArr [VStr "A"] ]}]).
Proof. reflexivity. Qed.

(** The same call with its writes: the rule and its children come back
    with the default Transforms. *)
Example nested_rule_in_place :
  fst <$>
  (applyRuleInPlace Sample.web 2 "http://e.com" Sample.page
     {| Name := "lists"; Selector := "ul"; Attr := ""; Multiple := true;
        Download := false; Visit := false; Flatten := false; SaveDir := "";
        Children := [Sample.leaf "ids" "li" "data-id" true];
        Transforms := [] |})
  = Some
      {| Name := "lists"; Selector := "ul"; Attr := ""; Multiple := true;
         Download := false; Visit := false; Flatten := false; SaveDir := "";
         Children :=
           [ {| Name := "ids"; Selector := "li"; Attr := "data-id";
                Multiple := true; Download := false; Visit := false;
                Flatten := false; SaveDir := ""; Children := [];
                Transforms := defaultTransforms |} ];
         Transforms := defaultTransforms |}.
Proof. reflexivity. Qed.

Example split_text :
  applyTransform Sample.web (VStr "x,y")
    [ {| Match := ","; Split := true; Replace := "" |} ]
  = [VStr "x"; VStr "y"].
Proof. reflexivity. Qed.

Example replace_text :
  applyTransform Sample.web (VStr "x,y")
    [ {| Match := ","; Split := false; Replace := "-" |} ]
  = [VStr "x-y"].
Proof. reflexivity. Qed.

(** White space is trimmed at both ends, in one byte or in several: a
    line feed, U+00A0 and U+2003 go, the space inside stays. *)
Example TrimSpace_runes :
  Strings.TrimSpace
    (String (ascii_of_nat 10)
       (String (ascii_of_nat 194) (String (ascii_of_nat 160)
          ("a b" +:+
           String (ascii_of_nat 226) (String (ascii_of_nat 128)
             (String (ascii_of_nat 131) " "))))))
  = "a b".
Proof. reflexivity. Qed.

(** A byte of a rune that is cut short is no white space. *)
Example TrimSpace_cut_rune :
  Strings.TrimSpace
    ("a" +:+ String (ascii_of_nat 226) (String (ascii_of_nat 128) ""))
  = "a" +:+ String (ascii_of_nat 226) (String (ascii_of_nat 128) "").
Proof. reflexivity. Qed.

(** *** The regexp operations when nothing matches *)

Lemma substring_all s : substring 0 (String.length s) s = s.
Proof. induction s as [| c s IH]; simpl; [done | by rewrite IH]. Qed.

Section Pipeline.
Context (W : Collab).

Lemma reSplit_no_match re s :
  s <> "" -> FindAllStringIndex W re s = [] -> reSplit W re s = [s].
Proof.
  intros Hs Hm. unfold reSplit. rewrite Hm.
  destruct s as [| c s]; [done |].
  rewrite andb_false_r. cbn [foldl Strings.is_empty].
  change (Nat.eqb 0 (String.length (String c s))) with false.
  cbn iota. rewrite Nat.sub_0_r. simpl app.
  by rewrite substring_all.
Qed.

Lemma ReplaceAllString_no_match re src repl :
  FindAllStringIndex W re src = [] -> ReplaceAllString W re src repl = src.
Proof.
  intros Hm. unfold ReplaceAllString. rewrite Hm. simpl.
  by rewrite Nat.sub_0_r, substring_all.
Qed.

(** A value without a string form goes through any pipeline as it is. *)
Lemma applyTransform_no_string raw t :
  safeString raw = "" -> applyTransform W raw t = [raw].
Proof.
  intros Hs. unfold applyTransform. destruct t; [done |]. by rewrite Hs.
Qed.

(** Without a [Split] entry the loop adds nothing to [o]. *)
Lemma transformStep_no_split t :
  Forall (fun tr => Split tr = false) t ->
  forall o ss, (foldl (transformStep W) (o, ss) t).1 = o.
Proof.
  induction 1 as [| tr t Htr _ IH]; intros o ss; [done |].
  simpl. destruct (Compile W (Match tr)) as [r|]; [| apply IH].
  rewrite Htr. apply IH.
Qed.

Lemma applyTransform_no_split raw t :
  Forall (fun tr => Split tr = false) t ->
  length (applyTransform W raw t) = 1.
Proof.
  intros Ht. unfold applyTransform. destruct t as [| tr t]; [done |].
  destruct (Strings.is_empty (safeString raw)); [done |].
  pose proof (transformStep_no_split _ Ht [] (safeString raw)) as Ho.
  destruct (foldl _ _ _) as [o ss']. simpl in Ho. by subst o.
Qed.

Lemma applyTransforms_no_split raw t :
  Forall (fun tr => Split tr = false) t ->
  length (applyTransforms W raw t) = length raw.
Proof.
  intros Ht. unfold applyTransforms.
  induction raw as [| r raw IH]; [done |].
  simpl. rewrite length_app, IH. by rewrite applyTransform_no_split.
Qed.

(** The pipeline returns at least one value for each value it is given. *)
Lemma applyTransform_not_empty raw t : 1 <= length (applyTransform W raw t).
Proof.
  unfold applyTransform. destruct t as [| tr t]; [done |].
  destruct (Strings.is_empty (safeString raw)); [done |].
  destruct (foldl _ _ _) as [[| v o] ss']; simpl; lia.
Qed.

Lemma applyTransforms_at_least raw t :
  length raw <= length (applyTransforms W raw t).
Proof.
  unfold applyTransforms. induction raw as [| r raw IH]; [done |].
  simpl. rewrite length_app.
  pose proof (applyTransform_not_empty r t). lia.
Qed.

Lemma applyTransforms_records {A} (f : A -> gmap string value) l t :
  applyTransforms W (map (fun a => VRes (f a)) l) t
  = map (fun a => VRes (f a)) l.
Proof.
  unfold applyTransforms. induction l as [| a l IH]; [done |].
  simpl. rewrite IH. by rewrite applyTransform_no_string.
Qed.

(** *** The branches of [applyRule] *)

Lemma applyRule_leaf_multiple base sel rule :
  Children rule = [] -> Multiple rule = true ->
  applyRule W base sel rule
  = Ok (VArr (applyTransforms W
                (if Flatten rule
                 then flattenList (gatherLeaf W base sel rule)
                 else gatherLeaf W base sel rule)
                (Transforms (enterRule rule)))).
Proof. destruct rule; simpl. by intros -> ->. Qed.

Lemma applyRule_leaf_single base sel rule :
  Children rule = [] -> Multiple rule = false ->
  applyRule W base sel rule
  = Ok (VArr (applyTransform W
                (VStr (if negb (Strings.is_empty (Attr rule))
                       then SelAttr W (First W (Find W sel (Selector rule)))
                              (Attr rule)
                       else Strings.TrimSpace
                              (SelText W
                                 (First W (Find W sel (Selector rule))))))
                (Transforms (enterRule rule)))).
Proof.
  destruct rule; simpl. intros -> ->. by destruct (Strings.is_empty _).
Qed.

Lemma applyRule_children_multiple base sel rule :
  Children rule <> [] -> Multiple rule = true ->
  applyRule W base sel rule
  = Ok (VArr (applyTransforms W
                (map (recordOf W base rule) (Find W sel (Selector rule)))
                (Transforms (enterRule rule)))).
Proof.
  destruct rule as [? ? ? ? ? ? ? ? cs ?].
  cbn [Children Multiple]. intros Hcs ->. destruct cs; [done |].
  reflexivity.
Qed.

Lemma applyRule_children_single base sel rule :
  Children rule <> [] -> Multiple rule = false ->
  applyRule W base sel rule = Ok (VRes (singleRecord W base sel rule)).
Proof.
  destruct rule as [? ? ? ? ? ? ? ? cs ?].
  cbn [Children Multiple]. intros Hcs ->. destruct cs; [done |].
  reflexivity.
Qed.

Lemma evalChildren_cons base scope c cs rec :
  evalChildren W base scope (c :: cs) rec
  = evalChildren W base scope cs
      (match applyRule W base scope c with
       | Ok v => <[Name c := v]> rec
       | Err _ => rec
       end).
Proof. reflexivity. Qed.

(** [applyRule] has no path that returns an error. *)
Lemma applyRule_no_error base sel rule :
  exists v, applyRule W base sel rule = Ok v.
Proof.
  destruct rule as [? ? ? mult ? ? ? ? cs ?]; simpl.
  destruct cs; destruct mult; try destruct (negb _); eauto.
Qed.

Lemma scrapeRules_no_error base doc rules :
  forall root, exists out, scrapeRules W base doc rules root = Ok out.
Proof.
  induction rules as [| rule rules IH]; intros root; simpl; [eauto |].
  destruct (applyRule_no_error base doc rule) as [v ->]. apply IH.
Qed.

End Pipeline.

(** *** The writes of [applyRule] to its rule *)

(** Induction on a rule tree. *)
Lemma rule_tree_ind (P : ExtractionRule -> Prop) :
  (forall rule, Forall P (Children rule) -> P rule) ->
  forall rule, P rule.
Proof.
  intros H. fix IH 1. intros rule. apply H.
  destruct rule as [? ? ? ? ? ? ? ? cs ?]. cbn [Children].
  induction cs as [| c cs IHcs]; constructor; [apply IH | apply IHcs].
Qed.

Lemma enterRule_idempotent rule : enterRule (enterRule rule) = enterRule rule.
Proof. unfold enterRule. by destruct rule as [? ? ? ? ? ? ? ? ? []]. Qed.

Lemma enterRule_Transforms rule :
  Transforms (enterRule rule)
  = match Transforms rule with [] => defaultTransforms | t => t end.
Proof. unfold enterRule. by destruct rule as [? ? ? ? ? ? ? ? ? []]. Qed.

Lemma enterRule_again rule rule' :
  Transforms rule' = Transforms (enterRule rule) ->
  Transforms (enterRule rule') = Transforms (enterRule rule).
Proof.
  rewrite !enterRule_Transforms. intros ->. by destruct (Transforms rule).
Qed.

Section Writes.
Context (W : Collab) (base : URL W).

(** The shape of the rule after at least one call. *)
Lemma ruleAfter_cons sel scopes rule :
  ruleAfter W base (sel :: scopes) rule
  = {| Name := Name rule; Selector := Selector rule; Attr := Attr rule;
       Multiple := Multiple rule; Download := Download rule;
       Visit := Visit rule; Flatten := Flatten rule; SaveDir := SaveDir rule;
       Children :=
         map (ruleAfter W base
                (concat (map (fun sel => childScopes W base sel rule)
                             (sel :: scopes))))
             (Children rule);
       Transforms := Transforms (enterRule rule) |}.
Proof. by destruct rule. Qed.

Lemma ruleAfter_nil rule : ruleAfter W base [] rule = rule.
Proof. by destruct rule. Qed.

Lemma ruleAfter_Name scopes rule :
  Name (ruleAfter W base scopes rule) = Name rule.
Proof.
  destruct scopes; [by rewrite ruleAfter_nil | by rewrite ruleAfter_cons].
Qed.

Lemma childScopes_ruleAfter sel scopes rule :
  childScopes W base sel (ruleAfter W base scopes rule)
  = childScopes W base sel rule.
Proof.
  destruct scopes as [| sel0 scopes]; [by rewrite ruleAfter_nil |].
  rewrite ruleAfter_cons. unfold childScopes, visited.
  cbn [Children Multiple Visit Attr Download Selector].
  by destruct (Children rule).
Qed.

Lemma evalChildren_map (f : ExtractionRule -> ExtractionRule) scope cs :
  Forall (fun c => Name (f c) = Name c
                   /\ applyRule W base scope (f c) = applyRule W base scope c)
         cs ->
  forall rec,
    evalChildren W base scope (map f cs) rec = evalChildren W base scope cs rec.
Proof.
  induction 1 as [| c cs [Hname Hval] _ IH]; intros rec; [done |].
  cbn [map]. rewrite !evalChildren_cons, Hname, Hval. apply IH.
Qed.

Lemma recordOf_ext rule rule' s :
  Attr rule' = Attr rule -> Download rule' = Download rule ->
  Visit rule' = Visit rule ->
  (forall scope rec,
      evalChildren W base scope (Children rule') rec
      = evalChildren W base scope (Children rule) rec) ->
  recordOf W base rule' s = recordOf W base rule s.
Proof.
  intros Ha Hd Hv Hk. unfold recordOf. rewrite Ha, Hd, Hv.
  repeat case_match; by rewrite ?Hk.
Qed.

(** A rule evaluates to the same value before and after the writes. *)
Lemma applyRule_ruleAfter rule :
  forall scopes sel,
    applyRule W base sel (ruleAfter W base scopes rule)
    = applyRule W base sel rule.
Proof.
  induction rule as [rule IH] using rule_tree_ind.
  intros [| sel0 scopes] sel; [by rewrite ruleAfter_nil |].
  rewrite ruleAfter_cons. set (below := concat _).
  match goal with |- applyRule _ _ _ ?r = _ => set (rule' := r) end.
  assert (Ht : Transforms (enterRule rule') = Transforms (enterRule rule))
    by by apply enterRule_again.
  assert (Hkids : forall scope rec,
             evalChildren W base scope (Children rule') rec
             = evalChildren W base scope (Children rule) rec).
  { intros scope rec. apply evalChildren_map.
    eapply Forall_impl; [exact IH |]. intros c Hc. split.
    - apply ruleAfter_Name.
    - apply Hc. }
  assert (Hleaf : Children rule' = [] <-> Children rule = []).
  { subst rule'. cbn [Children]. by destruct (Children rule). }
  destruct (Children rule) as [| c cs] eqn:Hcs;
    destruct (Multiple rule) eqn:Hm.
  - rewrite !applyRule_leaf_multiple by (done || by apply Hleaf).
    by rewrite Ht.
  - rewrite !applyRule_leaf_single by (done || by apply Hleaf).
    by rewrite Ht.
  - rewrite !applyRule_children_multiple
      by (done || by rewrite ?Hleaf, Hcs).
    rewrite Ht. change (Selector rule') with (Selector rule).
    do 3 f_equal. apply map_ext. intros s.
    rewrite <- Hcs in Hkids. by apply recordOf_ext.
  - rewrite !applyRule_children_single
      by (done || by rewrite ?Hleaf, Hcs).
    unfold singleRecord, singleAttr. rewrite Ht, Hkids, ?Hcs. done.
Qed.

(** A second round of the same calls changes nothing more. *)
Lemma ruleAfter_idempotent rule :
  forall scopes,
    ruleAfter W base scopes (ruleAfter W base scopes rule)
    = ruleAfter W base scopes rule.
Proof.
  induction rule as [rule IH] using rule_tree_ind.
  intros [| sel0 scopes]; [by rewrite !ruleAfter_nil |].
  rewrite (ruleAfter_cons sel0 scopes (ruleAfter W base _ rule)).
  rewrite (map_ext (fun sel => childScopes W base sel (ruleAfter W base _ rule))
                   (fun sel => childScopes W base sel rule))
    by (intros; apply childScopes_ruleAfter).
  rewrite !ruleAfter_cons. cbn [Name Selector Attr Multiple Download Visit
                                 Flatten SaveDir Children Transforms].
  set (below := concat _). f_equal.
  - rewrite map_map. apply map_ext_Forall.
    eapply Forall_impl; [exact IH |]. intros c Hc. apply Hc.
  - by apply enterRule_again.
Qed.

(** Calls after calls are calls on the scopes of both. *)
Lemma ruleAfter_app rule :
  forall a b,
    ruleAfter W base b (ruleAfter W base a rule)
    = ruleAfter W base (a ++ b) rule.
Proof.
  induction rule as [rule IH] using rule_tree_ind.
  intros [| sa a] [| sb b]; rewrite ?ruleAfter_nil, ?app_nil_r; try done.
  rewrite (ruleAfter_cons sb b (ruleAfter W base _ rule)).
  rewrite (map_ext (fun sel => childScopes W base sel (ruleAfter W base _ rule))
                   (fun sel => childScopes W base sel rule))
    by (intros; apply childScopes_ruleAfter).
  change ((sa :: a) ++ sb :: b) with (sa :: (a ++ sb :: b)).
  rewrite !ruleAfter_cons. cbn [Name Selector Attr Multiple Download Visit
                                 Flatten SaveDir Children Transforms].
  f_equal.
  - rewrite map_map. apply map_ext_Forall.
    eapply Forall_impl; [exact IH |]. intros c Hc. cbv beta.
    rewrite Hc. f_equal.
    change (sa :: (a ++ sb :: b)) with ((sa :: a) ++ (sb :: b)).
    by rewrite map_app, concat_app.
  - by apply enterRule_again.
Qed.

Lemma height_eq rule :
  height rule = S (foldr (fun c h => max (height c) h) 0 (Children rule)).
Proof. by destruct rule. Qed.

Lemma height_ruleAfter rule :
  forall scopes, height (ruleAfter W base scopes rule) = height rule.
Proof.
  induction rule as [rule IH] using rule_tree_ind.
  intros [| sel scopes]; [by rewrite ruleAfter_nil |].
  rewrite ruleAfter_cons, (height_eq rule), height_eq. cbn [Children].
  f_equal. set (below := concat _). clearbody below.
  revert IH. generalize (Children rule). intros cs IH.
  induction IH as [| c cs Hc _ IHcs]; [done |].
  cbn [map foldr]. by rewrite Hc, IHcs.
Qed.

Lemma height_child rule c :
  c ∈ Children rule -> height c < height rule.
Proof.
  rewrite (height_eq rule). induction (Children rule) as [| c' cs IH];
    [by intros ?%elem_of_nil |].
  intros [-> | Hin]%elem_of_cons; cbn [foldr]; [lia |].
  apply IH in Hin. lia.
Qed.

(** **** The threaded evaluation and the closed form agree *)

Section InPlace.
Context (n : nat)
        (call : list (Node W) -> ExtractionRule ->
                option (ExtractionRule * ret value))
        (Hcall : forall scope rule,
            height rule <= n ->
            call scope rule
            = Some (ruleAfter W base [scope] rule,
                    applyRule W base scope rule)).

Lemma childrenInPlace_spec scope cs :
  Forall (fun c => height c <= n) cs ->
  forall rec,
    childrenInPlace W call scope cs rec
    = Some (map (ruleAfter W base [scope]) cs,
            evalChildren W base scope cs rec).
Proof.
  induction 1 as [| c cs Hc _ IH]; intros rec; [done |].
  cbn [childrenInPlace]. rewrite (Hcall _ _ Hc), ruleAfter_Name, IH.
  by rewrite evalChildren_cons.
Qed.

Lemma recordInPlace_spec rule hist s :
  Forall (fun c => height c <= n) (Children rule) ->
  recordInPlace W base call rule
    (map (ruleAfter W base hist) (Children rule)) s
  = Some (map (ruleAfter W base (hist ++ matchScopes W base rule s))
              (Children rule),
          recordOf W base rule s).
Proof.
  intros Hh.
  assert (Hh' : Forall (fun c => height c <= n)
                  (map (ruleAfter W base hist) (Children rule))).
  { apply Forall_map. eapply Forall_impl; [exact Hh |].
    intros c Hc. cbv beta. by rewrite height_ruleAfter. }
  assert (Hkids : forall scope rec,
             childrenInPlace W call scope
               (map (ruleAfter W base hist) (Children rule)) rec
             = Some (map (ruleAfter W base (hist ++ [scope])) (Children rule),
                     evalChildren W base scope (Children rule) rec)).
  { intros scope rec. rewrite childrenInPlace_spec by done.
    rewrite map_map. f_equal. f_equal.
    - apply map_ext. intros c. apply ruleAfter_app.
    - apply evalChildren_map. apply Forall_forall. intros c _. split.
      + apply ruleAfter_Name.
      + apply applyRule_ruleAfter. }
  unfold recordInPlace, recordOf, matchScopes, visited.
  destruct (Visit rule) eqn:Hv; cbn [negb].
  - rewrite app_nil_r.
    repeat case_match; simplify_eq; rewrite ?Hkids, ?app_nil_r in *;
      by simplify_eq.
  - rewrite orb_false_r.
    repeat case_match; simplify_eq; rewrite ?Hkids in *; by simplify_eq.
Qed.

Lemma eachInPlace_spec rule matches :
  Forall (fun c => height c <= n) (Children rule) ->
  forall hist records,
    eachInPlace W base call rule matches
      (map (ruleAfter W base hist) (Children rule)) records
    = Some (map (ruleAfter W base
                   (hist ++ concat (map (matchScopes W base rule) matches)))
                (Children rule),
            records ++ map (recordOf W base rule) matches).
Proof.
  intros Hh. induction matches as [| s matches IH]; intros hist records.
  - cbn [eachInPlace map concat]. by rewrite !app_nil_r.
  - cbn [eachInPlace map concat].
    rewrite recordInPlace_spec by done. rewrite IH.
    by rewrite <- !app_assoc.
Qed.

Lemma map_ruleAfter_nil cs : map (ruleAfter W base []) cs = cs.
Proof.
  induction cs as [| c cs IH]; [done |].
  cbn [map]. by rewrite ruleAfter_nil, IH.
Qed.

Lemma rule_eta rule : withChildren rule (Children rule) = rule.
Proof. by destruct rule. Qed.

(** One call on a rule whose Transforms are not empty, when the calls on
    the children are right. *)
Lemma bodyInPlace_entered sel rule :
  enterRule rule = rule ->
  height rule <= S n ->
  bodyInPlace W base call sel rule
  = Some (ruleAfter W base [sel] rule, applyRule W base sel rule).
Proof.
  intros Hent Hh.
  assert (Hcs : Forall (fun c => height c <= n) (Children rule)).
  { apply Forall_forall. intros c Hc%height_child. lia. }
  unfold bodyInPlace. rewrite Hent.
  rewrite ruleAfter_cons, Hent. cbn [map concat]. rewrite app_nil_r.
  fold (withChildren rule
          (map (ruleAfter W base (childScopes W base sel rule))
               (Children rule))).
  destruct (Children rule) as [| c cs] eqn:Hkids.
  - cbn [map]. rewrite <- Hkids, rule_eta. f_equal. f_equal.
    destruct (Multiple rule) eqn:Hm.
    + rewrite applyRule_leaf_multiple by done. unfold leafResult.
      by rewrite Hm.
    + rewrite applyRule_leaf_single by done. unfold leafResult.
      rewrite Hm. by destruct (negb _).
  - rewrite <- Hkids in *.
    assert (Hne : Children rule <> []) by by rewrite Hkids.
    destruct (Multiple rule) eqn:Hm.
    + pose proof (eachInPlace_spec rule (Find W sel (Selector rule))
                    Hcs [] []) as He.
      rewrite map_ruleAfter_nil in He. rewrite He. cbn [app].
      rewrite applyRule_children_multiple, Hent by done.
      do 4 f_equal. unfold childScopes. by rewrite Hkids, Hm.
    + rewrite (childrenInPlace_spec _ _ Hcs).
      rewrite applyRule_children_single by done.
      do 4 f_equal. unfold childScopes. by rewrite Hkids, Hm.
Qed.

End InPlace.

Lemma ruleAfter_enterRule sel scopes rule :
  ruleAfter W base (sel :: scopes) (enterRule rule)
  = ruleAfter W base (sel :: scopes) rule.
Proof. by destruct rule as [? ? ? ? ? ? ? ? ? []]. Qed.

Lemma applyRule_enterRule sel rule :
  applyRule W base sel (enterRule rule) = applyRule W base sel rule.
Proof. by destruct rule as [? ? ? ? ? ? ? ? ? []]. Qed.

Lemma height_enterRule rule : height (enterRule rule) = height rule.
Proof. by destruct rule as [? ? ? ? ? ? ? ? ? []]. Qed.

(** With fuel for every level of the rule tree, the threaded evaluation
    returns the rule of the closed form and the value of [applyRule]. *)
Theorem applyRuleInPlace_spec fuel :
  forall sel rule,
    height rule <= fuel ->
    applyRuleInPlace W fuel base sel rule
    = Some (ruleAfter W base [sel] rule, applyRule W base sel rule).
Proof.
  induction fuel as [| fuel IH]; intros sel rule Hh.
  - rewrite height_eq in Hh. lia.
  - cbn [applyRuleInPlace].
    rewrite <- ruleAfter_enterRule, <- applyRule_enterRule.
    replace (bodyInPlace W base (applyRuleInPlace W fuel base) sel rule)
      with (bodyInPlace W base (applyRuleInPlace W fuel base) sel
              (enterRule rule))
      by (unfold bodyInPlace; by rewrite enterRule_idempotent).
    apply (bodyInPlace_entered fuel).
    + intros scope c Hc. by apply IH.
    + apply enterRule_idempotent.
    + by rewrite height_enterRule.
Qed.

End Writes.

(** *** Flatten *)

Lemma flattenList_cons v rest :
  flattenList (v :: rest)
  = match v with
    | VArr nested => flattenList nested ++ flattenList rest
    | _ => v :: flattenList rest
    end.
Proof. by destruct v. Qed.

Lemma flattenValue_no_array :
  forall v, Forall (fun x => is_VArr x = false) (flattenValue v).
Proof.
  fix IH 1. intros [ | | | | | | l | | | ]; simpl;
    try (by repeat constructor).
  induction l as [| a l IHl]; simpl; [constructor |].
  apply Forall_app. split; [apply IH | apply IHl].
Qed.

Lemma flattenList_no_array vals :
  Forall (fun x => is_VArr x = false) (flattenList vals).
Proof.
  unfold flattenList. induction vals as [| v vals IH]; simpl; [constructor |].
  apply Forall_app. split; [apply flattenValue_no_array | apply IH].
Qed.

Lemma flattenList_flat vals :
  Forall (fun x => is_VArr x = false) vals -> flattenList vals = vals.
Proof.
  induction 1 as [| v vals Hv _ IH]; [done |].
  rewrite flattenList_cons, IH. by destruct v.
Qed.

Lemma gatherLeaf_strings (W : Collab) base sel rule :
  Forall (fun x => is_VArr x = false) (gatherLeaf W base sel rule).
Proof.
  unfold gatherLeaf. apply Forall_map, Forall_forall. intros s _.
  destruct (negb _); [| done].
  destruct (_ && _); [| done]. by destruct (Parse W base _).
Qed.

Lemma flattenOneLevel_flat vals :
  Forall (fun x => is_VArr x = false) vals -> flattenOneLevel vals = vals.
Proof.
  unfold flattenOneLevel. induction 1 as [| v vals Hv _ IH]; [done |].
  simpl. rewrite IH. by destruct v.
Qed.

Lemma gatherLeaf_VStr (W : Collab) base sel rule :
  Forall (fun v => exists s, v = VStr s) (gatherLeaf W base sel rule).
Proof.
  unfold gatherLeaf. apply Forall_map, Forall_forall. intros s _.
  destruct (negb _); [| by eexists].
  destruct (_ && _); [| by eexists].
  destruct (Parse W base _); by eexists.
Qed.

Lemma gatherLeaf_length (W : Collab) base sel rule :
  length (gatherLeaf W base sel rule) = length (Find W sel (Selector rule)).
Proof. unfold gatherLeaf. apply length_map. Qed.

Lemma is_empty_false s : s <> "" -> Strings.is_empty s = false.
Proof. by destruct s. Qed.

(** *** Specified properties of the evaluator and the pipeline *)

(** C3, as the code has it. A leaf rule whose selector matches nothing
    returns no error; with Multiple the value is the empty array, and
    without it the value is the array the Transform Pipeline returns for
    the empty string: one element, the empty string. *)
Theorem applyRule_leaf_zero_matches (W : Collab) base sel rule :
  Children rule = [] ->
  Find W sel (Selector rule) = [] ->
  applyRule W base sel rule
  = Ok (if Multiple rule then VArr [] else VArr [VStr ""]).
Proof.
  intros Hleaf Hzero. destruct (Multiple rule) eqn:Hm.
  - rewrite applyRule_leaf_multiple by done.
    unfold gatherLeaf. rewrite Hzero. simpl.
    by destruct (Flatten rule).
  - rewrite applyRule_leaf_single by done. rewrite Hzero. simpl.
    destruct (negb _); by rewrite applyTransform_no_string.
Qed.

Lemma applyRule_leaf_zero_matches_witness :
  applyRule Sample.web "http://e.com" Sample.page
    (Sample.leaf "missing" "h9" "" true)
  = Ok (VArr [])
  /\ applyRule Sample.web "http://e.com" Sample.page
       (Sample.leaf "missing" "h9" "data-id" false)
     = Ok (VArr [VStr ""]).
Proof.
  split.
  - exact (applyRule_leaf_zero_matches Sample.web "http://e.com" Sample.page
             (Sample.leaf "missing" "h9" "" true) eq_refl eq_refl).
  - exact (applyRule_leaf_zero_matches Sample.web "http://e.com" Sample.page
             (Sample.leaf "missing" "h9" "data-id" false) eq_refl eq_refl).
Defined.

(** C3, as the specification has it, fails: for a singular leaf rule
    without a match the value is not the empty string itself. *)
Lemma leaf_zero_matches_singular_is_wrapped :
  applyRule Sample.web "http://e.com" Sample.page
    (Sample.leaf "missing" "h9" "" false)
  = Ok (VArr [VStr ""])
  /\ applyRule Sample.web "http://e.com" Sample.page
       (Sample.leaf "missing" "h9" "" false)
     <> Ok (VStr "").
Proof. split; [reflexivity | discriminate]. Qed.

(** C4, as the code has it. For a leaf rule with Multiple and Flatten,
    Flatten gives on the gathered list what a collapse of exactly one
    level gives: the gathered values are strings, one for each match, so
    the list is left as it is. The output array is that list after the
    Transform Pipeline: it is never shorter than the number of matches,
    and has that length when no transform of the rule splits. *)
Theorem leaf_flatten_collapses_one_level (W : Collab) base sel rule :
  Children rule = [] ->
  Multiple rule = true ->
  Flatten rule = true ->
  let gathered := gatherLeaf W base sel rule in
  Forall (fun v => exists s, v = VStr s) gathered
  /\ flattenList gathered = flattenOneLevel gathered
  /\ length (flattenList gathered) = length (Find W sel (Selector rule))
  /\ applyRule W base sel rule
     = Ok (VArr (applyTransforms W (flattenOneLevel gathered)
                   (Transforms (enterRule rule))))
  /\ (forall out,
        applyRule W base sel rule = Ok (VArr out) ->
        length (Find W sel (Selector rule)) <= length out
        /\ (Forall (fun tr => Split tr = false) (Transforms rule) ->
            length out = length (Find W sel (Selector rule)))).
Proof.
  intros Hleaf Hm Hf. cbv zeta.
  pose proof (flattenList_flat _ (gatherLeaf_strings W base sel rule))
    as Hflat.
  pose proof (flattenOneLevel_flat _ (gatherLeaf_strings W base sel rule))
    as Hone.
  assert (Hrun : applyRule W base sel rule
                 = Ok (VArr (applyTransforms W (gatherLeaf W base sel rule)
                               (Transforms (enterRule rule))))).
  { rewrite applyRule_leaf_multiple by done. by rewrite Hf, Hflat. }
  split; [apply gatherLeaf_VStr |].
  split; [by rewrite Hflat, Hone |].
  split; [rewrite Hflat; apply gatherLeaf_length |].
  split; [by rewrite Hone |].
  intros out Hout. rewrite Hrun in Hout. injection Hout as <-. split.
  - rewrite <- (gatherLeaf_length W base sel rule).
    apply applyTransforms_at_least.
  - intros Ht. rewrite applyTransforms_no_split; [apply gatherLeaf_length |].
    unfold enterRule. destruct (Transforms rule) eqn:E.
    + by repeat constructor.
    + by rewrite E.
Qed.

Lemma leaf_flatten_collapses_one_level_witness :
  flattenList (gatherLeaf Sample.web "http://e.com" Sample.page Sample.flat)
  = flattenOneLevel
      (gatherLeaf Sample.web "http://e.com" Sample.page Sample.flat)
  /\ applyRule Sample.web "http://e.com" Sample.page Sample.flat
     = Ok (VArr [VStr "1"; VStr "2"])
  /\ length [VStr "1"; VStr "2"]
     = length (Find Sample.web Sample.page (Selector Sample.flat)).
Proof.
  destruct (leaf_flatten_collapses_one_level Sample.web "http://e.com"
              Sample.page Sample.flat eq_refl eq_refl eq_refl)
    as (_ & Hone & _ & Hrun & Hlen).
  split; [exact Hone |]. split; [exact Hrun |].
  apply (Hlen [VStr "1"; VStr "2"] Hrun). by repeat constructor.
Defined.

(** C4, as the specification has it, fails: a transform that splits
    makes the output array longer than the list Flatten leaves, which
    has one element for the one match. *)
Lemma leaf_split_lengthens_output :
  Find Sample.web Sample.page (Selector Sample.pieces)
  = [Sample.Elem "p" [] "x,y" []]
  /\ flattenOneLevel
       (gatherLeaf Sample.web "http://e.com" Sample.page Sample.pieces)
     = [VStr "x,y"]
  /\ applyRule Sample.web "http://e.com" Sample.page Sample.pieces
     = Ok (VArr [VStr "x"; VStr "y"])
  /\ length [VStr "x"; VStr "y"]
     <> length (flattenOneLevel
                 (gatherLeaf Sample.web "http://e.com" Sample.page
                    Sample.pieces)).
Proof. repeat split; try reflexivity. discriminate. Qed.

(** C6, as the specification has it, fails: the URL recorded after a
    failed visit is the resolved one, not the raw attribute [/next]. *)
Lemma visit_failure_does_not_record_raw :
  applyRule Sample.web "http://e.com" Sample.page Sample.follow
  = Ok (VArr [VRes {[ "href" := VStr "http://e.com/next" ]}])
  /\ applyRule Sample.web "http://e.com" Sample.page Sample.follow
     <> Ok (VArr [VRes {[ "href" := VStr "/next" ]}]).
Proof.
  split; [reflexivity |]. intros H. vm_compute in H. discriminate H.
Qed.

(** C8. A Transform list whose only entry has no occurrence of its
    pattern in a string returns that string unchanged, as the only
    element of the output, whether the entry splits or replaces; a pattern
    that does not compile is skipped with the same result. *)
Theorem applyTransform_no_occurrence (W : Collab) (s : string) tr :
  (forall r, Compile W (Match tr) = Some r ->
             FindAllStringIndex W r s = []) ->
  applyTransform W (VStr s) [tr] = [VStr s].
Proof.
  intros Hno. unfold applyTransform. cbn [safeString].
  destruct (Strings.is_empty s) eqn:Hs; [done |].
  cbn [foldl]. unfold transformStep.
  destruct (Compile W (Match tr)) as [r|] eqn:Hr; [| done].
  specialize (Hno r eq_refl).
  destruct (Split tr).
  - rewrite reSplit_no_match; [| by destruct s | done].
    by destruct s.
  - by rewrite ReplaceAllString_no_match.
Qed.

Lemma applyTransform_no_occurrence_witness :
  applyTransform Sample.web (VStr "abc")
    [ {| Match := "x"; Split := true; Replace := "" |} ] = [VStr "abc"]
  /\ applyTransform Sample.web (VStr "abc")
       [ {| Match := "x"; Split := false; Replace := "y" |} ] = [VStr "abc"].
Proof.
  split.
  - apply (applyTransform_no_occurrence Sample.web "abc"
             {| Match := "x"; Split := true; Replace := "" |}).
    intros r Hr. injection Hr as <-. reflexivity.
  - apply (applyTransform_no_occurrence Sample.web "abc"
             {| Match := "x"; Split := false; Replace := "y" |}).
    intros r Hr. injection Hr as <-. reflexivity.
Defined.

(** The pipeline works on the string form of a value: an int comes back
    as its decimal text. *)
Example applyTransform_int :
  applyTransform Sample.web (VInt 5)
    [ {| Match := "x"; Split := false; Replace := "y" |} ] = [VStr "5"].
Proof. reflexivity. Qed.

End ExtractFacts.

(** ** Concurrent downloader *)

Module DownloadFacts.
Import Extract Download ExtractFacts Sample.

Example ext_png : Ext "dir.d/a.tar.gz" = ".gz".
Proof. reflexivity. Qed.

Example ext_none : Ext "dir.d/a" = "".
Proof. reflexivity. Qed.

Example duplicate_ext : removeDuplicateExt "a.png.png.png" = "a.png".
Proof. reflexivity. Qed.

Example single_ext : removeDuplicateExt "a.tar.gz" = "a.tar.gz".
Proof. reflexivity. Qed.

Example download_new :
  downloadResource Sample.net 7 emptyWorld "http://e.com/a.png" "out"
  = ({| files := {[ "out/a.png" := "PNG" ]}; unreadable := ∅;
        log := [HttpGet "http://e.com/a.png"; MkdirAll "out";
                Create "out/a.png"; Copy "out/a.png"] |},
     ("out/a.png", None)).
Proof. reflexivity. Qed.

Example download_404 :
  (downloadResource Sample.net 7 emptyWorld "http://e.com/b.png"
     "out").2.1 = "".
Proof. reflexivity. Qed.

(** *** Names *)

Lemma length_append (s t : string) :
  String.length (s +:+ t) = String.length s + String.length t.
Proof. induction s as [| c s IH]; simpl; [done | by rewrite IH]. Qed.

Lemma substring_prefix (s t : string) :
  substring 0 (String.length s) (s +:+ t) = s.
Proof. induction s as [| c s IH]; simpl; [by destruct t | by rewrite IH]. Qed.

Lemma substring_suffix (s t : string) :
  substring (String.length s) (String.length t) (s +:+ t) = t.
Proof. induction s as [| c s IH]; simpl; [apply substring_all | done]. Qed.

Lemma HasSuffix_append (s t : string) : HasSuffix (s +:+ t) t = true.
Proof.
  unfold HasSuffix. rewrite length_append.
  replace (String.length s + String.length t - String.length t)
    with (String.length s) by lia.
  rewrite substring_suffix, String.eqb_refl.
  rewrite andb_true_r. apply Nat.leb_le. lia.
Qed.

Lemma TrimSuffix_append (s t : string) : TrimSuffix (s +:+ t) t = s.
Proof.
  unfold TrimSuffix. rewrite HasSuffix_append, length_append.
  replace (String.length s + String.length t - String.length t)
    with (String.length s) by lia.
  apply substring_prefix.
Qed.

(** The extension is a suffix of the path and, when there is one, starts
    with a dot. *)
Lemma Ext_suffix path : exists pre, path = pre +:+ Ext path.
Proof.
  induction path as [| c s [pre IH]]; [by exists "" |]. simpl.
  destruct (Ext s) as [| d e] eqn:He.
  - destruct (Ascii.eqb c "." && negb (has_slash s)).
    + by exists "".
    + exists (String c pre). by rewrite IH at 1.
  - exists (String c pre). by rewrite IH at 1.
Qed.

Lemma Ext_dot path : Ext path = "" \/ exists e, Ext path = String "." e.
Proof.
  induction path as [| c s IH]; [by left |]. simpl.
  destruct (Ext s) as [| d e] eqn:He.
  - destruct (Ascii.eqb_spec c ".") as [-> | _]; simpl; [| by left].
    destruct (has_slash s); simpl; [by left | right; eauto].
  - destruct IH as [? | IH]; [done | by right].
Qed.

(** The name [removeDuplicateExt] calls itself on is shorter. *)
Lemma removeDuplicateExt_shorter filename :
  Ext filename <> "" ->
  String.length (TrimSuffix filename ("." +:+ tail (Ext filename)))
  < String.length filename.
Proof.
  intros Hext. destruct (Ext_dot filename) as [? | [e He]]; [done |].
  destruct (Ext_suffix filename) as [pre Hpre].
  rewrite He in *. simpl tail. change ("." +:+ e) with (String "." e).
  rewrite Hpre at 1. rewrite TrimSuffix_append.
  rewrite Hpre, length_append. simpl. lia.
Qed.

(** Any fuel above the length of the name gives the same result: the
    recursion of [removeDuplicateExt] ends before the fuel does. *)
Lemma removeDuplicateExt_fuel_enough n :
  forall m filename,
    String.length filename < n -> String.length filename < m ->
    removeDuplicateExt_fuel n filename = removeDuplicateExt_fuel m filename.
Proof.
  induction n as [| n IH]; intros m filename Hn Hm; [lia |].
  destruct m as [| m]; [lia |]. simpl.
  destruct (Ext filename) as [| d e] eqn:He; [done |].
  cbn [Strings.is_empty].
  pose proof (removeDuplicateExt_shorter filename) as Hlt.
  rewrite He in Hlt. specialize (Hlt ltac:(done)).
  destruct (HasSuffix _ _); [| done]. apply IH; lia.
Qed.

Lemma removeDuplicateExt_unfold filename :
  removeDuplicateExt filename
  = let ext := Ext filename in
    if Strings.is_empty ext then filename
    else
      let ext := tail ext in
      let base := TrimSuffix filename ("." +:+ ext) in
      if HasSuffix base ("." +:+ ext) then removeDuplicateExt base
      else filename.
Proof.
  unfold removeDuplicateExt at 1. cbn [removeDuplicateExt_fuel]. cbv zeta.
  destruct (Strings.is_empty (Ext filename)) eqn:He; [done |].
  destruct (HasSuffix _ _); [| done].
  apply removeDuplicateExt_fuel_enough; [| lia].
  apply removeDuplicateExt_shorter. by destruct (Ext filename).
Qed.

(** *** One download *)

(** Every error comes with the empty path. *)
Lemma downloadResource_error E now w rawURL saveDir w' p e :
  downloadResource E now w rawURL saveDir = (w', (p, Some e)) -> p = "".
Proof.
  unfold downloadResource.
  destruct (outPathOf E now rawURL saveDir) as [outPath|]; [| by intros [=]].
  destruct (negb (notExist w outPath)); [by intros [=] |].
  destruct (Do E rawURL) as [[status [content|]]|];
    repeat (match goal with
            | |- context [if ?b then _ else _] => destruct b
            end; try by intros [=]); by intros [=].
Qed.

Lemma downloadResource_present E now w rawURL saveDir outPath :
  outPathOf E now rawURL saveDir = Some outPath ->
  is_Some (files w !! outPath) ->
  downloadResource E now w rawURL saveDir = (w, (outPath, None)).
Proof.
  intros Hout [content Hfile]. unfold downloadResource. rewrite Hout.
  unfold notExist. rewrite bool_decide_eq_false_2; [done |].
  by rewrite Hfile.
Qed.

(** A download leaves the unreadable paths as they are, writes to no
    path but its own, and returns a path that depends on the world
    through its own path alone. *)
Lemma downloadResource_unreadable E now w rawURL saveDir :
  unreadable (downloadResource E now w rawURL saveDir).1 = unreadable w.
Proof.
  unfold downloadResource.
  destruct (outPathOf E now rawURL saveDir) as [outPath|]; [| done].
  destruct (negb (notExist w outPath)); [done |].
  destruct (Do E rawURL) as [[status [content|]]|]; [| | done];
    repeat (match goal with
            | |- context [if ?b then _ else _] => destruct b
            end; try done).
Qed.

Lemma downloadResource_files_other E now w rawURL saveDir p :
  outPathOf E now rawURL saveDir <> Some p ->
  files (downloadResource E now w rawURL saveDir).1 !! p = files w !! p.
Proof.
  unfold downloadResource.
  destruct (outPathOf E now rawURL saveDir) as [outPath|]; [| done].
  intros Hne. assert (Hp : outPath <> p) by congruence.
  destruct (negb (notExist w outPath)); [done |].
  destruct (Do E rawURL) as [[status [content|]]|]; [| | done];
    repeat (match goal with
            | |- context [if ?b then _ else _] => destruct b
            end; try done);
    cbn [fst emit writeFile files]; by rewrite ?lookup_insert_ne by done.
Qed.

Lemma downloadResource_path_same E now w w' rawURL saveDir :
  (forall p, outPathOf E now rawURL saveDir = Some p ->
             files w !! p = files w' !! p) ->
  unreadable w = unreadable w' ->
  (downloadResource E now w rawURL saveDir).2.1
  = (downloadResource E now w' rawURL saveDir).2.1.
Proof.
  intros Hf Hu. unfold downloadResource.
  destruct (outPathOf E now rawURL saveDir) as [outPath|]; [| done].
  assert (notExist w outPath = notExist w' outPath) as ->.
  { unfold notExist. by rewrite (Hf outPath eq_refl), Hu. }
  destruct (negb (notExist w' outPath)); [done |].
  destruct (Do E rawURL) as [[status [content|]]|]; [| | done];
    repeat (match goal with
            | |- context [if ?b then _ else _] => destruct b
            end; try done).
Qed.

(** *** The pool *)

Section PoolFacts.
Context (E : Env) (urlResults : list string) (dir : string)
        (concurrency : Z).

#[local] Abbreviation step := (step E urlResults dir concurrency).
#[local] Abbreviation returned := (returned urlResults).
#[local] Abbreviation inv := (inv E urlResults dir concurrency).

Lemma inv_start w cancelled : inv (start urlResults w cancelled).
Proof.
  split; simpl; try lia; try done.
  - apply length_replicate.
  - intros i Hi. by apply elem_of_nil in Hi.
Qed.

Lemma inv_step st st' : inv st -> step st st' -> inv st'.
Proof.
  intros [Hn Hl Hr Hb Hs Hslots] Hstep.
  destruct Hstep as [st Hlt Hperm | st Hlt Hdone | st i u now Hi Hu | st];
    split; simpl; try done; try lia;
    try (rewrite length_app; simpl; lia);
    try (pose proof (length_filter (fun j => j <> i) (running st)); lia).
  - intros i [Hi | Hi%list_elem_of_singleton]%elem_of_app;
      [apply Hr in Hi |]; lia.
  - intros i u Hi Hu.
    destruct (decide (i = next st)) as [-> | Hne].
    + left. apply elem_of_app. right. by apply list_elem_of_singleton.
    + destruct (Hslots i u) as [? | [? | ?]]; [lia | done | | |]; auto.
      left. apply elem_of_app. by left.
  - intros i Hi. apply Hr in Hi. lia.
  - intros i u Hi Hu.
    destruct (decide (i = next st)) as [-> | Hne].
    + right. left. apply elem_of_app. right.
      by apply list_elem_of_singleton.
    + destruct (Hslots i u) as [? | [? | ?]]; [lia | done | | |]; auto.
      right. left. apply elem_of_app. by left.
  - by rewrite length_insert.
  - intros j [_ Hj]%list_elem_of_filter. by apply Hr.
  - intros j u' Hj Hu'.
    destruct (decide (j = i)) as [-> | Hne].
    + right. right. exists now, (outside st).
      assert (u' = u) as -> by congruence.
      apply list_lookup_insert_eq. rewrite Hl.
      by apply lookup_lt_Some in Hu.
    + destruct (Hslots j u') as [? | [? | (now' & w' & Hw')]];
        [done | done | | |].
      * left. by apply list_elem_of_filter.
      * by right; left.
      * right. right. exists now', w'.
        by rewrite list_lookup_insert_ne.
Qed.

Lemma inv_steps st st' : inv st -> rtc step st st' -> inv st'.
Proof. induction 2; eauto using inv_step. Qed.

(** Never more downloads in flight than the semaphore has permits. *)
Lemma running_bounded w cancelled st :
  rtc step (start urlResults w cancelled) st ->
  length (running st) <= permits concurrency.
Proof.
  intros Hrun. apply (inv_bound (E := E) (urlResults := urlResults)
                              (dir := dir)).
  eapply inv_steps; [apply inv_start | done].
Qed.

(** **** No deadlock while the context is live *)

Lemma permits_positive : 0 < permits concurrency.
Proof. unfold permits. destruct (Z.ltb_spec concurrency 1); lia. Qed.

Lemma filter_ne_shorter (i : nat) (l : list nat) :
  i ∈ l -> length (filter (fun j => j <> i) l) < length l.
Proof.
  induction l as [| a l IH]; [by intros ?%elem_of_nil |].
  intros Hi. rewrite filter_cons. case_decide as Ha.
  - simpl. apply elem_of_cons in Hi as [-> | Hi]; [done |].
    apply IH in Hi. lia.
  - pose proof (length_filter (fun j => j <> i) l). simpl. lia.
Qed.

(** The running workers can all finish. *)
Lemma drain n :
  forall st, inv st -> length (running st) <= n ->
    exists st', rtc step st st' /\ running st' = []
                /\ next st' = next st /\ skipped st' = skipped st
                /\ done_ctx st' = done_ctx st.
Proof.
  induction n as [| n IH]; intros st Hinv Hlen.
  - exists st. split; [apply rtc_refl |].
    split; [| done]. destruct (running st); [done | simpl in Hlen; lia].
  - destruct (running st) as [| i l] eqn:Hrun.
    { exists st. by split; [apply rtc_refl |]. }
    assert (Hi : i ∈ running st) by (rewrite Hrun; apply elem_of_cons; auto).
    assert (is_Some (urlResults !! i)) as [u Hu].
    { apply lookup_lt_is_Some_2. pose proof (inv_running Hinv i Hi).
      pose proof (inv_next Hinv). lia. }
    pose proof (Finished E urlResults dir concurrency st i u 0 Hi Hu) as Hs.
    destruct (IH _ (inv_step _ _ Hinv Hs)) as (st' & Hrtc & ? & ? & ? & ?).
    { simpl. pose proof (filter_ne_shorter i (running st) Hi).
      rewrite Hrun in *. simpl in *. lia. }
    exists st'. split; [by eapply rtc_l |]. done.
Qed.

(** With no worker running, the rest of the loop can be run one
    download at a time. *)
Lemma finish_loop k :
  forall st, inv st -> running st = [] -> skipped st = [] ->
    next st + k = length urlResults ->
    exists st', rtc step st st' /\ returned st'.
Proof.
  induction k as [| k IH]; intros st Hinv Hrun Hskip Hk.
  - exists st. split; [apply rtc_refl |].
    split; [lia |]. unfold wg. by rewrite Hrun, Hskip.
  - assert (Hlt : next st < length urlResults) by lia.
    assert (Hperm : length (running st) < permits concurrency).
    { rewrite Hrun. apply permits_positive. }
    pose proof (Acquired E urlResults dir concurrency st Hlt Hperm) as Hs1.
    pose proof (inv_step _ _ Hinv Hs1) as Hinv1.
    destruct (drain 1 _ Hinv1) as (st2 & Hrtc & Hrun2 & Hn2 & Hsk2 & _).
    { simpl. rewrite Hrun. simpl. lia. }
    destruct (IH st2) as (st' & Hrtc' & Hret); try done.
    + eapply inv_steps; [exact Hinv1 | done].
    + by rewrite Hsk2.
    + rewrite Hn2. simpl. lia.
    + exists st'. split; [| done].
      eapply rtc_l; [exact Hs1 |]. by etrans.
Qed.

Lemma can_return st :
  inv st -> done_ctx st = false ->
  exists st', rtc step st st' /\ returned st'.
Proof.
  intros Hinv Hlive.
  destruct (drain (length (running st)) st Hinv) as
    (st1 & Hrtc & Hrun & Hn & Hsk & Hd); [done |].
  pose proof (inv_steps _ _ Hinv Hrtc) as Hinv1.
  assert (skipped st1 = []) as Hskip.
  { destruct (skipped st1) eqn:Hs; [done |].
    pose proof (inv_skipped Hinv1) as Hc. rewrite Hs in Hc.
    rewrite Hd, Hlive in Hc. by discriminate Hc. }
  destruct (finish_loop (length urlResults - next st1) st1)
    as (st' & Hrtc' & Hret); try done.
  { pose proof (inv_next Hinv1). lia. }
  exists st'. split; [by etrans | done].
Qed.

(** While the context is live the pool is never stuck before the
    return, and every step takes from the work left. *)
Lemma live_progress st :
  inv st -> done_ctx st = false ->
  returned st \/ exists st', step st st' /\ done_ctx st' = false.
Proof.
  intros Hinv Hlive.
  destruct (running st) as [| i l] eqn:Hrun.
  - destruct (decide (next st < length urlResults)) as [Hlt | Hge].
    + right. eexists. split.
      * apply Acquired; [done |]. rewrite Hrun. apply permits_positive.
      * exact Hlive.
    + left. split; [pose proof (inv_next Hinv); lia |].
      unfold wg. rewrite Hrun.
      destruct (skipped st) eqn:Hs; [done |].
      pose proof (inv_skipped Hinv) as Hc. rewrite Hs in Hc.
      rewrite Hlive in Hc. by discriminate Hc.
  - right.
    assert (Hi : i ∈ running st) by (rewrite Hrun; apply elem_of_cons; auto).
    assert (is_Some (urlResults !! i)) as [u Hu].
    { apply lookup_lt_is_Some_2. pose proof (inv_running Hinv i Hi).
      pose proof (inv_next Hinv). lia. }
    eexists. split.
    + exact (Finished E urlResults dir concurrency st i u 0 Hi Hu).
    + exact Hlive.
Qed.

Lemma live_step_decreases st st' :
  step st st' -> done_ctx st' = false ->
  pending urlResults st' < pending urlResults st.
Proof.
  intros Hstep Hlive. unfold pending.
  destruct Hstep as [st Hlt Hperm | st Hlt Hdone | st i u now Hi Hu | st];
    simpl in *.
  - rewrite length_app. simpl. lia.
  - congruence.
  - pose proof (filter_ne_shorter i (running st) Hi). lia.
  - discriminate Hlive.
Qed.

(** **** URLs saved apart *)

Lemma alone_start w cancelled :
  alone E urlResults dir w (start urlResults w cancelled).
Proof. split; simpl; [done | done | lia]. Qed.

Lemma alone_step w0 st st' :
  distinctPaths E urlResults dir ->
  inv st -> alone E urlResults dir w0 st -> step st st' ->
  alone E urlResults dir w0 st'.
Proof.
  intros Hd Hinv [Hun Hfiles Hslots] Hstep.
  destruct Hstep as [st Hlt Hperm | st Hlt Hdone | st i u now Hi Hu | st];
    split; simpl; try done.
  - intros j v now p Hv Hj Hp. apply (Hfiles j v now p Hv); [| done].
    destruct Hj as [[Hj | Hj%list_elem_of_singleton]%elem_of_app | Hj];
      [by left | right; lia | right; lia].
  - intros j v Hj Hv.
    destruct (decide (j = next st)) as [-> | Hne].
    + left. apply elem_of_app. right. by apply list_elem_of_singleton.
    + destruct (Hslots j v) as [? | [? | ?]]; [lia | done | | |]; auto.
      left. apply elem_of_app. by left.
  - intros j v now p Hv Hj Hp. apply (Hfiles j v now p Hv); [| done].
    destruct Hj as [Hj | Hj]; [by left | right; lia].
  - intros j v Hj Hv.
    destruct (decide (j = next st)) as [-> | Hne].
    + right. left. apply elem_of_app. right.
      by apply list_elem_of_singleton.
    + destruct (Hslots j v) as [? | [? | ?]]; [lia | done | | |]; auto.
      right. left. apply elem_of_app. by left.
  - by rewrite downloadResource_unreadable.
  - intros j v now' p Hv Hj Hp.
    assert (Hne : j <> i).
    { destruct Hj as [[Hne _]%list_elem_of_filter | Hj]; [done |].
      pose proof (inv_running Hinv i Hi). lia. }
    rewrite downloadResource_files_other.
    + apply (Hfiles j v now' p Hv); [| done].
      destruct Hj as [[_ Hj]%list_elem_of_filter | Hj]; [by left | by right].
    + by apply (Hd j i v u now' now p).
  - intros j v Hj Hv.
    destruct (decide (j = i)) as [-> | Hne].
    + right. right. exists now.
      assert (v = u) as -> by congruence.
      rewrite list_lookup_insert_eq
        by (rewrite (inv_length Hinv); by apply lookup_lt_Some in Hu).
      f_equal. apply downloadResource_path_same; [| done].
      intros p Hp. apply (Hfiles i u now p Hu); [by left | done].
    + destruct (Hslots j v) as [? | [? | (now' & Hw')]];
        [done | done | | |].
      * left. by apply list_elem_of_filter.
      * by right; left.
      * right. right. exists now'.
        by rewrite list_lookup_insert_ne.
Qed.

Lemma alone_steps w0 st st' :
  distinctPaths E urlResults dir ->
  inv st -> alone E urlResults dir w0 st -> rtc step st st' ->
  alone E urlResults dir w0 st'.
Proof.
  intros Hd Hinv Ha Hrun. revert Hinv Ha.
  induction Hrun as [| st st1 st2 Hstep _ IH]; [done |].
  intros Hinv Ha. apply IH; [by eapply inv_step | by eapply alone_step].
Qed.

(** **** A failed acquisition *)

Lemma skipped_stays st st' :
  rtc step st st' -> skipped st <> [] -> skipped st' <> [].
Proof.
  induction 1 as [| st st1 st2 Hstep _ IH]; [done |]. intros Hs. apply IH.
  destruct Hstep; simpl; try done. by destruct (skipped st).
Qed.

(** When [Acquire] has failed once, [wg.Wait()] never returns: the counter
    was incremented for a worker that is never started. *)
Lemma failed_acquire_never_returns st st' :
  skipped st <> [] -> rtc step st st' -> ~ returned st'.
Proof.
  intros Hs Hrun [_ Hwg]. apply (skipped_stays _ _ Hrun) in Hs.
  unfold wg in Hwg. destruct (skipped st'); [done | simpl in Hwg; lia].
Qed.

(** **** A pool whose files are all there *)

Lemma present_world_unchanged w st st' :
  (forall u now, u ∈ urlResults ->
     exists p, outPathOf E now u dir = Some p /\ is_Some (files w !! p)) ->
  rtc step st st' -> outside st = w -> outside st' = w.
Proof.
  intros Hall. induction 1 as [| st st1 st2 Hstep _ IH]; [done |].
  intros Hw. apply IH. destruct Hstep as [| | st i u now Hi Hu |]; try done.
  simpl. destruct (Hall u now) as (p & Hp & Hfile).
  { by eapply list_elem_of_lookup_2. }
  rewrite Hw. by rewrite (downloadResource_present _ _ _ _ _ _ Hp Hfile).
Qed.

End PoolFacts.

(** *** Specified properties of the downloader *)

(** Once the downloads of a rule have replaced its value by an array of
    paths, there is nothing below the rule to download. *)
Lemma Below_paths E concurrency s r rule dir s' r' paths :
  r !! Name rule = Some (VStrs paths) ->
  Below E concurrency s r rule dir s' r' -> s' = s /\ r' = r.
Proof.
  intros Hr HB.
  destruct HB as [| s r rule dir results s' output _ Hres Hne
                  | | s r rule dir v s' p _ Hres]; try done.
  - unfold GetResultArray in Hres. rewrite Hr in Hres. by simplify_eq.
  - unfold GetResult in Hres. by rewrite Hr in Hres.
Qed.

Lemma Below_paths_exists E concurrency s r rule dir paths :
  r !! Name rule = Some (VStrs paths) ->
  Below E concurrency s r rule dir s r.
Proof.
  intros Hr. destruct (Multiple rule) eqn:Hm.
  - apply ManyNone; [done |]. unfold GetResultArray. by rewrite Hr.
  - apply OneNone; [done |]. unfold GetResult. by rewrite Hr.
Qed.

(** What a call on one rule with Download returns: the result it was
    called on with the value under the name of the rule replaced by an
    array of paths, one for each URL read from that value, each the path a
    download of its URL returned; when the URLs are saved apart, the path
    a download of its URL returns in the world of the call. *)
Lemma DownloadResults_paths
    (E : Env) (concurrency : Z) (baseDir : string)
    (r : gmap string value) (rule : ExtractionRule) s s' r' :
  Download rule = true ->
  DownloadResults E concurrency s r [rule] baseDir s' r' ->
  let urlResults := GetResultStringArray r (Name rule) in
  exists paths f,
    let dir := dirOf E f baseDir rule in
    r' = <[Name rule := VStrs paths]> r
    /\ length paths = length urlResults
    /\ (forall i u,
          urlResults !! i = Some u ->
          exists now w_i,
            paths !! i = Some (downloadResource E now w_i u dir).2.1)
    /\ (distinctPaths E urlResults dir ->
        forall i u,
          urlResults !! i = Some u ->
          exists now,
            paths !! i = Some (downloadResource E now s.1 u dir).2.1).
Proof.
  intros Hd Hcall urlResults.
  inversion Hcall as [| ? ? ? ? ? ? ? Hno | ? ? ? ? ? f s1 r1 s2 r2 ? ? _
                                             Hdown Hbelow Hrest];
    subst; [congruence |].
  rewrite Hd in Hdown.
  destruct Hdown as (st & Hrun & [Hnext Hwg] & -> & ->).
  fold urlResults in Hrun, Hnext.
  apply (Below_paths _ _ _ _ _ _ _ _ (downloadList st)) in Hbelow as [-> ->];
    [| apply lookup_insert_eq].
  inversion Hrest; subst.
  pose proof (inv_start E urlResults (dirOf E f baseDir rule) concurrency
                s.1 s.2) as Hinv0.
  pose proof (inv_steps E urlResults _ concurrency _ _ Hinv0 Hrun) as Hinv.
  unfold wg in Hwg.
  destruct (running st) eqn:Hr; [| simpl in Hwg; lia].
  destruct (skipped st) eqn:Hs; [| simpl in Hwg; lia].
  exists (downloadList st), f. cbv zeta.
  split; [done |]. split; [apply (inv_length Hinv) |]. split.
  - intros i u Hu.
    destruct (inv_slots Hinv i u) as [Hi | [Hi | Hi]]; try done.
    + rewrite Hnext. by apply lookup_lt_Some in Hu.
    + rewrite Hr in Hi. by apply elem_of_nil in Hi.
    + rewrite Hs in Hi. by apply elem_of_nil in Hi.
  - intros Hapart i u Hu.
    pose proof (alone_steps E urlResults _ concurrency s.1 _ _ Hapart Hinv0
                  (alone_start E urlResults _ s.1 s.2) Hrun) as Hal.
    destruct (alone_slots Hal i u) as [Hi | [Hi | Hi]]; try done.
    + rewrite Hnext. by apply lookup_lt_Some in Hu.
    + rewrite Hr in Hi. by apply elem_of_nil in Hi.
    + rewrite Hs in Hi. by apply elem_of_nil in Hi.
Qed.


Lemma sampleRun_steps :
  rtc (step Sample.net sampleUrls "out" 2)
      (start sampleUrls emptyWorld false) sampleRun.
Proof.
  eapply rtc_l; [apply Acquired; unfold permits; simpl; lia |].
  eapply rtc_l; [apply Acquired; unfold permits; simpl; lia |].
  eapply rtc_l.
  { apply (Finished _ _ _ _ _ 1 "http://e.com/b.png" 0);
      [simpl; repeat first [apply list_elem_of_here
                           | apply list_elem_of_further]
      | reflexivity]. }
  eapply rtc_l.
  { apply (Finished _ _ _ _ _ 0 "http://e.com/a.png" 0);
      [simpl; repeat first [apply list_elem_of_here
                           | apply list_elem_of_further]
      | reflexivity]. }
  apply rtc_refl.
Defined.

Lemma sampleCall :
  DownloadResults Sample.net 2 (emptyWorld, false) sampleResult [pictures] ""
    ((outside sampleRun, false))
    (<["images" := VStrs ["out/a.png"; ""]]> sampleResult).
Proof.
  eapply (Rule _ _ _ _ _ _ _
            {| uuid := ""; hex := ""; base64 := ""; unix := 0 |});
    [by left | | | apply NoRule].
  - exists sampleRun. split; [exact sampleRun_steps |].
    split; [split; reflexivity |]. split; reflexivity.
  - apply OneNone; reflexivity.
Defined.

(** The two sample URLs are saved under different paths. *)
Lemma sampleUrls_apart : distinctPaths Sample.net sampleUrls "out".
Proof.
  intros i j u v now now' p Hij Hu Hv Hp Hq.
  destruct i as [| [| i]]; destruct j as [| [| j]]; try done;
    simplify_eq/=; vm_compute in Hp; vm_compute in Hq; congruence.
Qed.



(** Two URLs saved under one path: what the second returns depends on
    whether the first, which succeeds, has completed. *)
Lemma shared_path_depends_on_order :
  let urls := ["http://e.com/a.png"; "http://f.com/a.png"] in
  exists st1 st2,
    rtc (step Sample.net urls "out" 2) (start urls emptyWorld false) st1
    /\ returned urls st1
    /\ downloadList st1 = ["out/a.png"; "out/a.png"]
    /\ rtc (step Sample.net urls "out" 2) (start urls emptyWorld false) st2
    /\ returned urls st2
    /\ downloadList st2 = ["out/a.png"; ""].
Proof.
  cbv zeta.
  exists {| next := 2; running := []; skipped := [];
            downloadList := ["out/a.png"; "out/a.png"];
            outside := sampleWorld; done_ctx := false |},
         {| next := 2; running := []; skipped := [];
            downloadList := ["out/a.png"; ""];
            outside :=
              {| files := {[ "out/a.png" := "PNG" ]}; unreadable := ∅;
                 log := [HttpGet "http://f.com/a.png";
                         HttpGet "http://e.com/a.png"; MkdirAll "out";
                         Create "out/a.png"; Copy "out/a.png"] |};
            done_ctx := false |}.
  split; [| split; [| split; [| split; [| split]]]].
  - eapply rtc_l; [apply Acquired; unfold permits; simpl; lia |].
    eapply rtc_l; [apply Acquired; unfold permits; simpl; lia |].
    eapply rtc_l.
    { apply (Finished _ _ _ _ _ 0 "http://e.com/a.png" 0);
        [simpl; apply list_elem_of_here | reflexivity]. }
    eapply rtc_l.
    { apply (Finished _ _ _ _ _ 1 "http://f.com/a.png" 0);
        [simpl; apply list_elem_of_here | reflexivity]. }
    apply rtc_refl.
  - split; reflexivity.
  - reflexivity.
  - eapply rtc_l; [apply Acquired; unfold permits; simpl; lia |].
    eapply rtc_l; [apply Acquired; unfold permits; simpl; lia |].
    eapply rtc_l.
    { apply (Finished _ _ _ _ _ 1 "http://f.com/a.png" 0);
        [simpl; apply list_elem_of_further, list_elem_of_here
        | reflexivity]. }
    eapply rtc_l.
    { apply (Finished _ _ _ _ _ 0 "http://e.com/a.png" 0);
        [simpl; apply list_elem_of_here | reflexivity]. }
    apply rtc_refl.
  - split; reflexivity.
  - reflexivity.
Qed.

(** When what a download returns depends on its URL alone, every run
    returns the same array, whatever the order of the completions. *)
Lemma DownloadResults_order_independent
    (E : Env) (urlResults : list string) (dir : string) (concurrency : Z)
    (path : string -> string) w cancelled st :
  (forall now w_i u, (downloadResource E now w_i u dir).2.1 = path u) ->
  rtc (step E urlResults dir concurrency) (start urlResults w cancelled) st ->
  returned urlResults st ->
  downloadList st = map path urlResults.
Proof.
  intros Hpath Hrun [Hnext Hwg].
  pose proof (inv_start E urlResults dir concurrency w cancelled) as Hinv.
  apply (fun H => inv_steps E urlResults _ concurrency _ _ H Hrun) in Hinv.
  apply list_eq. intros i. rewrite list_lookup_fmap.
  destruct (urlResults !! i) as [u|] eqn:Hu; simpl.
  - unfold wg in Hwg.
    destruct (running st) eqn:Hr; [| simpl in Hwg; lia].
    destruct (skipped st) eqn:Hs; [| simpl in Hwg; lia].
    destruct (inv_slots Hinv i u) as [Hi | [Hi | (now & w_i & Hi)]];
      try done.
    + rewrite Hnext. by apply lookup_lt_Some in Hu.
    + rewrite Hr in Hi. by apply elem_of_nil in Hi.
    + rewrite Hs in Hi. by apply elem_of_nil in Hi.
    + by rewrite Hi, Hpath.
  - apply lookup_ge_None. rewrite (inv_length Hinv).
    by apply lookup_ge_None in Hu.
Qed.

(** C10. When the path computed for a URL is that of an existing file,
    [downloadResource] returns that path with no error and leaves the
    world as it was: no request is made and no file is written. A pool
    all of whose URLs are in that case leaves the world as it was, in
    every run. *)
Theorem downloadResource_skips_existing_file (E : Env) (w : world) :
  (forall now rawURL saveDir outPath,
      outPathOf E now rawURL saveDir = Some outPath ->
      is_Some (files w !! outPath) ->
      downloadResource E now w rawURL saveDir = (w, (outPath, None)))
  /\ (forall urlResults dir concurrency cancelled st,
        (forall u now, u ∈ urlResults ->
           exists p,
             outPathOf E now u dir = Some p /\ is_Some (files w !! p)) ->
        rtc (step E urlResults dir concurrency)
            (start urlResults w cancelled) st ->
        outside st = w).
Proof.
  split.
  - intros now rawURL saveDir outPath. apply downloadResource_present.
  - intros urlResults dir concurrency cancelled st Hall Hrun.
    by eapply present_world_unchanged.
Qed.

Lemma sampleRerun_steps :
  rtc (step Sample.net ["http://e.com/a.png"] "out" 1)
      (start ["http://e.com/a.png"] sampleWorld false) sampleRerun.
Proof.
  eapply rtc_l; [apply Acquired; unfold permits; simpl; lia |].
  eapply rtc_l.
  { apply (Finished _ _ _ _ _ 0 "http://e.com/a.png" 0);
      [simpl; apply list_elem_of_here | reflexivity]. }
  apply rtc_refl.
Defined.

Lemma downloadResource_skips_existing_file_witness :
  downloadResource Sample.net 7 sampleWorld "http://e.com/a.png" "out"
  = (sampleWorld, ("out/a.png", None))
  /\ outside sampleRerun = sampleWorld.
Proof.
  destruct (downloadResource_skips_existing_file Sample.net sampleWorld)
    as [Hone Hall].
  split.
  - apply (Hone 7%Z "http://e.com/a.png" "out" "out/a.png");
      [reflexivity | by exists "PNG"].
  - apply (Hall ["http://e.com/a.png"] "out" 1%Z false sampleRerun);
      [| exact sampleRerun_steps].
    intros u now Hu. apply list_elem_of_singleton in Hu as ->.
    exists "out/a.png". split; [reflexivity | by exists "PNG"].
Defined.

End DownloadFacts.

(** ** What evaluation and remapping write to their arguments *)

Module WriteFacts.
Import Extract Mapper ExtractFacts MapperFacts Sample.

(** C5, as the code has it. The evaluator and the remapper write to their
    arguments, and the writes are normalisations. A call of [applyRule]
    returns, and leaves the rule with the default Transforms when they were
    empty, with its children as the calls made on them leave them, and with
    every other field as before; its result is that of the evaluation of
    the rule as it was, and a second call on the rule as the first one left
    it changes nothing more and returns the same result. After
    [remapSingleObject] every directive it was given has its Key with each
    opening bracket turned into a dot and each closing bracket removed, and
    an empty map for a nil Format; a second normalisation changes nothing
    more. *)
Theorem evaluation_normalises_its_arguments
    (W : Extract.Collab) (G : Mapper.Collab) :
  (forall base sel rule,
      exists rule',
        applyRuleInPlace W (height rule) base sel rule
        = Some (rule', applyRule W base sel rule)
        /\ Transforms rule'
           = match Transforms rule with [] => defaultTransforms | t => t end
        /\ (Name rule', Selector rule', Attr rule', SaveDir rule')
           = (Name rule, Selector rule, Attr rule, SaveDir rule)
        /\ (Multiple rule', Download rule', Visit rule', Flatten rule')
           = (Multiple rule, Download rule, Visit rule, Flatten rule)
        /\ length (Children rule') = length (Children rule)
        /\ applyRuleInPlace W (height rule') base sel rule'
           = Some (rule', applyRule W base sel rule))
  /\ (forall obj rules index rules' m,
        remapSingleObject G obj rules index = Some (rules', m) ->
        rules' = map normalizeMapping rules
        /\ map normalizeMapping rules' = rules').
Proof.
  split.
  - intros base sel rule. exists (ruleAfter W base [sel] rule).
    split; [by apply applyRuleInPlace_spec |].
    split; [rewrite ruleAfter_cons; apply enterRule_Transforms |].
    split; [by rewrite ruleAfter_cons |].
    split; [by rewrite ruleAfter_cons |].
    split; [rewrite ruleAfter_cons; apply length_map |].
    rewrite applyRuleInPlace_spec by done.
    by rewrite ruleAfter_idempotent, applyRule_ruleAfter.
  - intros obj rules index rules' m Hr.
    apply remapRules_rules in Hr as ->. split; [done |].
    rewrite map_map. apply map_ext. intros r.
    apply normalizeMapping_idempotent.
Qed.

Lemma evaluation_normalises_its_arguments_witness :
  let rules' :=
    [ {| Object := ""; Key := "a.0"; To := "id"; Format := Some ∅;
         IsArray := false; IsObject := false; ArrayObjMap := [] |} ] in
  rules' = map normalizeMapping [directive "a[0]" "id" false]
  /\ map normalizeMapping rules' = rules'.
Proof.
  destruct (evaluation_normalises_its_arguments Sample.web Sample.gjson)
    as [_ H].
  exact (H (Some (VStr "1")) [directive "a[0]" "id" false] 0%Z _ ∅ eq_refl).
Defined.

(** C5, as the specification has it, fails: the Transforms of a rule, and
    the Key and the Format of a nested directive, are not the same after the
    call as before. *)
Lemma evaluation_writes_to_its_arguments :
  let rule := leaf "items" "li" "data-id" true in
  (exists after,
      applyRuleInPlace Sample.web 1 "http://e.com" page rule
      = Some (after, Ok (VArr [VStr "1"; VStr "2"]))
      /\ Transforms rule = []
      /\ Transforms after
         = [ {| Match := "^//"; Split := false; Replace := "https://" |} ]
      /\ after <> rule)
  /\ exists after out,
       MapResultsResults Sample.gjson items [perItem] = Returns [after] out
       /\ (Key <$> ArrayObjMap after) = ["a.0"]
       /\ (Format <$> ArrayObjMap after) = [Some ∅]
       /\ (Key <$> ArrayObjMap perItem) = ["a[0]"]
       /\ (Format <$> ArrayObjMap perItem) = [None]
       /\ after <> perItem.
Proof.
  split.
  - eexists. split; [reflexivity |]. split; [reflexivity |].
    split; [reflexivity | discriminate].
  - eexists _, _. split; [reflexivity |].
    repeat (split; [reflexivity |]). discriminate.
Qed.

End WriteFacts.

(** ** Decimal numerals *)

Module ItoaFacts.
Import Mapper Extract Digits.

Lemma digits_of_uint d acc :
  digits_to_Z (Z.pos acc) (NilEmpty.string_of_uint d)
  = Z.pos (Pos.of_uint_acc d acc).
Proof.
  revert acc. induction d; intros acc; cbn [NilEmpty.string_of_uint
    digits_to_Z Pos.of_uint_acc]; try done;
    rewrite <- IHd; f_equal;
    match goal with
    | |- context [digit_val ?c] =>
        let v := eval vm_compute in (digit_val c) in
        change (digit_val c) with v
    end; lia.
Qed.

Lemma digits_of_uint_0 d :
  digits_to_Z 0 (NilEmpty.string_of_uint d) = Z.of_N (Pos.of_uint d).
Proof.
  induction d; cbn [NilEmpty.string_of_uint digits_to_Z Pos.of_uint Z.of_N];
    try done; by rewrite <- digits_of_uint.
Qed.

Lemma all_digits_of_uint d : all_digits (NilEmpty.string_of_uint d) = true.
Proof. induction d; simpl; done. Qed.

Lemma string_of_uint_nonempty d :
  d <> Decimal.Nil -> NilEmpty.string_of_uint d <> "".
Proof. by destruct d. Qed.

(** [strconv.Itoa] of a number that is not negative is a string of
    digits, not empty, that reads back as the number. *)
Lemma Itoa_digits n :
  (0 <= n)%Z ->
  all_digits (Itoa n) = true /\ Itoa n <> ""
  /\ digits_to_Z 0 (Itoa n) = n.
Proof.
  intros Hn. unfold Itoa. destruct n as [| p | p]; [done | | lia].
  cbn [Z.to_int NilZero.string_of_int]. unfold NilZero.string_of_uint.
  pose proof (DecimalPos.Unsigned.to_uint_nonnil p) as Hnil.
  destruct (Pos.to_uint p) eqn:Hp; [done | ..];
    rewrite <- Hp; (split; [apply all_digits_of_uint |]);
    (split; [apply string_of_uint_nonempty; by rewrite Hp |]);
    by rewrite digits_of_uint_0, DecimalPos.Unsigned.of_to.
Qed.

End ItoaFacts.

(** ** More on the path remapper *)

Module MapperMore.
Import Mapper MapperFacts Digits ItoaFacts.

(** *** Keys with an index *)

Lemma all_digits_occurs c s :
  is_digit c = false -> all_digits s = true -> Strings.occurs c s = false.
Proof.
  intros Hc. induction s as [| c' s IH]; [done |]. simpl.
  intros [Hd Hs]%andb_true_iff. rewrite (IH Hs), orb_false_r.
  destruct (Ascii.eqb_spec c' c) as [-> |]; [congruence | done].
Qed.

Lemma take_digits_app ds c rest :
  all_digits ds = true -> is_digit c = false ->
  take_digits (ds +:+ String c rest) = (ds, String c rest).
Proof.
  intros Hds Hc. induction ds as [| d ds IH]; simpl.
  - by rewrite Hc.
  - simpl in Hds. apply andb_true_iff in Hds as [-> Hds]. by rewrite IH.
Qed.

Lemma match_index_at_group ds post :
  all_digits ds = true -> ds <> "" ->
  match_index_at ("[" +:+ ds +:+ "]" +:+ post) = Some (ds, post).
Proof.
  intros Hds Hne.
  change ("[" +:+ ds +:+ "]" +:+ post)
    with (String "[" (ds +:+ String "]" post)).
  unfold match_index_at. rewrite take_digits_app by done. by destruct ds.
Qed.

Lemma match_index_at_other c s :
  c <> "["%char -> match_index_at (String c s) = None.
Proof.
  intros Hc. unfold match_index_at.
  destruct c as [[] [] [] [] [] [] [] []]; try done.
Qed.

Lemma find_index_digits_group name ds post :
  Strings.occurs "[" name = false -> all_digits ds = true -> ds <> "" ->
  find_index_digits (name +:+ "[" +:+ ds +:+ "]" +:+ post) = Some ds.
Proof.
  intros Hname Hds Hne. induction name as [| c name IH].
  - change ("" +:+ ?s) with s.
    destruct ("[" +:+ ds +:+ "]" +:+ post) eqn:E; [done |].
    cbn [find_index_digits]. rewrite <- E.
    by rewrite match_index_at_group.
  - simpl in Hname. apply orb_false_elim in Hname as [Hc Hname].
    change (String c name +:+ ?s) with (String c (name +:+ s)).
    cbn [find_index_digits]. rewrite match_index_at_other; [by apply IH |].
    intros ->. by rewrite Ascii.eqb_refl in Hc.
Qed.

Lemma strip_index_skip s : forall k,
  String.length s <= k -> strip_index k s = "".
Proof.
  induction s as [| c s IH]; intros k Hk; [done |]. simpl in *.
  destruct k as [| k]; [lia |]. apply IH. lia.
Qed.

Lemma strip_index_group name ds :
  Strings.occurs "[" name = false -> all_digits ds = true -> ds <> "" ->
  strip_index 0 (name +:+ "[" +:+ ds +:+ "]") = name.
Proof.
  intros Hname Hds Hne. induction name as [| c name IH].
  - change ("" +:+ ?s) with s.
    change ("[" +:+ ds +:+ "]") with (String "[" (ds +:+ "]")).
    cbn [strip_index].
    change (String "[" (ds +:+ "]")) with ("[" +:+ ds +:+ "]" +:+ "").
    rewrite match_index_at_group by done.
    apply strip_index_skip. rewrite DownloadFacts.length_append. simpl. lia.
  - simpl in Hname. apply orb_false_elim in Hname as [Hc Hname].
    change (String c name +:+ ?s) with (String c (name +:+ s)).
    cbn [strip_index]. rewrite match_index_at_other.
    + f_equal. by apply IH.
    + intros ->. by rewrite Ascii.eqb_refl in Hc.
Qed.

Lemma Split_absent sep s :
  Strings.occurs sep s = false -> Strings.Split sep s = [s].
Proof.
  induction s as [| c s IH]; [done |]. simpl.
  intros [-> Hs]%orb_false_elim. by rewrite IH.
Qed.


Lemma take_digits_digits s : all_digits (take_digits s).1 = true.
Proof.
  induction s as [| c s IH]; [done |]. simpl.
  destruct (is_digit c) eqn:Hc; [| done].
  destruct (take_digits s) as [d r]. simpl in *. by rewrite Hc.
Qed.

Lemma find_index_digits_digits s ds :
  find_index_digits s = Some ds -> all_digits ds = true.
Proof.
  induction s as [| c s IH]; cbn [find_index_digits].
  - done.
  - destruct (match_index_at (String c s)) as [[ds' r]|] eqn:Hm; [| done].
    intros [= <-]. unfold match_index_at in Hm.
    destruct c as [[] [] [] [] [] [] [] []]; try done.
    pose proof (take_digits_digits s) as Hd.
    destruct (take_digits s) as [[| d ds1] [| c2 r2]]; try done.
    destruct c2 as [[] [] [] [] [] [] [] []]; try done.
    by injection Hm as <- _.
Qed.

Lemma digits_to_Z_nonneg ds : forall acc,
  all_digits ds = true -> (0 <= acc)%Z -> (0 <= digits_to_Z acc ds)%Z.
Proof.
  induction ds as [| c ds IH]; intros acc Hds Hacc; [done |].
  simpl in *. apply andb_true_iff in Hds as [Hc Hds]. apply IH; [done |].
  unfold is_digit in Hc. apply andb_true_iff in Hc as [Hlo _].
  apply Nat.leb_le in Hlo. unfold digit_val. lia.
Qed.

Lemma extractNumberFromBrackets_nonneg key n :
  extractNumberFromBrackets key = Some n -> (0 <= n)%Z.
Proof.
  unfold extractNumberFromBrackets, Atoi.
  destruct (find_index_digits key) as [ds|] eqn:Hds; [| done].
  destruct (_ <=? _)%Z; [| done]. intros [= <-].
  apply digits_to_Z_nonneg; [by eapply find_index_digits_digits | done].
Qed.

Lemma extractNumberFromBrackets_group name (n : nat) :
  Strings.occurs "[" name = false ->
  (Z.of_nat n <= MaxInt)%Z ->
  extractNumberFromBrackets
    (name +:+ "[" +:+ Extract.Itoa (Z.of_nat n) +:+ "]")
  = Some (Z.of_nat n).
Proof.
  intros Hname Hmax.
  destruct (Itoa_digits (Z.of_nat n)) as (Hds & Hne & Hval); [lia |].
  unfold extractNumberFromBrackets.
  change (name +:+ "[" +:+ Extract.Itoa (Z.of_nat n) +:+ "]")
    with (name +:+ "[" +:+ Extract.Itoa (Z.of_nat n) +:+ "]" +:+ "").
  rewrite find_index_digits_group by done.
  unfold Atoi. rewrite Hval.
  by destruct (Z.leb_spec (Z.of_nat n) MaxInt); [| lia].
Qed.

(** *** What one assignment changes *)

Lemma walk_frame keys m v m' st k :
  keys <> [] ->
  walk keys m v = (m', st) ->
  k <> hd "" (leafPath keys v) ->
  m' !! k = m !! k.
Proof.
  intros Hne. destruct keys as [| k0 [| k2 rest]]; [done | |].
  - rewrite walk_last. unfold assignLast, leafPath, leafKey, hd.
    intros H Hk.
    destruct v; try (injection H as <- _; by rewrite lookup_insert_ne).
    destruct (extractNumberFromBrackets k0) as [n|];
      [| injection H as <- _; by rewrite lookup_insert_ne].
    destruct (Z.of_nat (length l) <? n)%Z;
      [injection H as <- _; by rewrite lookup_insert_ne |].
    destruct (l !! Z.to_nat n); injection H as <- _; [| done].
    by rewrite lookup_insert_ne.
  - rewrite walk_step.
    change (hd "" (leafPath (k0 :: k2 :: rest) v)) with k0.
    intros H Hk. destruct (m !! k0) as [[]|] eqn:Hk0;
      try (by injection H as <- _).
    + destruct (walk (k2 :: rest) m0 v) as [next' st'].
      injection H as <- _. by rewrite lookup_insert_ne.
    + destruct (walk (k2 :: rest) ∅ v) as [newMap st'].
      injection H as <- _. by rewrite lookup_insert_ne.
Qed.

Lemma walk_out_of_range keys :
  forall m v m',
    walk keys m v = (m', IndexOutOfRange) ->
    exists l key,
      v = VArr l /\ last keys = Some key
      /\ extractNumberFromBrackets key = Some (Z.of_nat (length l)).
Proof.
  induction keys as [| k rest IH]; intros m v m'; [done |].
  destruct rest as [| k2 rest].
  - rewrite walk_last. unfold assignLast. intros H.
    destruct v; try done.
    destruct (extractNumberFromBrackets k) as [n|] eqn:Hn; [| done].
    destruct (Z.ltb_spec (Z.of_nat (length l)) n) as [| Hle]; [done |].
    destruct (l !! Z.to_nat n) eqn:Hl; [done |].
    apply lookup_ge_None in Hl.
    apply extractNumberFromBrackets_nonneg in Hn as Hpos.
    exists l, k. split; [done |]. split; [done |].
    rewrite Hn. f_equal. lia.
  - rewrite walk_step. intros H.
    destruct (m !! k) as [[]|] eqn:Hk; try done.
    + destruct (walk (k2 :: rest) m0 v) as [next' st] eqn:Hw.
      injection H as _ ->. destruct (IH _ _ _ Hw) as (l & key & ? & ? & ?).
      by exists l, key.
    + destruct (walk (k2 :: rest) ∅ v) as [newMap st] eqn:Hw.
      injection H as _ ->. destruct (IH _ _ _ Hw) as (l & key & ? & ? & ?).
      by exists l, key.
Qed.

(** *** The directives that reach the output *)

Section Root.
Context (W : Collab).

Lemma applyMappings_root data ds :
  forall st ds' st' st0,
    applyMappings W data st ds = Some (ds', st') ->
    remappedData st0 = remappedData st ->
    exists ds'' st0',
      applyMappings W data st0 (filter (fun d => Object d = "") ds)
      = Some (ds'', st0')
      /\ remappedData st0' = remappedData st'.
Proof.
  induction ds as [| d ds IH]; intros st ds' st' st0.
  - intros [= _ <-] Hroot. by exists [], st0.
  - cbn [applyMappings].
    destruct (applyMapping W data st d) as [[d' st1]|] eqn:Hd; [| done].
    destruct (applyMappings W data st1 ds) as [[rest' st2]|] eqn:Hrest;
      [| done].
    intros [= _ <-] Hroot. unfold applyMapping in Hd.
    destruct (directiveValue W data d) as [[d1 v]|] eqn:Hv; [| done].
    destruct (complexPathing _ _ _) as [m|] eqn:Hm; [| done].
    injection Hd as -> <-.
    unfold destination, setDestination in *.
    rewrite filter_cons. destruct (decide (Object d = "")) as [Hobj | Hobj].
    + rewrite Hobj in *. rewrite bool_decide_eq_true_2 in * by done.
      destruct (IH _ _ _ {| remappedData := m; objMap := objMap st0 |}
                  Hrest eq_refl) as (ds'' & st0' & Hrun & Heq).
      exists (d' :: ds''), st0'. split; [| done].
      cbn [applyMappings]. unfold applyMapping, destination, setDestination.
      rewrite Hv, Hobj. rewrite bool_decide_eq_true_2 by done.
      by rewrite Hroot, Hm, Hrun.
    + rewrite bool_decide_eq_false_2 in * by done.
      by apply (IH _ _ _ st0 Hrest).
Qed.

End Root.

(** *** Specified behaviour *)

(** X1. Assigning an array at a one-segment path [name[n]]: when [n] is
    below the length, element [n] is stored under [name]; when [n] is the
    length, the call panics; when [n] is above it, the whole array is
    stored under the key with its brackets. *)
Theorem complexPathing_indexed_key maps name (v : list value) (n : nat) :
  Strings.occurs "[" name = false ->
  Strings.occurs "." name = false ->
  (Z.of_nat n <= MaxInt)%Z ->
  let key := name +:+ "[" +:+ Extract.Itoa (Z.of_nat n) +:+ "]" in
  complexPathing maps key (VArr v)
  = match v !! n with
    | Some x => Some (<[name := x]> maps)
    | None =>
        if Nat.eqb n (length v) then None
        else Some (<[key := VArr v]> maps)
    end.
Proof.
  intros Hname Hdot Hmax key.
  destruct (Itoa_digits (Z.of_nat n)) as (Hds & Hne & Hval); [lia |].
  assert (Hsplit : Strings.Split "." key = [key]).
  { apply Split_absent. unfold key. rewrite !occurs_app, Hdot.
    by rewrite (all_digits_occurs "." _ eq_refl Hds). }
  unfold complexPathing. rewrite Hsplit, walk_last. unfold assignLast.
  unfold key at 1. rewrite extractNumberFromBrackets_group by done.
  rewrite Nat2Z.id.
  destruct (v !! n) as [x|] eqn:Hx.
  - apply lookup_lt_Some in Hx.
    destruct (Z.ltb_spec (Z.of_nat (length v)) (Z.of_nat n)); [lia |].
    unfold key. by rewrite strip_index_group.
  - apply lookup_ge_None in Hx.
    destruct (Nat.eqb_spec n (length v)) as [-> | Hneq].
    + by rewrite Z.ltb_irrefl.
    + by destruct (Z.ltb_spec (Z.of_nat (length v)) (Z.of_nat n)); [| lia].
Qed.

Lemma complexPathing_indexed_key_witness :
  complexPathing ∅ "b[1]" (VArr [VStr "x"; VStr "y"])
  = Some {[ "b" := VStr "y" ]}.
Proof.
  refine (complexPathing_indexed_key ∅ "b" [VStr "x"; VStr "y"] 1
            eq_refl eq_refl _).
  unfold MaxInt. lia.
Defined.

(** X2. An assignment changes the map it is given under one key at most:
    the first segment of the path (for a path of one segment that ends in
    a valid index, that segment without the index). *)
Theorem complexPathing_changes_one_entry maps path v m' :
  complexPathing maps path v = Some m' ->
  forall k,
    k <> hd "" (leafPath (Strings.Split "." path) v) ->
    m' !! k = maps !! k.
Proof.
  unfold complexPathing. intros H k Hk.
  destruct (walk (Strings.Split "." path) maps v) as [m1 st] eqn:Hw.
  assert (m1 = m') as -> by (by destruct st; simplify_eq).
  eapply walk_frame; [apply Split_nonempty | done | done].
Qed.

Lemma complexPathing_changes_one_entry_witness :
  ({[ "a" := VMap {[ "b" := VStr "x" ]}; "c" := VStr "kept" ]}
     : gmap string value) !! "c"
  = ({[ "c" := VStr "kept" ]} : gmap string value) !! "c".
Proof.
  refine (complexPathing_changes_one_entry {[ "c" := VStr "kept" ]} "a.b"
            (VStr "x") _ _ "c" _); [reflexivity | discriminate].
Defined.

(** X3. [complexPathing] panics in one case only: the value is an array
    and the last segment of the path carries the index equal to the length
    of the array. *)
Theorem complexPathing_panics_only_at_length maps path v :
  complexPathing maps path v = None ->
  exists l key,
    v = VArr l
    /\ last (Strings.Split "." path) = Some key
    /\ extractNumberFromBrackets key = Some (Z.of_nat (length l)).
Proof.
  unfold complexPathing. intros H.
  destruct (walk (Strings.Split "." path) maps v) as [m1 st] eqn:Hw.
  destruct st; try done. by eapply walk_out_of_range.
Qed.

Lemma complexPathing_panics_only_at_length_witness :
  exists l key,
    VArr [VStr "x"; VStr "y"] = VArr l
    /\ last (Strings.Split "." "a.b[2]") = Some key
    /\ extractNumberFromBrackets key = Some (Z.of_nat (length l)).
Proof.
  exact (complexPathing_panics_only_at_length ∅ "a.b[2]"
           (VArr [VStr "x"; VStr "y"]) eq_refl).
Defined.

(** X4. The map [MapResultsResults] returns is the one the directives
    with an empty Object build: the directives that name an Object write
    to a bucket that is not returned, and leaving them out gives the same
    map. *)
Theorem MapResultsResults_root_directives_only (W : Collab) result ds ds' m :
  MapResultsResults W result ds = Returns ds' m ->
  exists ds'',
    MapResultsResults W result (filter (fun d => Object d = "") ds)
    = Returns ds'' m.
Proof.
  unfold MapResultsResults.
  destruct (Marshal W result) as [data|]; [| done].
  destruct (applyMappings W data _ ds) as [[ds1 st]|] eqn:Hds; [| done].
  intros [= _ <-].
  destruct (applyMappings_root W data ds _ _ _
              {| remappedData := ∅; objMap := ∅ |} Hds eq_refl)
    as (ds'' & st0' & -> & <-).
  by exists ds''.
Qed.

Lemma MapResultsResults_root_directives_only_witness :
  exists ds'',
    MapResultsResults Sample.gjson Sample.items
      [Sample.directive "title" "t" false]
    = Returns ds'' {[ "t" := VStr "t" ]}.
Proof.
  exact (MapResultsResults_root_directives_only Sample.gjson Sample.items
           [ {| Object := "o"; Key := "items"; To := "x"; Format := None;
                IsArray := true; IsObject := false; ArrayObjMap := [] |};
             Sample.directive "title" "t" false ]
           _ _ eq_refl).
Defined.

End MapperMore.

(** ** Paths without an index *)

Module PlainPaths.
Import Mapper MapperFacts.

Lemma match_index_at_none s :
  Strings.occurs "[" s = false -> match_index_at s = None.
Proof.
  destruct s as [| c s]; [done |]. cbn [Strings.occurs].
  intros [Hc _]%orb_false_elim. apply MapperMore.match_index_at_other.
  intros ->. by rewrite Ascii.eqb_refl in Hc.
Qed.

Lemma find_index_digits_none s :
  Strings.occurs "[" s = false -> find_index_digits s = None.
Proof.
  induction s as [| c s IH]; [done |]. intros Hs.
  cbn [find_index_digits]. rewrite (match_index_at_none _ Hs).
  apply IH. cbn [Strings.occurs] in Hs.
  by apply orb_false_elim in Hs as [_ ?].
Qed.

Lemma Split_plain c path :
  Strings.occurs c path = false ->
  Forall (fun k => Strings.occurs c k = false) (Strings.Split "." path).
Proof.
  induction path as [| a path IH]; [by repeat constructor |].
  cbn [Strings.occurs Strings.Split].
  intros [Ha Hp]%orb_false_elim. specialize (IH Hp).
  destruct (Ascii.eqb a "."); [by constructor |].
  destruct (Strings.Split "." path) as [| h t].
  { constructor; [| constructor]. cbn [Strings.occurs]. by rewrite Ha. }
  apply Forall_cons in IH as [Hh Ht]. constructor; [| done].
  cbn [Strings.occurs]. by rewrite Ha, Hh.
Qed.

Lemma assignLast_plain m key v :
  Strings.occurs "[" key = false ->
  (assignLast m key v).2 = Stored.
Proof.
  intros Hk. unfold assignLast, extractNumberFromBrackets.
  rewrite (find_index_digits_none _ Hk). by destruct v.
Qed.

Lemma walk_plain keys :
  Forall (fun k => Strings.occurs "[" k = false) keys ->
  forall m v, (walk keys m v).2 <> IndexOutOfRange.
Proof.
  induction 1 as [| k rest Hk _ IH]; intros m v; [done |].
  destruct rest as [| k2 rest].
  - rewrite walk_last, assignLast_plain; done.
  - rewrite walk_step. destruct (m !! k) as [[]|]; try done.
    + specialize (IH m0 v). by destruct (walk (k2 :: rest) m0 v).
    + specialize (IH ∅ v). by destruct (walk (k2 :: rest) ∅ v).
Qed.

Lemma complexPathing_plain maps path v :
  Strings.occurs "[" path = false ->
  is_Some (complexPathing maps path v).
Proof.
  intros Hp. unfold complexPathing.
  pose proof (walk_plain _ (Split_plain "[" path Hp) maps v) as Hw.
  destruct (walk _ maps v) as [m []]; by eauto.
Qed.

Section Total.
Context (W : Collab).

Lemma remapRules_plain obj index rules :
  Forall (fun s => Strings.occurs "[" (To s) = false) rules ->
  forall remappedObj, is_Some (remapRules W obj index remappedObj rules).
Proof.
  induction 1 as [| rule rules Hrule _ IH]; intros remappedObj; [by eexists |].
  cbn [remapRules].
  assert (Hone : is_Some (remapRule W obj index remappedObj rule)).
  { unfold remapRule. cbn [normalizeMapping To Key Format].
    destruct (Exists W _); [| by eexists].
    match goal with |- context [complexPathing ?m ?p ?v] =>
      destruct (complexPathing_plain m p v Hrule) as [m' ->] end.
    by eexists. }
  destruct Hone as [[rule' m] ->].
  destruct (IH m) as [[rest' m'] ->]. by eexists.
Qed.

Lemma plain_normalized rules :
  Forall (fun s => Strings.occurs "[" (To s) = false) rules ->
  Forall (fun s => Strings.occurs "[" (To s) = false)
         (map normalizeMapping rules).
Proof. intros H. by apply Forall_map. Qed.

Lemma eachElement_plain elems :
  forall index subs arrayResult,
    Forall (fun s => Strings.occurs "[" (To s) = false) subs ->
    is_Some (eachElement W elems index subs arrayResult).
Proof.
  induction elems as [| v elems IH]; intros index subs arrayResult Hsubs;
    [by eexists |].
  cbn [eachElement]. destruct subs as [| sub subs]; [by apply IH |].
  destruct (remapRules_plain v index (sub :: subs) Hsubs ∅)
    as [[subs' nestedObj] Hr].
  unfold remapSingleObject. rewrite Hr. apply IH.
  apply remapRules_rules in Hr as ->. by apply plain_normalized.
Qed.

Lemma directiveValue_plain data d :
  Forall (fun s => Strings.occurs "[" (To s) = false) (ArrayObjMap d) ->
  exists d' v, directiveValue W data d = Some (d', v).
Proof.
  intros Hsubs. unfold directiveValue.
  destruct (_ || _); [| by eexists _, _].
  destruct (eachElement_plain (ForEach W (GetBytes W data (Key d))) 0
              (ArrayObjMap d) [] Hsubs) as [[subs' arrayResult] ->].
  by eexists _, _.
Qed.

Lemma applyMappings_plain data ds :
  Forall (fun d =>
            Strings.occurs "[" (To d) = false
            /\ Forall (fun s => Strings.occurs "[" (To s) = false)
                      (ArrayObjMap d)) ds ->
  forall st, is_Some (applyMappings W data st ds).
Proof.
  induction 1 as [| d ds [Hto Hsubs] _ IH]; intros st; [by eexists |].
  cbn [applyMappings]. unfold applyMapping.
  destruct (directiveValue_plain data d Hsubs) as (d' & v & ->).
  destruct (complexPathing_plain (destination st (Object d)) (To d) v Hto)
    as [m ->].
  destruct (IH (setDestination st (Object d) m)) as [[rest' st'] ->].
  by eexists.
Qed.

End Total.

(** X5. A remap whose destination paths carry no opening bracket, those
    of the nested directives included, never panics: it returns a map, or
    the error of [json.Marshal]. *)
Theorem MapResultsResults_plain_paths_never_panic (W : Collab) result ds :
  Forall (fun d =>
            Strings.occurs "[" (To d) = false
            /\ Forall (fun s => Strings.occurs "[" (To s) = false)
                      (ArrayObjMap d)) ds ->
  MapResultsResults W result ds <> Panics.
Proof.
  intros Hds. unfold MapResultsResults.
  destruct (Marshal W result) as [data|]; [| done].
  by destruct (applyMappings_plain W data ds Hds
                 {| remappedData := ∅; objMap := ∅ |}) as [[ds' st] ->].
Qed.

Lemma MapResultsResults_plain_paths_never_panic_witness :
  MapResultsResults Sample.gjson Sample.items
    [Sample.directive "items" "payload.ids" true; Sample.perItem]
  <> Panics.
Proof.
  apply (MapResultsResults_plain_paths_never_panic Sample.gjson Sample.items
           [Sample.directive "items" "payload.ids" true; Sample.perItem]).
  repeat constructor.
Defined.

End PlainPaths.

(** ** More on the evaluator and the pipeline *)

Module ExtractMore.
Import Extract ExtractFacts.

Section Results.
Context (W : Collab).

(** *** The keys of a record *)

Lemma evalChildren_dom base scope cs :
  forall rec,
    dom (evalChildren W base scope cs rec)
    = dom rec ∪ list_to_set (Name <$> cs).
Proof.
  induction cs as [| c cs IH]; intros rec.
  - simpl. set_solver.
  - rewrite evalChildren_cons, IH.
    destruct (applyRule_no_error W base scope c) as [v ->].
    rewrite dom_insert_L. simpl. set_solver.
Qed.

Lemma singleAttr_dom base s rule :
  dom (singleAttr W base s rule)
  = if Strings.is_empty (Attr rule) then ∅ else {[ Attr rule ]}.
Proof.
  unfold singleAttr. destruct (Strings.is_empty (Attr rule)); [set_solver |].
  cbn [negb]. destruct (_ && _); [destruct (Parse W base _) |];
    rewrite dom_insert_L; set_solver.
Qed.

(** *** The loop of [Scrape] *)

Lemma scrapeRules_dom base doc rules :
  forall root out,
    scrapeRules W base doc rules root = Ok out ->
    dom out = dom root ∪ list_to_set (Name <$> rules).
Proof.
  induction rules as [| rule rules IH]; intros root out; simpl.
  - intros [= <-]. set_solver.
  - destruct (applyRule W base doc rule) as [v|]; [| done].
    intros H%IH. rewrite H, dom_insert_L. set_solver.
Qed.

Lemma scrapeRules_other base doc rules k :
  forall root out,
    scrapeRules W base doc rules root = Ok out ->
    k ∉ Name <$> rules -> out !! k = root !! k.
Proof.
  induction rules as [| rule rules IH]; intros root out; simpl.
  - by intros [= <-].
  - destruct (applyRule W base doc rule) as [v|]; [| done].
    intros H Hk. apply not_elem_of_cons in Hk as [Hne Hk].
    rewrite (IH _ _ H Hk). by rewrite lookup_insert_ne.
Qed.

Lemma scrapeRules_last base doc before rule after :
  forall root out,
    scrapeRules W base doc (before ++ rule :: after) root = Ok out ->
    Name rule ∉ Name <$> after ->
    exists v, applyRule W base doc rule = Ok v /\ out !! Name rule = Some v.
Proof.
  induction before as [| b before IH]; intros root out; simpl.
  - destruct (applyRule W base doc rule) as [v|]; [| done].
    intros H Hk. exists v. split; [done |].
    rewrite (scrapeRules_other _ _ _ _ _ _ H Hk).
    by rewrite lookup_insert_eq.
  - destruct (applyRule W base doc b) as [v|]; [| done]. apply IH.
Qed.

End Results.

(** *** The pieces of a split *)

Section Pieces.
Context (W : Collab).

Lemma transformStep_pieces tr o ss :
  Forall piece o -> Forall piece (transformStep W (o, ss) tr).1.
Proof.
  intros Ho. unfold transformStep.
  destruct (Compile W (Match tr)) as [r|]; [| done].
  destruct (Split tr); [| done]. cbn [fst].
  apply Forall_app. split; [done |].
  apply Forall_fmap, Forall_forall. intros v Hv.
  apply list_elem_of_filter in Hv as [Hlen _].
  exists v. split; [done |]. destruct v; [simpl in Hlen; lia | done].
Qed.

Lemma foldl_pieces t : forall o ss,
  Forall piece o -> Forall piece (foldl (transformStep W) (o, ss) t).1.
Proof.
  induction t as [| tr t IH]; intros o ss Ho; [done |]. cbn [foldl].
  pose proof (transformStep_pieces tr o ss Ho) as H1.
  destruct (transformStep W (o, ss) tr) as [o1 ss1]. by apply IH.
Qed.

Lemma foldl_no_split t2 : forall o ss,
  Forall (fun tr => Split tr = false) t2 ->
  (foldl (transformStep W) (o, ss) t2).1 = o.
Proof. intros o ss Ht. by apply transformStep_no_split. Qed.

End Pieces.

(** *** Specified behaviour *)

(** X6. [Scrape] fails only when the page cannot be fetched or its URL
    does not parse. The result it returns has one entry for each name of
    a root rule and no other; under a name it holds the value of the last
    rule with that name, evaluated on the whole document. *)
Theorem Scrape_result_keys (W : Collab) pageURL rules :
  (forall e, Scrape W pageURL rules = Err e ->
     Fetch W pageURL = None \/ urlParse W pageURL = None)
  /\ (forall result,
        Scrape W pageURL rules = Ok result ->
        exists doc base,
          Fetch W pageURL = Some doc /\ urlParse W pageURL = Some base
          /\ dom result = list_to_set (Name <$> rules)
          /\ forall before rule after,
               rules = before ++ rule :: after ->
               Name rule ∉ Name <$> after ->
               exists v,
                 applyRule W base doc rule = Ok v
                 /\ result !! Name rule = Some v).
Proof.
  unfold Scrape. split.
  - intros e. destruct (Fetch W pageURL) as [doc|]; [| by left].
    destruct (urlParse W pageURL) as [base|]; [| by right].
    by destruct (scrapeRules_no_error W base doc rules ∅) as [out ->].
  - intros result.
    destruct (Fetch W pageURL) as [doc|]; [| done].
    destruct (urlParse W pageURL) as [base|]; [| done].
    intros H. exists doc, base. split; [done |]. split; [done |]. split.
    + rewrite (scrapeRules_dom W _ _ _ _ _ H). set_solver.
    + intros before rule after -> Hlast.
      by eapply scrapeRules_last.
Qed.

Lemma Scrape_result_keys_witness :
  exists doc base,
    Fetch Sample.web "http://e.com" = Some doc
    /\ urlParse Sample.web "http://e.com" = Some base
    /\ dom ({[ "items" := VArr [VStr "1"; VStr "2"] ]} : gmap string value)
       = list_to_set
           (Name <$> [Sample.leaf "items" "li" "" true;
                      Sample.leaf "items" "li" "data-id" true])
    /\ forall before rule after,
         [Sample.leaf "items" "li" "" true;
          Sample.leaf "items" "li" "data-id" true]
         = before ++ rule :: after ->
         Name rule ∉ Name <$> after ->
         exists v,
           applyRule Sample.web base doc rule = Ok v
           /\ ({[ "items" := VArr [VStr "1"; VStr "2"] ]}
                 : gmap string value) !! Name rule = Some v.
Proof.
  exact (proj2 (Scrape_result_keys Sample.web "http://e.com"
                  [Sample.leaf "items" "li" "" true;
                   Sample.leaf "items" "li" "data-id" true])
           _ eq_refl).
Defined.

(** X7. A rule with children and Multiple returns one record for each
    match of its selector, in the order of the document, and its
    Transforms leave the records as they are. *)
Theorem applyRule_one_record_per_match (W : Collab) base sel rule :
  Children rule <> [] -> Multiple rule = true ->
  applyRule W base sel rule
  = Ok (VArr (map (recordOf W base rule) (Find W sel (Selector rule)))).
Proof.
  intros Hcs Hm. rewrite applyRule_children_multiple by done.
  unfold recordOf at 1. by setoid_rewrite applyTransforms_records.
Qed.

Lemma applyRule_one_record_per_match_witness :
  applyRule Sample.web "http://e.com" Sample.page Sample.follow
  = Ok (VArr (map (recordOf Sample.web "http://e.com" Sample.follow)
                (Find Sample.web Sample.page "a"))).
Proof.
  apply (applyRule_one_record_per_match Sample.web "http://e.com"
           Sample.page Sample.follow); [discriminate | reflexivity].
Defined.

(** X8. The record of a match, for a rule that does not visit, and the
    record of a singular rule with children hold an entry for the Attr of
    the rule, when it has one, one entry for each name of a child, and
    nothing else: the evaluation of a child cannot fail, so no child is
    left out. *)
Theorem record_has_every_child (W : Collab) base rule :
  let keys : gset string :=
    (if Strings.is_empty (Attr rule) then ∅ else {[ Attr rule ]})
    ∪ list_to_set (Name <$> Children rule) in
  (Visit rule = false ->
   forall s, exists m,
     recordOf W base rule s = VRes m /\ dom m = keys)
  /\ (forall sel, dom (singleRecord W base sel rule) = keys).
Proof.
  intros keys. split.
  - intros Hv s. unfold recordOf. rewrite Hv, orb_false_r. cbn [negb].
    eexists. split; [done |]. rewrite evalChildren_dom. unfold keys.
    destruct (Strings.is_empty (Attr rule)); cbn [negb]; [set_solver |].
    destruct (_ && _); [destruct (Parse W base _) |];
      rewrite dom_insert_L; set_solver.
  - intros sel. unfold singleRecord.
    by rewrite evalChildren_dom, singleAttr_dom.
Qed.

Lemma record_has_every_child_witness :
  exists m,
    recordOf Sample.web "http://e.com"
      Sample.rows (Sample.Elem "li" [("data-id", "1")] "A" [])
    = VRes m
    /\ dom m = ({[ "data-id" ]} ∪ list_to_set ["label"] : gset string).
Proof.
  exact (proj1 (record_has_every_child Sample.web "http://e.com"
                  Sample.rows)
           eq_refl (Sample.Elem "li" [("data-id", "1")] "A" [])).
Defined.

(** X9. The Transform Pipeline never returns an empty list. On a string
    every value it returns is a string; and when it returns two values or
    more they are the pieces of a split, none of which is empty. *)
Theorem applyTransform_yields_strings (W : Collab) raw t :
  applyTransform W raw t <> []
  /\ (forall s, raw = VStr s ->
        Forall (fun v => exists s', v = VStr s') (applyTransform W raw t))
  /\ (2 <= length (applyTransform W raw t) ->
        Forall (fun v => exists s', v = VStr s' /\ s' <> "")
               (applyTransform W raw t)).
Proof.
  unfold applyTransform. destruct t as [| tr t].
  { split; [done |]. split; [| simpl; lia].
    intros s ->. repeat constructor. by exists s. }
  destruct (Strings.is_empty (safeString raw)) eqn:He.
  { split; [done |]. split; [| simpl; lia].
    intros s ->. repeat constructor. by exists s. }
  pose proof (foldl_pieces W (tr :: t) [] (safeString raw) (Forall_nil_2 _))
    as Hp.
  destruct (foldl _ _ _) as [[| v o] ss']; cbn [fst] in Hp.
  - split; [done |]. split; [| simpl; lia].
    intros s _. repeat constructor. by exists ss'.
  - split; [done |]. split; [| done].
    intros s _. eapply Forall_impl; [exact Hp |].
    intros x (s' & -> & _). by exists s'.
Qed.

Lemma applyTransform_yields_strings_witness :
  Forall (fun v => exists s', v = VStr s')
    (applyTransform Sample.web (VStr "x,y")
       [ {| Match := ","; Split := true; Replace := "" |} ])
  /\ Forall (fun v => exists s', v = VStr s' /\ s' <> "")
       (applyTransform Sample.web (VStr "x,y")
          [ {| Match := ","; Split := true; Replace := "" |} ]).
Proof.
  destruct (applyTransform_yields_strings Sample.web (VStr "x,y")
              [ {| Match := ","; Split := true; Replace := "" |} ])
    as (_ & H1 & H2).
  split; [exact (H1 "x,y" eq_refl) |]. apply H2. simpl. lia.
Defined.

(** X10. Once a pipeline returns two values or more, Replace transforms
    added after it change nothing: the pieces of a split are returned as
    they were cut, and what is replaced afterwards is lost. *)
Theorem applyTransform_replace_after_split (W : Collab) s t t2 :
  2 <= length (applyTransform W (VStr s) t) ->
  Forall (fun tr => Split tr = false) t2 ->
  applyTransform W (VStr s) (t ++ t2) = applyTransform W (VStr s) t.
Proof.
  intros Hlen Ht2. unfold applyTransform in *.
  destruct t as [| tr t]; [simpl in Hlen; lia |].
  cbn [app safeString] in *.
  destruct (Strings.is_empty s); [done |].
  change (tr :: t ++ t2) with ((tr :: t) ++ t2). rewrite foldl_app.
  destruct (foldl (transformStep W) ([], s) (tr :: t)) as [o ss'] eqn:Hf.
  destruct o as [| v o]; [simpl in Hlen; lia |].
  pose proof (foldl_no_split W t2 (v :: o) ss' Ht2) as Ho.
  destruct (foldl (transformStep W) (v :: o, ss') t2) as [o2 ss2].
  simpl in Ho. by subst o2.
Qed.

Lemma applyTransform_replace_after_split_witness :
  applyTransform Sample.web (VStr "x,y")
    ([ {| Match := ","; Split := true; Replace := "" |} ]
     ++ [ {| Match := "x"; Split := false; Replace := "z" |} ])
  = applyTransform Sample.web (VStr "x,y")
      [ {| Match := ","; Split := true; Replace := "" |} ].
Proof.
  apply (applyTransform_replace_after_split Sample.web "x,y"
           [ {| Match := ","; Split := true; Replace := "" |} ]
           [ {| Match := "x"; Split := false; Replace := "z" |} ]).
  - simpl. lia.
  - repeat constructor.
Defined.

End ExtractMore.

(** ** The progress counter *)

Module ProgressFacts.
Import Extract ExtractFacts Progress.

Lemma uint64_add_l a b : uint64 (uint64 a + b) = uint64 (a + b).
Proof. unfold uint64. apply Zplus_mod_idemp_l. Qed.

Lemma uint64_add_r a b : uint64 (a + uint64 b) = uint64 (a + b).
Proof. unfold uint64. apply Zplus_mod_idemp_r. Qed.

Lemma uint64_idem a : uint64 (uint64 a) = uint64 a.
Proof. unfold uint64. apply Zmod_mod. Qed.

Lemma uint64_in_range a : (0 <= a < 2 ^ 64)%Z -> uint64 a = a.
Proof. intros H. unfold uint64. by apply Z.mod_small. Qed.

Lemma uint64_range a : (0 <= uint64 a < 2 ^ 64)%Z.
Proof. unfold uint64. apply Z.mod_pos_bound. lia. Qed.

Section Counts.
Context (W : Collab) (B : Bars).

Lemma moved_refl (p : RuleProgress B) : moved 0 0 p p.
Proof.
  intros Hp. split; [done |]. destruct Hp as [Ht Hc].
  rewrite !Z.add_0_r, !uint64_in_range by done. repeat split.
  destruct (Update p); simpl; [f_equal; lia | done].
Qed.

Lemma moved_trans a b c d (p p1 p2 : RuleProgress B) :
  moved a b p p1 -> moved c d p1 p2 -> moved (a + c) (b + d) p p2.
Proof.
  intros H1 H2 Hp. destruct (H1 Hp) as (Hp1 & Ht1 & Hc1 & Hk1 & Hu1).
  destruct (H2 Hp1) as (Hp2 & Ht2 & Hc2 & Hk2 & Hu2).
  split; [done |]. repeat split.
  - rewrite Ht2, Ht1, uint64_add_l. f_equal. lia.
  - rewrite Hc2, Hc1, uint64_add_l. f_equal. lia.
  - congruence.
  - rewrite Hu2, Hu1. destruct (Update p); simpl; [f_equal; lia | done].
Qed.

Lemma moved_IncrementTotal (v : nat) (p : RuleProgress B) :
  moved v 0 p (IncrementTotal B (Z.of_nat v) p).
Proof.
  intros [Ht Hc]. unfold in_range, IncrementTotal.
  cbn [Total Current Concurrency Update].
  rewrite uint64_add_r, Z.add_0_r, (uint64_in_range (Current p)) by done.
  repeat split; try apply uint64_range; try tauto.
  destruct (Update p); simpl; [f_equal; lia | done].
Qed.

Lemma moved_Add (p : RuleProgress B) : moved 0 1 p (Add B 1 p).
Proof.
  intros [Ht Hc]. unfold in_range, Add.
  cbn [Total Current Concurrency Update].
  rewrite uint64_add_r, Z.add_0_r, (uint64_in_range (Total p)) by done.
  repeat split; try apply uint64_range; try tauto.
  destruct (Update p); simpl; [f_equal; lia | done].
Qed.

Lemma moved_eq a b a' b' (p p' : RuleProgress B) :
  a = a' -> b = b' -> moved a b p p' -> moved a' b' p p'.
Proof. by intros -> ->. Qed.

(** The branches of [applyRule]. *)
Lemma applyRule_branches base sel rule :
  Progress.applyRule W B base sel rule
  = match Children rule with
    | _ :: _ =>
        if Multiple rule then
          bind (method (IncrementTotal B
                          (Z.of_nat (length (Find W sel (Selector rule))))))
            (fun _ =>
               bind (eachMatch W B base rule (Find W sel (Selector rule)) [])
                 (fun records =>
                    pure (Ok (VArr (applyTransforms W records
                                      (Transforms (enterRule rule)))))))
        else
          bind (children W B base (First W (Find W sel (Selector rule)))
                  (Children rule)
                  (singleAttr W base (First W (Find W sel (Selector rule)))
                     rule))
            (fun rec => pure (Ok (VRes rec)))
    | [] => pure (Ok (leafResult W base sel rule))
    end.
Proof. destruct rule as [? ? ? ? ? ? ? ? [| c cs] ?]; reflexivity. Qed.

Lemma applyRule_leaf base sel rule :
  Children rule = [] ->
  Extract.applyRule W base sel rule = Ok (leafResult W base sel rule).
Proof.
  destruct rule as [? ? ? mult ? ? ? ? cs ?]. cbn [Children]. intros ->.
  unfold leafResult. simpl. destruct mult; [done |].
  by destruct (negb _).
Qed.

Lemma children_counts base scope cs :
  Forall (counts W B) cs ->
  forall rec (p : RuleProgress B),
    exists k p',
      children W B base scope cs rec (Some p)
      = Some (evalChildren W base scope cs rec, Some p')
      /\ moved k k p p'.
Proof.
  induction 1 as [| c cs Hc _ IH]; intros rec p.
  - exists 0, p. split; [done | apply moved_refl].
  - destruct (Hc base scope p) as (k1 & p1 & Hrun & Hm1).
    change (children W B base scope (c :: cs) rec)
      with (bind (Progress.applyRule W B base scope c)
              (fun res =>
                 children W B base scope cs
                   (match res with
                    | Ok v => <[Name c := v]> rec
                    | Err _ => rec
                    end))).
    unfold bind. rewrite Hrun, evalChildren_cons.
    destruct (IH (match Extract.applyRule W base scope c with
                  | Ok v => <[Name c := v]> rec
                  | Err _ => rec
                  end) p1) as (k2 & p2 & -> & Hm2).
    exists (k1 + k2), p2. split; [done |]. by eapply moved_trans.
Qed.

Lemma counted_counts base scope cs :
  Forall (counts W B) cs ->
  forall rec (p : RuleProgress B),
    exists k p',
      counted W B base scope cs rec (Some p)
      = Some (evalChildren W base scope cs rec, Some p')
      /\ moved k (k + length cs) p p'.
Proof.
  induction 1 as [| c cs Hc _ IH]; intros rec p.
  - exists 0, p. split; [done | apply moved_refl].
  - destruct (Hc base scope p) as (k1 & p1 & Hrun & Hm1).
    change (counted W B base scope (c :: cs) rec)
      with (bind (Progress.applyRule W B base scope c)
              (fun res =>
                 bind (method (Add B 1))
                   (fun _ =>
                      counted W B base scope cs
                        (match res with
                         | Ok v => <[Name c := v]> rec
                         | Err _ => rec
                         end)))).
    unfold bind at 1. rewrite Hrun, evalChildren_cons.
    unfold bind, method.
    destruct (IH (match Extract.applyRule W base scope c with
                  | Ok v => <[Name c := v]> rec
                  | Err _ => rec
                  end) (Add B 1 p1)) as (k2 & p2 & -> & Hm2).
    exists (k1 + k2), p2. split; [done |].
    eapply moved_eq;
      [| | exact (moved_trans _ _ _ _ _ _ _
                    (moved_trans _ _ _ _ _ _ _ Hm1 (moved_Add p1)) Hm2)];
      simpl; lia.
Qed.

Lemma record_counts base rule s :
  Forall (counts W B) (Children rule) ->
  forall p : RuleProgress B,
    exists k p',
      record W B base rule s (Some p)
      = Some (recordOf W base rule s, Some p')
      /\ moved k (S k) p p'.
Proof.
  intros Hcs p. unfold record, recordOf.
  set (rec0 := (∅ : gmap string value)).
  (* the attribute, and the children of a visited document *)
  assert (Hattr : exists k1 p1,
    (if negb (Strings.is_empty (Attr rule)) then
       if (Download rule || Visit rule)
          && negb (Strings.is_empty (AttrOf W s (Attr rule)))
       then
         match Parse W base (AttrOf W s (Attr rule)) with
         | Some u2 =>
             if Visit rule then
               match Fetch W u2 with
               | Some doc => children W B base doc (Children rule) rec0
               | None => pure (<[Attr rule := VStr u2]> rec0)
               end
             else pure (<[Attr rule := VStr u2]> rec0)
         | None => pure (<[Attr rule := VStr (AttrOf W s (Attr rule))]> rec0)
         end
       else pure (<[Attr rule := VStr (AttrOf W s (Attr rule))]> rec0)
     else pure rec0) (Some p)
    = Some
        ((if negb (Strings.is_empty (Attr rule)) then
            if (Download rule || Visit rule)
               && negb (Strings.is_empty (AttrOf W s (Attr rule)))
            then
              match Parse W base (AttrOf W s (Attr rule)) with
              | Some u2 =>
                  if Visit rule then
                    match Fetch W u2 with
                    | Some doc =>
                        evalChildren W base doc (Children rule) rec0
                    | None => <[Attr rule := VStr u2]> rec0
                    end
                  else <[Attr rule := VStr u2]> rec0
              | None => <[Attr rule := VStr (AttrOf W s (Attr rule))]> rec0
              end
            else <[Attr rule := VStr (AttrOf W s (Attr rule))]> rec0
          else rec0), Some p1)
    /\ moved k1 k1 p p1).
  { destruct (negb (Strings.is_empty (Attr rule)));
      [| exists 0, p; split; [done | apply moved_refl]].
    destruct (_ && _); [| exists 0, p; split; [done | apply moved_refl]].
    destruct (Parse W base _) as [u2|];
      [| exists 0, p; split; [done | apply moved_refl]].
    destruct (Visit rule); [| exists 0, p; split; [done | apply moved_refl]].
    destruct (Fetch W u2) as [doc|];
      [| exists 0, p; split; [done | apply moved_refl]].
    apply children_counts; done. }
  destruct Hattr as (k1 & p1 & Hattr & Hm1).
  cbv zeta. unfold bind at 1. rewrite Hattr.
  destruct (Visit rule) eqn:Hv; cbn [negb].
  - unfold bind, method, pure. exists k1, (Add B 1 p1). split; [done |].
    eapply moved_eq; [| | exact (moved_trans _ _ _ _ _ _ _ Hm1 (moved_Add p1))];
      lia.
  - unfold bind at 1. unfold bind at 1. unfold method at 1.
    match goal with
    | |- context [counted W B base [s] (Children rule) ?r (Some ?q)] =>
        destruct (counted_counts base [s] (Children rule) Hcs r q)
          as (k2 & p2 & -> & Hm2)
    end.
    unfold bind, method, pure. exists (k1 + length (Children rule) + k2),
      (Add B 1 p2).
    split; [done |].
    eapply moved_eq;
      [| | exact (moved_trans _ _ _ _ _ _ _
                    (moved_trans _ _ _ _ _ _ _
                       (moved_trans _ _ _ _ _ _ _ Hm1
                          (moved_IncrementTotal (length (Children rule)) p1))
                       Hm2)
                    (moved_Add p2))];
      lia.
Qed.

Lemma eachMatch_counts base rule matches :
  Forall (counts W B) (Children rule) ->
  forall records (p : RuleProgress B),
    exists k p',
      eachMatch W B base rule matches records (Some p)
      = Some (records ++ map (recordOf W base rule) matches, Some p')
      /\ moved k (k + length matches) p p'.
Proof.
  intros Hcs. induction matches as [| s matches IH]; intros records p.
  - exists 0, p. rewrite app_nil_r. split; [done | apply moved_refl].
  - change (eachMatch W B base rule (s :: matches) records)
      with (bind (record W B base rule s)
              (fun rec => eachMatch W B base rule matches (records ++ [rec]))).
    destruct (record_counts base rule s Hcs p) as (k1 & p1 & Hrec & Hm1).
    unfold bind. rewrite Hrec.
    destruct (IH (records ++ [recordOf W base rule s]) p1)
      as (k2 & p2 & -> & Hm2).
    exists (k1 + k2), p2. rewrite <- app_assoc. split; [done |].
    eapply moved_eq; [| | exact (moved_trans _ _ _ _ _ _ _ Hm1 Hm2)];
      simpl; lia.
Qed.

Lemma applyRule_counts rule : counts W B rule.
Proof.
  induction rule as [rule IH] using rule_tree_ind. intros base sel p.
  rewrite applyRule_branches.
  destruct (Children rule) as [| c cs] eqn:Hcs.
  - exists 0, p. rewrite applyRule_leaf by done.
    split; [done | apply moved_refl].
  - rewrite <- Hcs in *. assert (Hne : Children rule <> []) by by rewrite Hcs.
    destruct (Multiple rule) eqn:Hm.
    + rewrite applyRule_children_multiple by done.
      unfold bind at 1. unfold method at 1.
      destruct (eachMatch_counts base rule (Find W sel (Selector rule)) IH []
                  (IncrementTotal B
                     (Z.of_nat (length (Find W sel (Selector rule)))) p))
        as (k & p' & Hrun & Hmv).
      unfold bind. rewrite Hrun. unfold pure.
      exists (length (Find W sel (Selector rule)) + k), p'.
      split; [done |].
      eapply moved_eq;
        [| | exact (moved_trans _ _ _ _ _ _ _
                      (moved_IncrementTotal _ p) Hmv)]; lia.
    + rewrite applyRule_children_single by done.
      destruct (children_counts base (First W (Find W sel (Selector rule)))
                  (Children rule) IH
                  (singleAttr W base (First W (Find W sel (Selector rule)))
                     rule) p) as (k & p' & Hrun & Hmv).
      unfold bind. rewrite Hrun. by exists k, p'.
Qed.

Lemma scrapeRules_counts base doc rules :
  forall root (p : RuleProgress B),
    exists k p',
      Progress.scrapeRules W B base doc rules root (Some p)
      = Some (Extract.scrapeRules W base doc rules root, Some p')
      /\ moved k (k + length rules) p p'.
Proof.
  induction rules as [| rule rules IH]; intros root p.
  - exists 0, p. split; [done | apply moved_refl].
  - cbn [Progress.scrapeRules Extract.scrapeRules].
    destruct (applyRule_counts rule base doc p) as (k1 & p1 & Hrun & Hm1).
    unfold bind at 1. rewrite Hrun.
    destruct (applyRule_no_error W base doc rule) as [v ->].
    unfold bind at 1. unfold method at 1.
    destruct (IH (<[Name rule := v]> root) (Add B 1 p1))
      as (k2 & p2 & -> & Hm2).
    exists (k1 + k2), p2. split; [done |].
    eapply moved_eq;
      [| | exact (moved_trans _ _ _ _ _ _ _
                    (moved_trans _ _ _ _ _ _ _ Hm1 (moved_Add p1)) Hm2)];
      simpl; lia.
Qed.

End Counts.

(** X11. [Scrape] with a counter returns what the evaluation returns.
    When the page cannot be fetched or its URL does not parse the counter
    is left as it was. Otherwise [Total] ends at the number of units of
    work found, the root rules included, [Current] has advanced by that
    number, and one value was sent on [Update] for each unit: the progress
    is complete when [Scrape] returns. *)
Theorem Scrape_progress_complete (W : Collab) (B : Bars)
    (pageURL : string) (rules : list ExtractionRule) (p : RuleProgress B) :
  in_range p ->
  exists p',
    Progress.Scrape W B pageURL rules (Some p)
    = Some (Extract.Scrape W pageURL rules, Some p')
    /\ match Extract.Scrape W pageURL rules with
       | Err _ => p' = p
       | Ok _ =>
           exists k,
             length rules <= k
             /\ Total p' = uint64 (Z.of_nat k)
             /\ Current p' = uint64 (Current p + Z.of_nat k)
             /\ Update p' = (fun n => n + k) <$> Update p
       end.
Proof.
  intros Hp. unfold Progress.Scrape, Extract.Scrape.
  destruct (Fetch W pageURL) as [doc|]; [| by exists p].
  destruct (urlParse W pageURL) as [base|]; [| by exists p].
  unfold bind at 1. unfold method at 1.
  set (p0 := SetTotal B (Z.of_nat (length rules)) p).
  destruct (scrapeRules_counts W B base doc rules ∅ p0)
    as (k & p1 & Hrun & Hmv).
  unfold bind, method, pure. rewrite Hrun.
  exists (Close B p1). split; [done |].
  destruct (scrapeRules_no_error W base doc rules ∅) as [out ->].
  assert (Hp0 : in_range p0).
  { destruct Hp as [_ Hc]. split; [apply uint64_range | done]. }
  destruct (Hmv Hp0) as (_ & Ht & Hc & _ & Hu).
  exists (length rules + k). cbn [Close Total Current Update].
  split; [lia |]. rewrite Ht, Hc, Hu. subst p0.
  cbn [SetTotal Total Current Update]. rewrite uint64_add_l.
  split; [f_equal; lia |]. split; [f_equal; lia |].
  destruct (Update p); simpl; [f_equal; lia | done].
Qed.

Lemma Scrape_progress_complete_witness :
  exists p',
    Progress.Scrape Sample.web Sample.bars "http://e.com"
      [Sample.follow; Sample.leaf "items" "li" "data-id" true]
      (Some Sample.counter)
    = Some (Extract.Scrape Sample.web "http://e.com"
              [Sample.follow; Sample.leaf "items" "li" "data-id" true],
            Some p')
    /\ exists k,
         2 <= k
         /\ Total p' = uint64 (Z.of_nat k)
         /\ Current p' = uint64 (0 + Z.of_nat k)
         /\ Update p' = (fun n => n + k) <$> Some 0.
Proof.
  refine (Scrape_progress_complete Sample.web Sample.bars "http://e.com"
            [Sample.follow; Sample.leaf "items" "li" "data-id" true]
            Sample.counter _).
  unfold in_range. simpl. lia.
Defined.

(** X12. [Scrape] called with a nil counter never returns a result: it
    returns the error of the fetch or of [url.Parse], and once the page
    is fetched and its URL parsed it panics at [rp.SetTotal], whatever
    the rules. *)
Theorem Scrape_nil_counter_no_result (W : Collab) (B : Bars)
    (pageURL : string) (rules : list ExtractionRule) :
  (forall out rp',
      Progress.Scrape W B pageURL rules None = Some (out, rp') ->
      (exists e, out = Err e)
      /\ (Fetch W pageURL = None \/ urlParse W pageURL = None))
  /\ (forall doc base,
        Fetch W pageURL = Some doc -> urlParse W pageURL = Some base ->
        Progress.Scrape W B pageURL rules None = None).
Proof.
  unfold Progress.Scrape. split.
  - intros out rp'.
    destruct (Fetch W pageURL) as [doc|]; [| intros [= <- _]; eauto].
    destruct (urlParse W pageURL) as [base|]; [| intros [= <- _]; eauto].
    done.
  - by intros doc base -> ->.
Qed.

Lemma Scrape_nil_counter_no_result_witness :
  ((exists e, (Err "fetch" : ret (gmap string value)) = Err e)
   /\ (Fetch Sample.web "http://e.com/next" = None
       \/ urlParse Sample.web "http://e.com/next" = None))
  /\ Progress.Scrape Sample.web Sample.bars "http://e.com" [] None = None.
Proof.
  split.
  - exact (proj1 (Scrape_nil_counter_no_result Sample.web Sample.bars
                    "http://e.com/next" [])
             (Err "fetch") None eq_refl).
  - exact (proj2 (Scrape_nil_counter_no_result Sample.web Sample.bars
                    "http://e.com" [])
             Sample.page "http://e.com" eq_refl eq_refl).
Defined.

End ProgressFacts.

(** ** A visit that fails *)

Module VisitFacts.
Import Extract ExtractFacts.

(** C6, as the code has it. For a rule with children, Multiple and Visit,
    and a match whose attribute resolves against the base to [u2]: when
    the document at [u2] cannot be fetched the record of the match holds
    the resolved URL [u2] under the Attr key and nothing else; the rule
    still returns its array, with that record in it; and [Scrape], called
    with a counter that is not nil, returns a result whenever the root
    page is fetched and its URL parses. *)
Theorem visit_failure_records_resolved_url (W : Collab) base rule s u2 :
  Children rule <> [] ->
  Multiple rule = true ->
  Visit rule = true ->
  Attr rule <> "" ->
  AttrOf W s (Attr rule) <> "" ->
  Parse W base (AttrOf W s (Attr rule)) = Some u2 ->
  Fetch W u2 = None ->
  recordOf W base rule s = VRes {[ Attr rule := VStr u2 ]}
  /\ (forall sel, exists out,
        applyRule W base sel rule = Ok (VArr out)
        /\ (s ∈ Find W sel (Selector rule) ->
            VRes {[ Attr rule := VStr u2 ]} ∈ out))
  /\ (forall (B : Progress.Bars) (p : Progress.RuleProgress B)
             pageURL rules doc b,
        Fetch W pageURL = Some doc -> urlParse W pageURL = Some b ->
        exists result p',
          Progress.Scrape W B pageURL rules (Some p)
          = Some (Ok result, Some p')).
Proof.
  intros Hcs Hm Hv Hattr Hraw Hparse Hfetch.
  assert (Hrec : recordOf W base rule s = VRes {[ Attr rule := VStr u2 ]}).
  { unfold recordOf. rewrite Hv, orb_true_r.
    rewrite !is_empty_false by done. simpl. by rewrite Hparse, Hfetch. }
  split; [done |]. split.
  - intros sel. rewrite applyRule_children_multiple by done.
    eexists. split; [done |]. intros Hin.
    unfold recordOf at 1. setoid_rewrite applyTransforms_records.
    rewrite <- Hrec. apply list_elem_of_fmap. by exists s.
  - intros B p pageURL rules doc b Hdoc Hb.
    unfold Progress.Scrape. rewrite Hdoc, Hb.
    unfold Progress.bind at 1. unfold Progress.method at 1.
    destruct (ProgressFacts.scrapeRules_counts W B b doc rules ∅
                (Progress.SetTotal B (Z.of_nat (length rules)) p))
      as (k & p1 & Hrun & _).
    unfold Progress.bind, Progress.method, Progress.pure. rewrite Hrun.
    destruct (scrapeRules_no_error W b doc rules ∅) as [result ->].
    by exists result, (Progress.Close B p1).
Qed.

Lemma visit_failure_records_resolved_url_witness :
  recordOf Sample.web "http://e.com" Sample.follow
    (Sample.Elem "a" [("href", "/next")] "next" [])
  = VRes {[ "href" := VStr "http://e.com/next" ]}
  /\ exists result p',
       Progress.Scrape Sample.web Sample.bars "http://e.com" [Sample.follow]
         (Some Sample.counter)
       = Some (Ok result, Some p').
Proof.
  destruct (visit_failure_records_resolved_url Sample.web "http://e.com"
              Sample.follow (Sample.Elem "a" [("href", "/next")] "next" [])
              "http://e.com/next")
    as (H1 & _ & H3); try reflexivity; try discriminate.
  split; [exact H1 |].
  exact (H3 Sample.bars Sample.counter "http://e.com" [Sample.follow]
            Sample.page "http://e.com" eq_refl eq_refl).
Defined.

End VisitFacts.

(** ** More on the downloader *)

Module DownloadMore.
Import Extract Download ExtractFacts DownloadFacts Digits ItoaFacts.

(** *** File names *)

Lemma append_empty (s : string) : s +:+ "" = s.
Proof.
  induction s as [| c s IH]; [done |].
  change (String c s +:+ "") with (String c (s +:+ "")). by rewrite IH.
Qed.

Lemma append_append (s t u : string) : (s +:+ t) +:+ u = s +:+ t +:+ u.
Proof.
  induction s as [| c s IH]; [done |].
  change ((String c s +:+ t) +:+ u) with (String c ((s +:+ t) +:+ u)).
  by rewrite IH.
Qed.

Lemma substring_cut (s : string) : forall k,
  k <= String.length s ->
  s = substring 0 k s +:+ substring k (String.length s - k) s.
Proof.
  induction s as [| c s IH]; intros k Hk.
  - by destruct k.
  - destruct k as [| k]; simpl in *.
    + by rewrite substring_all.
    + change (String c ?a +:+ ?b) with (String c (a +:+ b)).
      f_equal. apply IH. lia.
Qed.

Lemma HasSuffix_inv (s t : string) :
  HasSuffix s t = true -> exists p, s = p +:+ t.
Proof.
  unfold HasSuffix. intros [Hlen Heq]%andb_true_iff.
  apply Nat.leb_le in Hlen. apply String.eqb_eq in Heq.
  exists (substring 0 (String.length s - String.length t) s).
  pose proof (substring_cut s (String.length s - String.length t)
                ltac:(lia)) as Hcut.
  replace (String.length s - (String.length s - String.length t))
    with (String.length t) in Hcut by lia.
  by rewrite Heq in Hcut.
Qed.

Lemma Ext_empty_no_dot s :
  Ext s = "" -> has_slash s = false -> Strings.occurs "." s = false.
Proof.
  induction s as [| c s IH]; [done |]. cbn [Ext has_slash Strings.occurs].
  intros He [Hc Hs]%orb_false_elim.
  destruct (Ext s) as [| d e] eqn:Hes; [| done].
  rewrite Hs in He. cbn [negb] in He. rewrite andb_true_r in He.
  destruct (Ascii.eqb c ".") eqn:Hd; [done |]. by rewrite IH.
Qed.

Lemma no_dot_Ext s : Strings.occurs "." s = false -> Ext s = "".
Proof.
  induction s as [| c s IH]; [done |]. cbn [Ext Strings.occurs].
  intros [Hc Hs]%orb_false_elim. rewrite (IH Hs). by rewrite Hc.
Qed.

Lemma Ext_tail path e :
  Ext path = String "." e ->
  Strings.occurs "." e = false /\ has_slash e = false.
Proof.
  induction path as [| c s IH]; [done |]. cbn [Ext].
  destruct (Ext s) as [| d e'] eqn:Hes; [| by intros [= -> ->]; apply IH].
  destruct (Ascii.eqb c ".") eqn:Hc; [| done].
  destruct (has_slash s) eqn:Hs; [done |]. cbn [negb andb].
  intros [= _ <-]. split; [| done]. by apply Ext_empty_no_dot.
Qed.

Lemma Ext_append pre e :
  Strings.occurs "." e = false -> has_slash e = false ->
  Ext (pre +:+ String "." e) = String "." e.
Proof.
  intros Hdot Hslash. induction pre as [| c pre IH].
  - change ("" +:+ ?s) with s. cbn [Ext]. rewrite (no_dot_Ext e Hdot).
    by rewrite Hslash.
  - change (String c pre +:+ ?s) with (String c (pre +:+ s)).
    cbn [Ext]. by rewrite IH.
Qed.

Lemma Ext_nonempty path d e :
  Ext path = String d e -> d = "."%char.
Proof.
  destruct (Ext_dot path) as [-> | [e' ->]]; [done | by intros [= <- _]].
Qed.

(** What [removeDuplicateExt] guarantees of its result. *)
Lemma removeDuplicateExt_spec n :
  forall filename,
    String.length filename < n ->
    let r := removeDuplicateExt filename in
    removeDuplicateExt r = r
    /\ Ext r = Ext filename
    /\ (exists rest, filename = r +:+ rest)
    /\ (Ext r = "" \/ HasSuffix (TrimSuffix r (Ext r)) (Ext r) = false).
Proof.
  induction n as [| n IH]; intros filename Hn; [lia |]. cbv zeta.
  rewrite (removeDuplicateExt_unfold filename). cbv zeta.
  destruct (Ext filename) as [| d e] eqn:He; cbn [Strings.is_empty tail].
  { rewrite removeDuplicateExt_unfold, He. cbn [Strings.is_empty].
    repeat split; [by exists ""; rewrite append_empty | by left]. }
  pose proof (Ext_nonempty _ _ _ He) as ->.
  change ("." +:+ e) with (String "." e).
  destruct (HasSuffix (TrimSuffix filename (String "." e)) (String "." e))
    eqn:Hdup.
  - pose proof (removeDuplicateExt_shorter filename) as Hlt.
    rewrite He in Hlt. cbn [tail] in Hlt.
    change ("." +:+ e) with (String "." e) in Hlt.
    specialize (Hlt ltac:(done)).
    destruct (IH (TrimSuffix filename (String "." e)) ltac:(lia))
      as (Hid & Hext & [rest Hrest] & Hno).
    destruct (Ext_suffix filename) as [pre Hpre]. rewrite He in Hpre.
    assert (Hbase : TrimSuffix filename (String "." e) = pre).
    { rewrite Hpre at 1. apply TrimSuffix_append. }
    rewrite Hbase in *.
    assert (Hpe : Ext pre = String "." e).
    { destruct (HasSuffix_inv _ _ Hdup) as [pre2 ->].
      destruct (Ext_tail _ _ He) as [Hd Hs]. by apply Ext_append. }
    repeat split; [done | by rewrite Hext | | done].
    exists (rest +:+ String "." e). rewrite Hpre at 1. rewrite Hrest at 1.
    by rewrite append_append.
  - rewrite removeDuplicateExt_unfold, He. cbn [Strings.is_empty tail].
    change ("." +:+ e) with (String "." e). rewrite Hdup.
    repeat split; [by exists ""; rewrite append_empty | by right].
Qed.


(** *** One download after another *)

Lemma writeFile_present path content w :
  notExist (writeFile path content w) path = false.
Proof.
  unfold notExist, writeFile. cbn [files].
  by rewrite lookup_insert_eq, bool_decide_eq_false_2.
Qed.

Lemma downloadResource_again E now' w rawURL saveDir outPath :
  outPathOf E now' rawURL saveDir = Some outPath ->
  notExist w outPath = false ->
  downloadResource E now' w rawURL saveDir = (w, (outPath, None)).
Proof. intros Hout Hex. unfold downloadResource. by rewrite Hout, Hex. Qed.

(** *** Tokens *)

Lemma prefix_cons a p c s :
  String.prefix (String a p) (String c s)
  = (Ascii.eqb a c && String.prefix p s).
Proof.
  simpl. destruct (ascii_dec a c) as [-> | Hne].
  - by rewrite Ascii.eqb_refl.
  - by destruct (Ascii.eqb_spec a c).
Qed.

Section Tokens.
Context (old new : string).
Hypothesis old_not_empty : old <> "".
Hypothesis new_not_empty : new <> "".
Hypothesis apart :
  forall c, Strings.occurs c new = true -> Strings.occurs c old = false.

(** A text that shares no byte with [new] starts the result of the
    replacement only if it starts the string itself. *)
Lemma prefix_ReplaceToken p :
  (forall c, Strings.occurs c new = true -> Strings.occurs c p = false) ->
  forall s,
    String.prefix p (Strings.ReplaceToken 0 old new s) = true ->
    String.prefix p s = true.
Proof.
  induction p as [| a p IH]; intros Hp s; [by destruct s |].
  destruct s as [| c s]; [done |]. cbn [Strings.ReplaceToken].
  destruct (String.prefix old (String c s)) eqn:Hold.
  - destruct new as [| n0 new']; [done |].
    change (String n0 new' +:+ ?x) with (String n0 (new' +:+ x)).
    rewrite prefix_cons. intros [Ha _]%andb_true_iff.
    apply Ascii.eqb_eq in Ha as ->.
    specialize (Hp n0). cbn [Strings.occurs] in Hp.
    rewrite Ascii.eqb_refl in Hp. by specialize (Hp eq_refl).
  - rewrite !prefix_cons. intros [Ha Hrest]%andb_true_iff.
    rewrite Ha. cbn [andb]. apply IH; [| done].
    intros c' Hc'. specialize (Hp c' Hc'). cbn [Strings.occurs] in Hp.
    by apply orb_false_elim in Hp as [_ ?].
Qed.

Lemma Contains_after_new x :
  Strings.Contains (new +:+ x) old = Strings.Contains x old.
Proof.
  clear new_not_empty. induction new as [| n0 new' IH]; [done |].
  change (String n0 new' +:+ x) with (String n0 (new' +:+ x)).
  cbn [Strings.Contains]. rewrite IH.
  - destruct old as [| o0 old']; [done |]. rewrite prefix_cons.
    specialize (apart n0). cbn [Strings.occurs] in apart.
    rewrite Ascii.eqb_refl in apart. specialize (apart eq_refl).
    apply orb_false_elim in apart as [Hne _]. by rewrite Hne.
  - intros c Hc. apply apart. cbn [Strings.occurs]. by rewrite Hc, orb_true_r.
Qed.

(** After the replacement the token is nowhere in the string. *)
Lemma ReplaceToken_removes s : forall k,
  Strings.Contains (Strings.ReplaceToken k old new s) old = false.
Proof.
  induction s as [| c s IH]; intros k.
  - cbn. by destruct old.
  - cbn [Strings.ReplaceToken]. destruct k as [| k]; [| apply IH].
    destruct (String.prefix old (String c s)) eqn:Hold.
    + rewrite Contains_after_new. apply IH.
    + cbn [Strings.Contains]. rewrite IH, orb_false_r.
      destruct (String.prefix old (String c (Strings.ReplaceToken 0 old new s)))
        eqn:Hp; [| done].
      assert (Hs : String.prefix old
                     (Strings.ReplaceToken 0 old new (String c s)) = true).
      { cbn [Strings.ReplaceToken]. by rewrite Hold. }
      apply prefix_ReplaceToken in Hs; [congruence | exact apart].
Qed.

End Tokens.

Lemma Itoa_bytes n c :
  Strings.occurs c (Itoa n) = true ->
  Mapper.is_digit c = true \/ c = "-"%char.
Proof.
  assert (Hu : forall d, Strings.occurs c (NilZero.string_of_uint d) = true ->
                         Mapper.is_digit c = true).
  { intros d Hc. destruct (Mapper.is_digit c) eqn:Hd; [done |].
    assert (Hall : all_digits (NilZero.string_of_uint d) = true).
    { unfold NilZero.string_of_uint. destruct d; try done;
        apply all_digits_of_uint. }
    by rewrite (MapperMore.all_digits_occurs c _ Hd Hall) in Hc. }
  unfold Itoa. destruct (Z.to_int n) as [d | d]; cbn [NilZero.string_of_int].
  - intros Hc. left. by eapply Hu.
  - cbn [Strings.occurs]. intros [Hc | Hc]%orb_true_iff.
    + right. by apply Ascii.eqb_eq in Hc.
    + left. by eapply Hu.
Qed.

Lemma Itoa_not_empty n : Itoa n <> "".
Proof.
  unfold Itoa. destruct (Z.to_int n) as [d | d]; [| done].
  cbn [NilZero.string_of_int]. unfold NilZero.string_of_uint.
  by destruct d.
Qed.

(** *** A pool with no URL *)

Lemma empty_pool_steps E dir concurrency w cancelled st :
  rtc (step E [] dir concurrency) (start [] w cancelled) st ->
  downloadList st = [] /\ outside st = w.
Proof.
  intros Hrun.
  assert (Hgen : forall st0,
            downloadList st0 = [] /\ outside st0 = w ->
            rtc (step E [] dir concurrency) st0 st ->
            downloadList st = [] /\ outside st = w).
  { clear Hrun. intros st0 H0 Hrun.
    induction Hrun as [| st0 st1 st2 Hstep _ IH]; [done |]. apply IH.
    destruct Hstep as [st0 Hn _ | st0 Hn _ | st0 i u now _ Hu |]; try done;
      simpl in *; lia. }
  by apply (Hgen (start [] w cancelled)).
Qed.

Lemma no_urls_in_records (r : gmap string value) name v :
  r !! name = Some v ->
  (exists m, v = VRes m) \/ (exists ms, v = VArr (VRes <$> ms)) ->
  GetResultStringArray r name = [].
Proof.
  intros Hr [[m ->] | [ms ->]]; unfold GetResultStringArray; rewrite Hr;
    [done |].
  clear Hr. induction ms as [| m ms IH]; [done |].
  cbn [fmap list_fmap map safeString]. rewrite filter_cons.
  by destruct (decide _).
Qed.

(** *** Specified behaviour *)

(** X13. [removeDuplicateExt] returns a name that starts the one it was
    given, with the same extension, in which the extension is not doubled;
    applied to its own result it changes nothing. *)
Theorem removeDuplicateExt_idempotent filename :
  let r := removeDuplicateExt filename in
  removeDuplicateExt r = r
  /\ Ext r = Ext filename
  /\ (exists rest, filename = r +:+ rest)
  /\ (Ext r = "" \/ HasSuffix (TrimSuffix r (Ext r)) (Ext r) = false).
Proof. apply (removeDuplicateExt_spec (S (String.length filename))). lia. Qed.

(** X14. A download that returned a path with no error is not made a
    second time: the next call for the same URL and directory finds the
    file, returns the same path and leaves the world as it is, with no
    request. *)
Theorem downloadResource_not_repeated E now w rawURL saveDir w' p :
  downloadResource E now w rawURL saveDir = (w', (p, None)) ->
  forall now',
    outPathOf E now' rawURL saveDir = outPathOf E now rawURL saveDir ->
    downloadResource E now' w' rawURL saveDir = (w', (p, None)).
Proof.
  unfold downloadResource at 1.
  destruct (outPathOf E now rawURL saveDir) as [outPath|] eqn:Hout;
    [| by intros [=]].
  destruct (notExist w outPath) eqn:Hex; cbn [negb].
  - destruct (Do E rawURL) as [[status body]|]; [| by intros [=]].
    destruct (negb (status =? 200)%Z); [by intros [=] |].
    destruct (negb (mkdirAll E _)); [by intros [=] |].
    destruct (negb (create E outPath)); [by intros [=] |].
    destruct body as [content|]; [| by intros [=]].
    intros [= <- <-] now' Hnow. apply downloadResource_again; [congruence |].
    apply writeFile_present.
  - intros [= <- <-] now' Hnow. apply downloadResource_again; congruence.
Qed.

Lemma downloadResource_not_repeated_witness :
  downloadResource Sample.net 8 Sample.sampleWorld "http://e.com/a.png" "out"
  = (Sample.sampleWorld, ("out/a.png", None)).
Proof.
  apply (downloadResource_not_repeated Sample.net 7 Sample.emptyWorld
           "http://e.com/a.png" "out" Sample.sampleWorld "out/a.png");
    reflexivity.
Defined.

(** X15. A download whose body cannot be copied returns an error and the
    empty path, but the file it created stays: the next call for the same
    URL finds it and returns its path with no error and no request. *)
Theorem downloadResource_failed_copy_is_kept E now w rawURL saveDir outPath :
  outPathOf E now rawURL saveDir = Some outPath ->
  notExist w outPath = true ->
  Do E rawURL = Some (200%Z, None) ->
  mkdirAll E (if Strings.is_empty saveDir then "./" else saveDir) = true ->
  create E outPath = true ->
  exists w' e,
    downloadResource E now w rawURL saveDir = (w', ("", Some e))
    /\ is_Some (files w' !! outPath)
    /\ forall now',
         outPathOf E now' rawURL saveDir = Some outPath ->
         downloadResource E now' w' rawURL saveDir = (w', (outPath, None)).
Proof.
  intros Hout Hex Hdo Hmk Hcr. unfold downloadResource at 1.
  rewrite Hout, Hex, Hdo, Hmk, Hcr. cbn [negb Z.eqb Pos.eqb].
  eexists _, _. split; [done |]. split.
  - unfold emit, writeFile. cbn [files]. by rewrite lookup_insert_eq.
  - intros now' Hnow. apply downloadResource_again; [done |].
    unfold notExist, emit, writeFile. cbn [files].
    by rewrite lookup_insert_eq, bool_decide_eq_false_2.
Qed.

Lemma downloadResource_failed_copy_is_kept_witness :
  exists w' e,
    downloadResource Sample.cut 7 Sample.emptyWorld "http://e.com/a.png" "out"
    = (w', ("", Some e))
    /\ is_Some (files w' !! "out/a.png")
    /\ forall now',
         outPathOf Sample.cut now' "http://e.com/a.png" "out"
         = Some "out/a.png" ->
         downloadResource Sample.cut now' w' "http://e.com/a.png" "out"
         = (w', ("out/a.png", None)).
Proof.
  exact (downloadResource_failed_copy_is_kept Sample.cut 7 Sample.emptyWorld
           "http://e.com/a.png" "out" "out/a.png"
           eq_refl eq_refl eq_refl eq_refl eq_refl).
Defined.

(** X16. When the context is done the loop of [DownloadResults] can fail
    to get a permit for a URL; the WaitGroup was incremented for it before,
    and no worker is started that would decrement it, so from then on
    [wg.Wait()] never returns, whatever the workers that run do. *)
Theorem failed_acquire_blocks_return E urlResults dir concurrency st :
  next st < length urlResults ->
  done_ctx st = true ->
  let blocked :=
    {| next := S (next st); running := running st;
       skipped := skipped st ++ [next st];
       downloadList := downloadList st;
       outside := outside st; done_ctx := done_ctx st |} in
  step E urlResults dir concurrency st blocked
  /\ forall st',
       rtc (step E urlResults dir concurrency) blocked st' ->
       ~ returned urlResults st'.
Proof.
  intros Hnext Hdone blocked. split; [by apply NotAcquired |].
  intros st' Hrun. eapply failed_acquire_never_returns; [| exact Hrun].
  subst blocked. cbn [skipped]. by destruct (skipped st).
Qed.

Lemma failed_acquire_blocks_return_witness :
  let blocked :=
    {| next := 1; running := []; skipped := [0];
       downloadList := [""]; outside := Sample.emptyWorld;
       done_ctx := true |} in
  step Sample.net ["http://e.com/a.png"] "out" 1
    (start ["http://e.com/a.png"] Sample.emptyWorld true) blocked
  /\ forall st',
       rtc (step Sample.net ["http://e.com/a.png"] "out" 1) blocked st' ->
       ~ returned ["http://e.com/a.png"] st'.
Proof.
  apply (failed_acquire_blocks_return Sample.net ["http://e.com/a.png"]
           "out" 1 (start ["http://e.com/a.png"] Sample.emptyWorld true));
    [simpl; lia | reflexivity].
Defined.

(** X17. For a rule with Download whose value is a record or an array of
    records (the value of a rule with children), [DownloadResults] finds
    no URL: it downloads nothing, and it replaces the value by an empty
    list of paths, so the records are no longer in the result. *)
Theorem DownloadResults_replaces_records E concurrency baseDir s r rule v
    s' r' :
  Download rule = true ->
  r !! Name rule = Some v ->
  (exists m, v = VRes m) \/ (exists ms, v = VArr (VRes <$> ms)) ->
  DownloadResults E concurrency s r [rule] baseDir s' r' ->
  r' = <[Name rule := VStrs []]> r /\ s'.1 = s.1.
Proof.
  intros Hd Hr Hv Hcall.
  pose proof (no_urls_in_records r (Name rule) v Hr Hv) as Hurls.
  inversion Hcall as [| ? ? ? ? ? ? ? Hno | ? ? ? ? ? f s1 r1 s2 r2 ? ? _
                                             Hdown Hbelow Hrest];
    subst; [congruence |].
  rewrite Hd in Hdown. destruct Hdown as (st & Hrun & _ & -> & ->).
  rewrite Hurls in Hrun.
  apply empty_pool_steps in Hrun as [Hlist Hw]. rewrite Hlist in *.
  apply (Below_paths _ _ _ _ _ _ _ _ []) in Hbelow as [-> ->];
    [| apply lookup_insert_eq].
  inversion Hrest; subst. by split.
Qed.

Lemma DownloadResults_replaces_records_witness :
  let r : gmap string value :=
    {[ "images" := VRes {[ "src" := VStr "http://e.com/a.png" ]} ]} in
  <["images" := VStrs []]> r = <["images" := VStrs []]> r
  /\ (Sample.emptyWorld, false).1 = (Sample.emptyWorld, false).1.
Proof.
  refine (DownloadResults_replaces_records Sample.net 2 ""
            (Sample.emptyWorld, false)
            {[ "images" := VRes {[ "src" := VStr "http://e.com/a.png" ]} ]}
            Sample.pictures
            (VRes {[ "src" := VStr "http://e.com/a.png" ]})
            (Sample.emptyWorld, false) _ eq_refl eq_refl _ _).
  - left. by eexists.
  - eapply (Rule _ _ _ _ _ _ _
              {| uuid := ""; hex := ""; base64 := ""; unix := 0 |});
      [by left | | | apply NoRule].
    + exists (start [] Sample.emptyWorld false).
      split; [apply rtc_refl |]. split; [by split |]. by split.
    + apply OneNone; reflexivity.
Defined.

(** X18. What [replacePlaceholders] returns has no [{{index}}] token left
    in it, whatever the string and the values drawn for the other
    tokens. *)
Theorem replacePlaceholders_no_index_left f s index :
  Strings.Contains (replacePlaceholders f s index) "{{index}}" = false.
Proof.
  unfold replacePlaceholders. cbv zeta.
  generalize (replaceIn "{{unix}}" (Itoa (unix f))
                (replaceIn "{{base64}}" (base64 f)
                   (replaceIn "{{hex}}" (hex f)
                      (replaceIn "{{uuid}}" (uuid f) s)))).
  intros t. unfold replaceIn.
  destruct (Strings.Contains t "{{index}}") eqn:Ht; [| done].
  apply ReplaceToken_removes; [done | apply Itoa_not_empty |].
  intros c Hc. apply Itoa_bytes in Hc as [Hd | ->]; [| done].
  destruct (Strings.occurs c "{{index}}") eqn:Ho; [| done].
  cbn [Strings.occurs] in Ho.
  repeat (apply orb_true_iff in Ho as [Ho | Ho];
          [apply Ascii.eqb_eq in Ho as <-; done |]).
  done.
Qed.

End DownloadMore.

(** ** What a download leaves as it was *)

Module DownloadFrame.
Import Extract Download DownloadFacts.

(** X19. [DownloadResults] changes the result under the names of the
    rules it is given and nowhere else. *)
Theorem DownloadResults_changes_named_entries_only E concurrency rules :
  forall s r baseDir s' r',
    DownloadResults E concurrency s r rules baseDir s' r' ->
    forall k, k ∉ Name <$> rules -> r' !! k = r !! k.
Proof.
  induction rules as [| rule rules IH]; intros s r baseDir s' r' Hcall k Hk.
  - by inversion Hcall; subst.
  - apply not_elem_of_cons in Hk as [Hne Hk].
    inversion Hcall as [| ? ? ? ? ? ? ? Hd Hc Hrest
                        | ? ? ? ? ? f s1 r1 s2 r2 ? ? _ Hdown Hbelow Hrest];
      subst; [by eapply IH |].
    rewrite (IH _ _ _ _ _ Hrest k Hk).
    assert (H1 : r1 !! k = r !! k).
    { destruct (Download rule).
      - destruct Hdown as (st & _ & _ & _ & ->). by rewrite lookup_insert_ne.
      - by destruct Hdown as [_ ->]. }
    rewrite <- H1.
    inversion Hbelow; subst; try done; by rewrite lookup_insert_ne.
Qed.

Lemma DownloadResults_changes_named_entries_only_witness :
  (<["images" := VStrs ["out/a.png"; ""]]> Sample.sampleResult) !! "title"
  = Sample.sampleResult !! "title".
Proof.
  apply (DownloadResults_changes_named_entries_only Sample.net 2
           [Sample.pictures] _ _ _ _ _ sampleCall "title").
  apply not_elem_of_cons. split; [discriminate | apply not_elem_of_nil].
Defined.

(** X20. One call of [downloadResource] leaves every file that was there
    as it was, and adds to the requests and writes made before it: it
    writes to the path it computes only when no file is there. *)
Theorem downloadResource_keeps_files E now w rawURL saveDir :
  let w' := (downloadResource E now w rawURL saveDir).1 in
  (forall p content,
      files w !! p = Some content -> files w' !! p = Some content)
  /\ exists more, log w' = log w ++ more.
Proof.
  cbv zeta. unfold downloadResource.
  destruct (outPathOf E now rawURL saveDir) as [outPath|];
    [| split; [done | exists []; by rewrite app_nil_r]].
  destruct (notExist w outPath) eqn:Hex; cbn [negb];
    [| split; [done | exists []; by rewrite app_nil_r]].
  assert (Hnone : files w !! outPath = None).
  { unfold notExist in Hex. apply andb_true_iff in Hex as [Hf _].
    by apply bool_decide_eq_true_1 in Hf. }
  assert (Hlog : forall w0 : world,
            files w0 = files w
            \/ (exists c0, files w0 = <[outPath := c0]> (files w)) ->
            (exists more, log w0 = log w ++ more) ->
            (forall p content,
                files w !! p = Some content -> files w0 !! p = Some content)
            /\ exists more, log w0 = log w ++ more).
  { intros w0 Hfiles Hmore. split; [| done]. intros p content Hp.
    destruct Hfiles as [-> | [c0 ->]]; [done |].
    rewrite lookup_insert_ne; [done |]. intros <-. congruence. }
  destruct (Do E rawURL) as [[status body]|]; cbn [fst].
  2: { apply Hlog; [by left | by eexists]. }
  destruct (negb (status =? 200)%Z); cbn [fst].
  { apply Hlog; [by left | by eexists]. }
  destruct (negb (mkdirAll E _)); cbn [fst].
  { apply Hlog; [by left |]. eexists. cbn [emit log].
    by rewrite <- app_assoc. }
  destruct (negb (create E outPath)); cbn [fst].
  { apply Hlog; [by left |]. eexists. cbn [emit log].
    by rewrite <- !app_assoc. }
  destruct body as [content|]; cbn [fst]; apply Hlog.
  - right. exists content. cbn [emit writeFile files].
    by rewrite insert_insert_eq.
  - eexists. cbn [emit writeFile log]. by rewrite <- !app_assoc.
  - right. exists "". by cbn [emit writeFile files].
  - eexists. cbn [emit writeFile log]. by rewrite <- !app_assoc.
Qed.

Lemma downloadResource_keeps_files_witness :
  files (downloadResource Sample.net 7 Sample.sampleWorld
           "http://e.com/b.png" "out").1 !! "out/a.png"
  = Some "PNG".
Proof.
  apply (proj1 (downloadResource_keeps_files Sample.net 7 Sample.sampleWorld
                  "http://e.com/b.png" "out")).
  reflexivity.
Defined.

End DownloadFrame.

(** ** From the evaluator to the downloader *)

Module ShapeFacts.
Import Extract Download ExtractFacts DownloadFacts ExtractMore Shape.

Lemma distinct_children rule :
  distinct rule
  <-> NoDup (Name <$> Children rule) /\ Forall distinct (Children rule).
Proof.
  destruct rule as [? ? ? ? ? ? ? ? cs ?]. cbn [distinct Children].
  apply and_iff_compat_l. induction cs as [| c cs IH].
  - split; [constructor | done].
  - rewrite Forall_cons. by rewrite IH.
Qed.

Lemma fits_branches rule v :
  fits rule v
  <-> if Download rule then True
      else
        match Children rule with
        | [] => True
        | _ :: _ =>
            if Multiple rule then
              match v with
              | VArr l =>
                  Forall (fun x => exists m,
                            x = VRes m /\ fitsAll (Children rule) m) l
              | VResults ms => Forall (fitsAll (Children rule)) ms
              | _ => True
              end
            else
              match v with
              | VRes m => fitsAll (Children rule) m
              | _ => True
              end
        end.
Proof.
  destruct rule as [? ? ? mult down ? ? ? cs ?].
  cbn [fits Download Children Multiple].
  assert (Hall : forall m cs',
    (fix all (cs : list ExtractionRule) : Prop :=
       match cs with
       | [] => True
       | c :: cs' =>
           match m !! Name c with
           | Some x => fits c x
           | None => True
           end /\ all cs'
       end) cs' <-> fitsAll cs' m).
  { intros m cs'. unfold fitsAll. induction cs' as [| c cs' IH].
    - split; [constructor | done].
    - rewrite Forall_cons. by rewrite IH. }
  destruct down; [done |]. destruct cs as [| c cs]; [done |].
  destruct mult.
  - destruct v; try done.
    + apply Forall_iff. intros x. split; intros (m & -> & Hm); exists m;
        (split; [done |]).
      * exact (proj1 (Hall m (c :: cs)) Hm).
      * exact (proj2 (Hall m (c :: cs)) Hm).
    + apply Forall_iff. intros m. exact (Hall m (c :: cs)).
  - destruct v; try done. exact (Hall m (c :: cs)).
Qed.

(** A value that is no array and no record fits every rule. *)
Lemma fits_scalar rule v :
  match v with VArr _ | VResults _ | VRes _ => False | _ => True end ->
  fits rule v.
Proof.
  intros Hv. apply fits_branches. destruct (Download rule); [done |].
  destruct (Children rule); [done |].
  by destruct (Multiple rule), v.
Qed.

Lemma fitsAll_scalars cs (m : gmap string value) :
  (forall k v, m !! k = Some v ->
     match v with VArr _ | VResults _ | VRes _ => False | _ => True end) ->
  fitsAll cs m.
Proof.
  intros Hm. apply Forall_forall. intros c _.
  destruct (m !! Name c) as [v|] eqn:Hv; [| done].
  apply fits_scalar. by eapply Hm.
Qed.

Lemma fitsAll_empty cs : fitsAll cs ∅.
Proof. apply fitsAll_scalars. intros k v. by rewrite lookup_empty. Qed.

Lemma fitsAll_attr cs k0 s : fitsAll cs (<[k0 := VStr s]> ∅).
Proof.
  apply fitsAll_scalars. intros k v.
  rewrite lookup_insert_Some, lookup_empty. by intros [[_ <-] | [_ ?]].
Qed.

(** *** What the evaluator returns fits *)

Section Evaluated.
Context (W : Collab) (base : URL W).

Lemma evalChildren_other scope cs k :
  forall rec,
    k ∉ Name <$> cs ->
    evalChildren W base scope cs rec !! k = rec !! k.
Proof.
  induction cs as [| c cs IH]; intros rec Hk; [done |].
  rewrite evalChildren_cons. apply not_elem_of_cons in Hk as [Hne Hk].
  rewrite (IH _ Hk).
  destruct (applyRule W base scope c); [by rewrite lookup_insert_ne | done].
Qed.

Lemma evalChildren_fits scope cs :
  NoDup (Name <$> cs) -> Forall distinct cs -> Forall (fitting W base) cs ->
  forall rec, fitsAll cs (evalChildren W base scope cs rec).
Proof.
  induction cs as [| c cs IH]; intros Hnd Hdist Hfit rec; [constructor |].
  apply NoDup_cons in Hnd as [Hc Hnd].
  apply Forall_cons in Hdist as [Hdc Hdist].
  apply Forall_cons in Hfit as [Hfc Hfit].
  rewrite evalChildren_cons. constructor; [| by apply IH].
  rewrite (evalChildren_other _ _ _ _ Hc).
  destruct (applyRule_no_error W base scope c) as [v Hv]. rewrite Hv.
  rewrite lookup_insert_eq. by eapply Hfc.
Qed.

Lemma applyRule_fits rule : fitting W base rule.
Proof.
  induction rule as [rule IH] using rule_tree_ind.
  intros Hdist sel v Hv. apply fits_branches.
  destruct (Download rule); [done |].
  destruct (Children rule) as [| c0 cs0] eqn:Hcs; [done |].
  rewrite <- Hcs in *. assert (Hne : Children rule <> []) by by rewrite Hcs.
  apply distinct_children in Hdist as [Hnd Hdc].
  destruct (Multiple rule) eqn:Hm.
  - rewrite applyRule_children_multiple in Hv by done.
    unfold recordOf at 1 in Hv.
    setoid_rewrite applyTransforms_records in Hv. injection Hv as <-.
    apply Forall_map, Forall_forall. intros s _. eexists. split; [done |].
    destruct (Visit rule); cbn [negb]; [| by apply evalChildren_fits].
    destruct (negb (Strings.is_empty (Attr rule)));
      [| apply fitsAll_empty].
    destruct (_ && _); [| apply fitsAll_attr].
    destruct (Parse W base _) as [u2|]; [| apply fitsAll_attr].
    destruct (Fetch W u2) as [doc|];
      [by apply evalChildren_fits | apply fitsAll_attr].
  - rewrite applyRule_children_single in Hv by done. injection Hv as <-.
    unfold singleRecord. by apply evalChildren_fits.
Qed.

Lemma scrapeRules_fits doc rules :
  NoDup (Name <$> rules) -> Forall distinct rules ->
  forall root out,
    scrapeRules W base doc rules root = Ok out -> fitsAll rules out.
Proof.
  induction rules as [| rule rules IH]; intros Hnd Hdist root out;
    [constructor |].
  apply NoDup_cons in Hnd as [Hc Hnd].
  apply Forall_cons in Hdist as [Hdc Hdist].
  cbn [scrapeRules].
  destruct (applyRule W base doc rule) as [v|] eqn:Hv; [| done].
  intros Hout. constructor; [| by eapply IH].
  rewrite (scrapeRules_other W _ _ _ _ _ _ Hout Hc), lookup_insert_eq.
  by eapply applyRule_fits.
Qed.

End Evaluated.

(** *** A result that fits goes through the downloader *)

Section Accepted.
Context (E : Env) (concurrency : Z).

(** With a live context the pool can return, and the context is still
    live then. *)
Lemma finish_loop_live urlResults dir k :
  forall st,
    inv E urlResults dir concurrency st ->
    running st = [] -> skipped st = [] ->
    next st + k = length urlResults ->
    exists st',
      rtc (step E urlResults dir concurrency) st st'
      /\ returned urlResults st' /\ done_ctx st' = done_ctx st.
Proof.
  induction k as [| k IH]; intros st Hinv Hrun Hskip Hk.
  - exists st. split; [apply rtc_refl |]. split; [| done].
    split; [lia |]. unfold wg. by rewrite Hrun, Hskip.
  - assert (Hlt : next st < length urlResults) by lia.
    assert (Hperm : length (running st) < permits concurrency).
    { rewrite Hrun. apply permits_positive. }
    pose proof (Acquired E urlResults dir concurrency st Hlt Hperm) as Hs1.
    pose proof (inv_step _ _ _ _ _ _ Hinv Hs1) as Hinv1.
    destruct (drain E urlResults dir concurrency 1 _ Hinv1)
      as (st2 & Hrtc & Hrun2 & Hn2 & Hsk2 & Hd2).
    { simpl. rewrite Hrun. simpl. lia. }
    destruct (IH st2) as (st' & Hrtc' & Hret & Hd'); try done.
    + eapply inv_steps; [exact Hinv1 | done].
    + by rewrite Hsk2.
    + rewrite Hn2. simpl. lia.
    + exists st'. split; [| split; [done |]].
      * eapply rtc_l; [exact Hs1 |]. by etrans.
      * by rewrite Hd', Hd2.
Qed.

Lemma pool_returns_live urlResults dir w :
  exists st,
    rtc (step E urlResults dir concurrency) (start urlResults w false) st
    /\ returned urlResults st /\ done_ctx st = false.
Proof.
  destruct (finish_loop_live urlResults dir (length urlResults)
              (start urlResults w false))
    as (st & Hrun & Hret & Hd); try done; [apply inv_start |].
  by exists st.
Qed.

Lemma DownloadResults_cons s r rule rules baseDir s2 r2 s' r' :
  DownloadResults E concurrency s r [rule] baseDir s2 r2 ->
  DownloadResults E concurrency s2 r2 rules baseDir s' r' ->
  DownloadResults E concurrency s r (rule :: rules) baseDir s' r'.
Proof.
  intros Hone Hrest.
  inversion Hone as [| ? ? ? ? ? ? ? Hd Hc Hnil
                     | ? ? ? ? ? f s1 r1 s3 r3 ? ? Hor Hdown Hbelow Hnil];
    subst; inversion Hnil; subst.
  - by apply Skip.
  - by eapply Rule.
Qed.

Lemma acceptedAll_of rules : Forall (accepted E concurrency) rules ->
  acceptedAll E concurrency rules.
Proof.
  induction 1 as [| rule rules Hrule _ IH]; intros baseDir r s Hlive Hfit
    Hnd Hdist.
  - exists s, r. split; [apply NoRule | done].
  - apply NoDup_cons in Hnd as [Hc Hnd].
    apply Forall_cons in Hdist as [Hdc Hdist].
    apply Forall_cons in Hfit as [Hfc Hfit].
    destruct (Hrule baseDir r s Hlive Hfc Hdc) as (s2 & r2 & Hone & Hl2 & Hk2).
    destruct (IH baseDir r2 s2 Hl2) as (s' & r' & Hrest & Hl' & Hk');
      [| done | done |].
    { apply Forall_forall. intros c Hin.
      rewrite Hk2.
      - by apply (proj1 (Forall_forall _ _) Hfit).
      - intros Heq. apply Hc. rewrite <- Heq.
        by apply list_elem_of_fmap_2. }
    exists s', r'. split; [by eapply DownloadResults_cons |].
    split; [done |]. intros k Hk. apply not_elem_of_cons in Hk as [Hne Hk].
    by rewrite Hk', Hk2.
Qed.

Lemma each_accepted cs dir :
  acceptedAll E concurrency cs ->
  NoDup (Name <$> cs) -> Forall distinct cs ->
  forall ms (s : setting),
    s.2 = false -> Forall (fitsAll cs) ms ->
    exists s' output,
      Each E concurrency s ms cs dir s' output /\ s'.2 = false.
Proof.
  intros Hcs Hnd Hdist. induction ms as [| m ms IH]; intros s Hlive Hfit.
  - exists s, []. split; [apply EachNil | done].
  - apply Forall_cons in Hfit as [Hm Hfit].
    destruct (Hcs dir m s Hlive Hm Hnd Hdist) as (s1 & p & Hone & Hl1 & _).
    destruct (IH s1 Hl1 Hfit) as (s' & output & Heach & Hl').
    exists s', (p :: output). split; [by eapply EachCons | done].
Qed.

Lemma asResults_records (ms : list (gmap string value)) :
  asResults (VRes <$> ms) = Some ms.
Proof.
  induction ms as [| m ms IH]; [done |].
  cbn [fmap list_fmap asResults]. cbn [fmap] in IH. by rewrite IH.
Qed.

Lemma records_of (l : list value) cs :
  Forall (fun x => exists m, x = VRes m /\ fitsAll cs m) l ->
  exists ms, l = VRes <$> ms /\ Forall (fitsAll cs) ms.
Proof.
  induction 1 as [| x l (m & -> & Hm) _ (ms & -> & Hms)].
  - by exists [].
  - exists (m :: ms). split; [done | by constructor].
Qed.

Lemma below_accepted rule dir (r : gmap string value) (s : setting) :
  Download rule = false -> Children rule <> [] ->
  acceptedAll E concurrency (Children rule) ->
  s.2 = false ->
  match r !! Name rule with Some v => fits rule v | None => True end ->
  distinct rule ->
  exists s2 r2,
    Below E concurrency s r rule dir s2 r2
    /\ s2.2 = false
    /\ forall k, k <> Name rule -> r2 !! k = r !! k.
Proof.
  intros Hd Hne Hcs Hlive Hfit Hdist.
  apply distinct_children in Hdist as [Hnd Hdc].
  assert (Hfit' : match r !! Name rule with
                  | Some v =>
                      if Multiple rule then
                        match v with
                        | VArr l =>
                            Forall (fun x => exists m,
                                      x = VRes m
                                      /\ fitsAll (Children rule) m) l
                        | VResults ms =>
                            Forall (fitsAll (Children rule)) ms
                        | _ => True
                        end
                      else
                        match v with
                        | VRes m => fitsAll (Children rule) m
                        | _ => True
                        end
                  | None => True
                  end).
  { destruct (r !! Name rule) as [v|]; [| done].
    apply fits_branches in Hfit. rewrite Hd in Hfit.
    by destruct (Children rule). }
  clear Hfit. destruct (Multiple rule) eqn:Hm.
  - (* the value as a list of records *)
    assert (Hres : exists ms,
               GetResultArray r (Name rule) = Some ms
               /\ Forall (fitsAll (Children rule)) ms).
    { unfold GetResultArray.
      destruct (r !! Name rule) as [[]|]; try (by exists []).
      - destruct (records_of _ _ Hfit') as (ms & -> & Hms).
        exists ms. by rewrite asResults_records.
      - by eexists. }
    destruct Hres as (ms & Hget & Hms).
    destruct ms as [| m ms].
    { exists s, r. split; [by apply ManyNone | done]. }
    destruct (each_accepted _ dir Hcs Hnd Hdc (m :: ms) s Hlive Hms)
      as (s' & output & Heach & Hl').
    exists s', (<[Name rule := VResults output]> r).
    split; [by eapply Many |]. split; [done |].
    intros k Hk. by rewrite lookup_insert_ne.
  - destruct (GetResult r (Name rule)) as [m|] eqn:Hget.
    + unfold GetResult in Hget.
      destruct (r !! Name rule) as [[]|] eqn:Hr; try done.
      injection Hget as ->.
      destruct (Hcs dir m s Hlive Hfit' Hnd Hdc)
        as (s' & p & Hone & Hl' & _).
      exists s', (<[Name rule := VRes p]> r).
      split; [eapply One; [done | by unfold GetResult; rewrite Hr | done] |].
      split; [done |]. intros k Hk. by rewrite lookup_insert_ne.
    + exists s, r. split; [by apply OneNone | done].
Qed.

Lemma accepted_rule rule : accepted E concurrency rule.
Proof.
  induction rule as [rule IH] using rule_tree_ind.
  intros baseDir r s Hlive Hfit Hdist.
  apply acceptedAll_of in IH.
  set (f := {| uuid := ""; hex := ""; base64 := ""; unix := 0 |}).
  destruct (Download rule) eqn:Hd.
  - (* the downloads, and nothing below the array of paths *)
    destruct (pool_returns_live (GetResultStringArray r (Name rule))
                (dirOf E f baseDir rule) s.1)
      as (st & Hrun & Hret & Hdone).
    exists (outside st, done_ctx st),
           (<[Name rule := VStrs (downloadList st)]> r).
    split; [| split; [done |]].
    + eapply (Rule _ _ _ _ _ _ _ f); [by left | | | apply NoRule].
      * rewrite Hd. exists st. by rewrite Hlive.
      * eapply Below_paths_exists. apply lookup_insert_eq.
    + intros k Hk. by rewrite lookup_insert_ne.
  - destruct (Children rule) as [| c0 cs0] eqn:Hcs.
    + exists s, r. split; [| done]. apply Skip; [done | done | apply NoRule].
    + rewrite <- Hcs in *.
      assert (Hne : Children rule <> []) by by rewrite Hcs.
      destruct (below_accepted rule (dirOf E f baseDir rule) r s
                  Hd Hne IH Hlive Hfit Hdist) as (s2 & r2 & Hb & Hl2 & Hk2).
      exists s2, r2. split; [| done].
      eapply (Rule _ _ _ _ _ _ _ f); [by right | | exact Hb | apply NoRule].
      by rewrite Hd.
Qed.

End Accepted.

(** X21. What [Scrape] returns for rules whose names are distinct among
    siblings at every level goes through [DownloadResults] with the same
    rules: every element of an array that the downloader takes for a
    [Result] is one, so with a live context the call returns. *)
Theorem DownloadResults_accepts_Scrape (W : Collab) (E : Env)
    (pageURL : string) (rules : list ExtractionRule)
    (r : gmap string value) (concurrency : Z) (w : world)
    (baseDir : string) :
  distinctRules rules ->
  Scrape W pageURL rules = Ok r ->
  exists s' r',
    DownloadResults E concurrency (w, false) r rules baseDir s' r'.
Proof.
  intros [Hnd Hdist]. unfold Scrape.
  destruct (Fetch W pageURL) as [doc|]; [| done].
  destruct (urlParse W pageURL) as [base|]; [| done].
  intros Hr%scrapeRules_fits; [| done | done].
  destruct (acceptedAll_of E concurrency rules) with (baseDir := baseDir)
    (r := r) (s := (w, false)) as (s' & r' & Hcall & _); try done.
  - apply Forall_forall. intros rule _. apply accepted_rule.
  - by exists s', r'.
Qed.

Lemma DownloadResults_accepts_Scrape_witness :
  exists r,
    Scrape Sample.web "http://e.com" [Sample.rows; Sample.pictures] = Ok r
    /\ exists s' r',
         DownloadResults Sample.net 2 (Sample.emptyWorld, false) r
           [Sample.rows; Sample.pictures] "" s' r'.
Proof.
  eexists. split; [reflexivity |].
  apply (DownloadResults_accepts_Scrape Sample.web Sample.net "http://e.com"
           [Sample.rows; Sample.pictures] _ 2 Sample.emptyWorld "");
    [| reflexivity].
  split.
  - cbn. apply NoDup_cons_2; [| apply NoDup_singleton].
    intros Hin%list_elem_of_singleton. discriminate Hin.
  - apply Forall_cons_2; [| apply Forall_cons_2; [| apply Forall_nil_2]].
    + cbn. split; [apply NoDup_singleton |].
      split; [| exact I]. split; [apply NoDup_nil_2 | exact I].
    + cbn. split; [apply NoDup_nil_2 | exact I].
Defined.

End ShapeFacts.

(** ** The stash of fetched pages *)

Module FetcherFacts.
Import Extract Download Fetcher.

(** A space becomes an underscore, and so does a rune of two bytes. *)
Example file_name_bytes :
  sanitize 0
    ("e.com_a b_"
     +:+ String (ascii_of_nat 195) (String (ascii_of_nat 169) ".html"))
  = "e.com_a_b__.html".
Proof. reflexivity. Qed.

Lemma kept_underscore : kept "_" = true.
Proof. reflexivity. Qed.

Lemma sanitize_kept s c : forall k,
  Strings.occurs c (sanitize k s) = true -> kept c = true.
Proof.
  induction s as [| c0 s IH]; intros k; [done |]. cbn [sanitize].
  destruct k as [| k]; [| apply IH].
  destruct (kept c0) eqn:Hc0; cbn [Strings.occurs].
  - intros [Hc | Hc]%orb_true_iff; [| by eapply IH].
    by apply Ascii.eqb_eq in Hc as <-.
  - intros [Hc | Hc]%orb_true_iff; [| by eapply IH].
    by apply Ascii.eqb_eq in Hc as <-.
Qed.

Lemma stash_present U D w url d data' :
  StashEnabled D = true ->
  FileNameFromURL U url = Some d ->
  d <> "" ->
  is_Some (files w !! d) ->
  stash U D w url data' = (w, files w !! d).
Proof.
  intros Hon Hd Hne [content Hfile]. unfold stash. rewrite Hon, Hd.
  cbn [negb]. unfold default. cbn [from_option id].
  unfold absent, notExist. rewrite Hfile.
  destruct d; [done |]. cbn [Strings.is_empty orb].
  by rewrite bool_decide_eq_false_2.
Qed.

(** X22. The file name [FileNameFromURL] returns holds letters, digits,
    underscores, dots and hyphens only, whatever the URL: it has no path
    separator in it. *)
Theorem FileNameFromURL_safe_bytes (U : Urls) rawurl name :
  FileNameFromURL U rawurl = Some name ->
  (forall c, Strings.occurs c name = true -> kept c = true)
  /\ Strings.occurs "/" name = false.
Proof.
  unfold FileNameFromURL.
  destruct (parts U rawurl) as [[[host p] rawQuery]|]; [| done].
  intros [= <-]. split.
  - intros c Hc. by eapply sanitize_kept.
  - match goal with |- Strings.occurs _ ?n = false =>
      destruct (Strings.occurs "/" n) eqn:Ho; [| done] end.
    by apply sanitize_kept in Ho.
Qed.

Lemma stash_stores (U : Urls) (D : Disk) w url d data :
  StashEnabled D = true ->
  FileNameFromURL U url = Some d ->
  d <> "" ->
  notExist w d = true ->
  written D d data = Some data ->
  exists w1,
    stash U D w url (Some data) = (w1, Some data)
    /\ forall url' data',
         FileNameFromURL U url' = Some d ->
         stash U D w1 url' data' = (w1, Some data).
Proof.
  intros Hon Hd Hne Habs Hwr. exists (writeFile d data w). split.
  - unfold stash. rewrite Hon, Hd. cbn [negb]. unfold default.
    cbn [from_option id]. unfold absent. rewrite Habs, orb_true_r.
    destruct d; [done |]. cbn [Strings.is_empty]. by rewrite Hwr.
  - intros url' data' Hd'.
    rewrite (stash_present U D _ url' d data' Hon Hd' Hne).
    + unfold writeFile. cbn [files]. by rewrite lookup_insert_eq.
    + unfold writeFile. cbn [files]. by rewrite lookup_insert_eq.
Qed.

Lemma FileNameFromURL_safe_bytes_witness :
  (forall c, Strings.occurs c "e.com_a_b" = true -> kept c = true)
  /\ Strings.occurs "/" "e.com_a_b" = false.
Proof.
  exact (FileNameFromURL_safe_bytes Sample.urls "/a b" "e.com_a_b" eq_refl).
Defined.

(** X23. With the stash on, the bytes stored for a URL whose file was
    not there are the bytes every later call returns for that URL, and
    for any URL with the same file name, whatever data the call is given;
    the later calls leave the disk as it is. *)
Theorem stash_serves_what_it_stored (U : Urls) (D : Disk) w url d data :
  StashEnabled D = true ->
  FileNameFromURL U url = Some d ->
  d <> "" ->
  notExist w d = true ->
  written D d data = Some data ->
  exists w1,
    stash U D w url (Some data) = (w1, Some data)
    /\ forall url' data',
         FileNameFromURL U url' = Some d ->
         stash U D w1 url' data' = (w1, Some data).
Proof. apply stash_stores. Qed.

Lemma stash_serves_what_it_stored_witness :
  exists w1,
    stash Sample.urls Sample.disk Sample.emptyWorld "/a b" (Some "<p>")
    = (w1, Some "<p>")
    /\ forall url' data',
         FileNameFromURL Sample.urls url' = Some "e.com_a_b" ->
         stash Sample.urls Sample.disk w1 url' data' = (w1, Some "<p>").
Proof.
  apply (stash_serves_what_it_stored Sample.urls Sample.disk
           Sample.emptyWorld "/a b" "e.com_a_b" "<p>");
    try reflexivity; discriminate.
Defined.

(** X24. With the stash on, a page the ScraperAPI fetcher got with
    status 200 and stored is not requested again: the next [Fetch] of the
    URL, by any fetcher, returns the document of the stored bytes and
    makes no request. *)
Theorem Fetch_second_time_from_stash (U : Urls) (D : Disk) (N : Web)
    f w pageURL d body :
  StashEnabled D = true ->
  FileNameFromURL U pageURL = Some d ->
  d <> "" ->
  notExist w d = true ->
  Get N (requestURL N f pageURL) = Some (200%Z, body) ->
  written D d body = Some body ->
  exists w1,
    Fetch U D N f w pageURL = (w1, NewDocumentFromReader N body)
    /\ log w1 = log w ++ [HttpGet (requestURL N f pageURL)]
    /\ forall f',
         Fetch U D N f' w1 pageURL = (w1, NewDocumentFromReader N body).
Proof.
  intros Hon Hd Hne Habs Hget Hwr.
  set (w0 := emit (HttpGet (requestURL N f pageURL)) w).
  assert (Habs0 : notExist w0 d = true) by done.
  destruct (stash_stores U D w0 pageURL d body
              Hon Hd Hne Habs0 Hwr) as (w1 & Hput & Hlater).
  exists w1. split; [| split].
  - unfold Fetch.
    assert (Hnil : stash U D w pageURL None = (w, None)).
    { unfold stash. rewrite Hon, Hd. cbn [negb]. unfold default.
      cbn [from_option id]. unfold absent. by rewrite Habs, orb_true_r. }
    rewrite Hnil, Hget. cbn [negb Z.eqb Pos.eqb]. fold w0. by rewrite Hput.
  - unfold stash in Hput. rewrite Hon, Hd in Hput. cbn [negb] in Hput.
    unfold default in Hput. cbn [from_option id] in Hput.
    unfold absent in Hput. rewrite Habs0, orb_true_r in Hput.
    destruct d; [done |]. cbn [Strings.is_empty] in Hput.
    rewrite Hwr in Hput. by injection Hput as <-.
  - intros f'. unfold Fetch. by rewrite (Hlater pageURL None Hd).
Qed.

Lemma Fetch_second_time_from_stash_witness :
  exists w1,
    Fetch Sample.urls Sample.disk Sample.internet Sample.scraper
      Sample.emptyWorld "/a b"
    = (w1, Ok "<p>")
    /\ log w1
       = [HttpGet "http://api.scraperapi.com/?api_key=k&render=true&url=/a b"]
    /\ forall f',
         Fetch Sample.urls Sample.disk Sample.internet f' w1 "/a b"
         = (w1, Ok "<p>").
Proof.
  apply (Fetch_second_time_from_stash Sample.urls Sample.disk
           Sample.internet Sample.scraper Sample.emptyWorld "/a b"
           "e.com_a_b" "<p>");
    try reflexivity; discriminate.
Defined.

End FetcherFacts.

(** ** Rule files *)

Module RulesFacts.
Import Extract Download Rules.

(** Entries that raise no error and load are gone through, and their
    rules gathered. *)
Lemma walk_prefix F es rest :
  forall all rules,
    Forall (fun e => walkErr e = None) es ->
    Forall2 (fun e rs => load F e = Ok rs) (filter ruleFile es) rules ->
    walk F (es ++ rest) all = walk F rest (all ++ concat rules).
Proof.
  induction es as [| e es IH]; intros all rules Herr Hload.
  - inversion Hload; subst. by rewrite app_nil_r.
  - apply Forall_cons in Herr as [He Herr].
    change ((e :: es) ++ rest) with (e :: (es ++ rest)).
    cbn [walk]. rewrite He.
    destruct (ruleFile e) eqn:Hrf.
    + rewrite filter_cons_True in Hload by (by rewrite Hrf).
      inversion Hload as [| ? rs ? rules' Hrs Hrest]; subst.
      unfold ruleFile in Hrf. unfold load in Hrs.
      apply andb_true_iff in Hrf as [Hdir Hext].
      apply negb_true_iff in Hdir. rewrite Hdir.
      cbn [concat]. rewrite app_assoc.
      destruct (String.eqb (Ext (path e)) ".json").
      * rewrite Hrs. by apply IH.
      * cbn [orb] in Hext. rewrite Hext, Hrs. by apply IH.
    + rewrite filter_cons_False in Hload by (rewrite Hrf; intros []).
      unfold ruleFile in Hrf.
      destruct (IsDir e); [by apply IH |]. cbn [negb andb] in Hrf.
      destruct (String.eqb (Ext (path e)) ".json"); [done |].
      cbn [orb] in Hrf. rewrite Hrf. by apply IH.
Qed.

(** X25. [LoadRulesFromDir] gathers the rules of the files with the
    extension [.json], [.yaml] or [.yml] in the order of the walk;
    directories and files with another extension add nothing. When the
    walk meets no error and every such file loads, it returns their rules
    and no error. At the first entry the walk fails on, and at the first
    file that does not load, it stops, and returns the error together with
    the rules gathered before. *)
Theorem LoadRulesFromDir_collects (F : Files) dirPath rules :
  (Forall (fun e => walkErr e = None) (WalkDir F dirPath) ->
   Forall2 (fun e rs => load F e = Ok rs)
           (filter ruleFile (WalkDir F dirPath)) rules ->
   LoadRulesFromDir F dirPath = (concat rules, None))
  /\ (forall before e after,
        WalkDir F dirPath = before ++ e :: after ->
        Forall (fun e => walkErr e = None) before ->
        Forall2 (fun e rs => load F e = Ok rs)
                (filter ruleFile before) rules ->
        (forall err, walkErr e = Some err ->
           LoadRulesFromDir F dirPath = (concat rules, Some err))
        /\ (forall err,
              walkErr e = None -> ruleFile e = true ->
              load F e = Err err ->
              exists err',
                LoadRulesFromDir F dirPath = (concat rules, Some err'))).
Proof.
  unfold LoadRulesFromDir. split.
  - intros Herr Hload.
    rewrite <- (app_nil_r (WalkDir F dirPath)).
    by rewrite (walk_prefix F _ [] [] rules Herr Hload).
  - intros before e after -> Herr Hload.
    rewrite (walk_prefix F _ _ [] rules Herr Hload). cbn [app walk].
    split.
    + by intros err ->.
    + intros err -> Hrf Hl. unfold ruleFile in Hrf. unfold load in Hl.
      apply andb_true_iff in Hrf as [Hdir Hext].
      apply negb_true_iff in Hdir. rewrite Hdir.
      destruct (String.eqb (Ext (path e)) ".json").
      * rewrite Hl. by eexists.
      * cbn [orb] in Hext. rewrite Hext, Hl. by eexists.
Qed.

Lemma LoadRulesFromDir_collects_witness :
  LoadRulesFromDir Sample.folder "d"
  = (concat [[Sample.leaf "items" "li" "" true]], None).
Proof.
  apply (proj1 (LoadRulesFromDir_collects Sample.folder "d"
                  [[Sample.leaf "items" "li" "" true]])).
  - repeat constructor.
  - repeat constructor.
Defined.

End RulesFacts.
